(** * Accept-invite protocol of the clinic front end

    A shallow embedding of [src/pages/AcceptInvite.tsx] (the [AcceptInvite]
    component: its [run] function and the authentication callback it
    registers) and of [setOrg] from [src/scope/ScopeContext.tsx], followed by
    the properties of the invite-acceptance protocol.

    Modelling conventions
    - JavaScript strings are [string]s of bytes; [trim] and [toLowerCase]
      act on the ASCII range, [encodeURIComponent] escapes byte by byte.
    - A Firestore document is a finite map from field names to [value]s; a
      field that is absent reads as [None] (JavaScript [undefined]).
    - The remote store is one finite map from document paths to documents;
      an identifier is one segment of a path.
    - Every asynchronous call is one step of a state monad with exceptions
      that also emits the list of observable events of the step.  A remote
      call is rejected when the environment's oracle says so, and access to
      [localStorage] throws when the environment denies it.
    - A run is [run()] followed by one call of the callback registered with
      [onAuthStateChanged]; nobody else writes to the store meanwhile. *)

From Stdlib Require Import String Ascii List ZArith Bool Lia.
From stdpp Require Import base option gmap strings list fin_maps.

Import ListNotations.
Local Open Scope string_scope.
Local Open Scope list_scope.

(** ** JavaScript string primitives *)

Module JsString.

Definition is_space (c : ascii) : bool :=
  let n := nat_of_ascii c in
  Nat.eqb n 32 || (Nat.leb 9 n && Nat.leb n 13).

Fixpoint trimStart (s : string) : string :=
  match s with
  | EmptyString => EmptyString
  | String c r => if is_space c then trimStart r else s
  end.

Fixpoint trimEnd (s : string) : string :=
  match s with
  | EmptyString => EmptyString
  | String c r =>
      match trimEnd r with
      | EmptyString => if is_space c then EmptyString else String c EmptyString
      | r' => String c r'
      end
  end.

Definition trim (s : string) : string := trimEnd (trimStart s).

Definition lower_ascii (c : ascii) : ascii :=
  let n := nat_of_ascii c in
  if Nat.leb 65 n && Nat.leb n 90 then ascii_of_nat (n + 32) else c.

Fixpoint toLowerCase (s : string) : string :=
  match s with
  | EmptyString => EmptyString
  | String c r => String (lower_ascii c) (toLowerCase r)
  end.

(** [s.split(sep)] for a one-character separator. *)
Fixpoint split (sep : ascii) (s : string) : list string :=
  match s with
  | EmptyString => [EmptyString]
  | String c r =>
      if Ascii.eqb c sep then EmptyString :: split sep r
      else match split sep r with
           | p :: ps => String c p :: ps
           | [] => [String c EmptyString]
           end
  end.

Fixpoint join (sep : string) (l : list string) : string :=
  match l with
  | [] => EmptyString
  | [x] => x
  | x :: rest => x ++ sep ++ join sep rest
  end.

(** JavaScript truthiness of a string. *)
Definition nonempty (s : string) : bool :=
  match s with EmptyString => false | _ => true end.

(** [s || null] *)
Definition or_null (s : string) : option string :=
  if nonempty s then Some s else None.

(** Truthiness of a [string | null]. *)
Definition truthy (o : option string) : bool :=
  match o with Some s => nonempty s | None => false end.

(** [a || b] on [string | null]. *)
Definition or_else (a b : option string) : option string :=
  if truthy a then a else b.

Definition is_alnum (c : ascii) : bool :=
  let n := nat_of_ascii c in
  (Nat.leb 48 n && Nat.leb n 57) || (Nat.leb 65 n && Nat.leb n 90)
  || (Nat.leb 97 n && Nat.leb n 122).

(** Characters [encodeURIComponent] leaves alone: A-Z a-z 0-9 - _ . ! ~ * ' ( ) *)
Definition uri_unreserved (c : ascii) : bool :=
  is_alnum c ||
  existsb (Nat.eqb (nat_of_ascii c)) [45; 95; 46; 33; 126; 42; 39; 40; 41].

Definition hex_digit (n : nat) : ascii :=
  if Nat.ltb n 10 then ascii_of_nat (48 + n) else ascii_of_nat (55 + n).

Fixpoint encodeURIComponent (s : string) : string :=
  match s with
  | EmptyString => EmptyString
  | String c r =>
      if uri_unreserved c then String c (encodeURIComponent r)
      else
        let n := nat_of_ascii c in
        String "%" (String (hex_digit (n / 16)) (String (hex_digit (n mod 16))
          (encodeURIComponent r)))
  end.

End JsString.

(** ** Firestore values and documents *)

Inductive value :=
| VNull
| VBool (b : bool)
| VNum (n : Z)
| VStr (s : string)
| VTime (t : nat)                       (* a resolved [serverTimestamp()] *)
| VScope (orgId : string) (orgName : value).  (* [{ mode: "org", orgId, orgName }] *)

#[global] Instance value_eq_dec : EqDecision value.
Proof. solve_decision. Defined.

Abbreviation document := (gmap string value).
Abbreviation path := (list string).
Abbreviation store := (gmap (list string) (gmap string value)).

Module Js.

(** Truthiness of a field read ([None] is [undefined]). *)
Definition truthy (o : option value) : bool :=
  match o with
  | None | Some VNull => false
  | Some (VBool b) => b
  | Some (VNum n) => negb (Z.eqb n 0)
  | Some (VStr s) => JsString.nonempty s
  | Some (VTime _) | Some (VScope _ _) => true
  end.

(** [o ?? d] where [d] may itself be [undefined]. *)
Definition coalesce (o : option value) (d : option value) : option value :=
  match o with
  | None | Some VNull => d
  | Some v => Some v
  end.

(** [a !== b] *)
Definition strict_neq (a b : option value) : bool := negb (bool_decide (a = b)).

(** A [string | null] as a field value. *)
Definition of_string (o : option string) : value :=
  match o with Some s => VStr s | None => VNull end.

End Js.

(** ** The world the component runs in *)

(** Remote calls of the Firestore SDK. *)
Inductive opkind := Get | Update | SetDoc | SetMerge | Delete.

#[global] Instance opkind_eq_dec : EqDecision opkind.
Proof. solve_decision. Defined.

(** Errors the SDK raises by itself (their texts are the SDK's). *)
Inductive sdk_error :=
| InvalidData      (* a payload field is [undefined] *)
| NoDocument       (* [updateDoc] on a document that does not exist *)
| InvalidSegment.  (* [doc()] called with a segment that is not a string *)

(** What the component cannot control. *)
Record env := {
  (** [rejects k p = Some msg]: the remote call [k] on [p] is rejected with
      an error whose [message] is [msg] (empty when it has none). *)
  rejects : opkind -> path -> option string;
  (** access to [localStorage] throws *)
  storage_denied : bool;
  (** Firestore setting [ignoreUndefinedProperties] of [src/firebase.ts] *)
  ignore_undefined : bool;
  (** [authUser?.uid] as the [ScopeProvider] sees it *)
  scope_user : option string;
  sdk_message : sdk_error -> string;
}.

(** [firebase/auth]'s [User], the fields the component reads. *)
Record user := {
  uid : string;
  email : option string;
  displayName : option string;
}.

Record world := {
  db : store;
  localStorage : gmap string string;
  clock : nat;                       (* server time *)
  busy : bool;                       (* [useState(true)] *)
  err : option string;               (* [useState<string | null>(null)] *)
  completedRef : bool;               (* [useRef(false)] *)
  scope : option (string * value);   (* [ScopeProvider]'s selected org *)
}.

Definition set_db (f : store -> store) (w : world) : world :=
  {| db := f (db w); localStorage := localStorage w; clock := S (clock w);
     busy := busy w; err := err w; completedRef := completedRef w;
     scope := scope w |}.

Definition set_localStorage (f : gmap string string -> gmap string string)
    (w : world) : world :=
  {| db := db w; localStorage := f (localStorage w); clock := clock w;
     busy := busy w; err := err w; completedRef := completedRef w;
     scope := scope w |}.

Definition set_busy (b : bool) (w : world) : world :=
  {| db := db w; localStorage := localStorage w; clock := clock w;
     busy := b; err := err w; completedRef := completedRef w;
     scope := scope w |}.

Definition set_err (e : option string) (w : world) : world :=
  {| db := db w; localStorage := localStorage w; clock := clock w;
     busy := busy w; err := e; completedRef := completedRef w;
     scope := scope w |}.

Definition set_completedRef (b : bool) (w : world) : world :=
  {| db := db w; localStorage := localStorage w; clock := clock w;
     busy := busy w; err := err w; completedRef := b;
     scope := scope w |}.

Definition set_scope (s : option (string * value)) (w : world) : world :=
  {| db := db w; localStorage := localStorage w; clock := clock w;
     busy := busy w; err := err w; completedRef := completedRef w;
     scope := s |}.

(** What an observer of one run can see, in order. *)
Inductive event :=
| ERead (p : path) (ok : bool)
| EWrite (k : opkind) (p : path) (data : document) (ok : bool)
| ELocalRemove (key : string)
| ELocalSet (key val : string)
| ENavigate (to : string) (replace : bool) (toast : option value)
| EConsoleError (msg : string).

(** ** The monad: state, exceptions and an event log *)

Inductive res (A : Type) :=
| Val (a : A)
| Exn (msg : string).
Arguments Val {A} a.
Arguments Exn {A} msg.

Definition M (A : Type) : Type := world -> res A * world * list event.

Definition ret {A} (a : A) : M A := fun w => (Val a, w, []).

Definition bind {A B} (m : M A) (k : A -> M B) : M B := fun w =>
  match m w with
  | (Val a, w1, l1) =>
      match k a w1 with
      | (r, w2, l2) => (r, w2, l1 ++ l2)
      end
  | (Exn e, w1, l1) => (Exn e, w1, l1)
  end.

Declare Scope js_scope.
Delimit Scope js_scope with js.
Notation "x <- m ;; k" := (bind m (fun x => k))
  (at level 100, m at next level, right associativity) : js_scope.
Notation "m ;; k" := (bind m (fun _ => k))
  (at level 100, right associativity) : js_scope.
Local Open Scope js_scope.

Definition throw {A} (msg : string) : M A := fun w => (Exn msg, w, []).

(** [try { m } catch (e) { h e }] *)
Definition try_catch {A} (m : M A) (h : string -> M A) : M A := fun w =>
  match m w with
  | (Val a, w1, l1) => (Val a, w1, l1)
  | (Exn e, w1, l1) =>
      match h e w1 with
      | (r, w2, l2) => (r, w2, l1 ++ l2)
      end
  end.

(** [try { m } catch { }] *)
Definition swallow (m : M unit) : M unit := try_catch m (fun _ => ret tt).

(** [try { m } finally { f }] where [f] does not throw. *)
Definition finally {A} (m : M A) (f : world -> world) : M A := fun w =>
  match m w with
  | (r, w1, l1) => (r, f w1, l1)
  end.

Definition modify (f : world -> world) : M unit := fun w => (Val tt, f w, []).
Definition emit (e : event) : M unit := fun w => (Val tt, w, [e]).

Definition setBusy (b : bool) : M unit := modify (set_busy b).
Definition setErr (e : option string) : M unit := modify (set_err e).

Definition navigate (to : string) (replace : bool) (toast : option value)
  : M unit := emit (ENavigate to replace toast).

Definition console_error (msg : string) : M unit := emit (EConsoleError msg).

(** [serverTimestamp()], resolved by the server at the write. *)
Definition serverTimestamp : M value := fun w => (Val (VTime (clock w)), w, []).

(** A payload as written in the source: a field may be [undefined]. *)
Abbreviation fields := (list (string * option value)).

Definition has_undefined (fs : fields) : bool :=
  existsb (fun kv => match snd kv with None => true | Some _ => false end) fs.

Definition data_of (fs : fields) : document :=
  list_to_map (omap (fun kv => match snd kv with
                               | Some v => Some (fst kv, v)
                               | None => None
                               end) fs).

Section Primitives.

Context (E : env).

(** *** [localStorage] *)

Definition removeItem (key : string) : M unit := fun w =>
  if storage_denied E then (Exn EmptyString, w, [])
  else (Val tt, set_localStorage (delete key) w, [ELocalRemove key]).

Definition setItem (key val : string) : M unit := fun w =>
  if storage_denied E then (Exn EmptyString, w, [])
  else (Val tt, set_localStorage (insert key val) w, [ELocalSet key val]).

(** *** Firestore *)

(** [doc(db, ...prefix, id)] where [id] was read from a document. *)
Definition doc_ref (prefix : path) (id : option value) : M path :=
  match id with
  | Some (VStr s) => ret (prefix ++ [s])
  | _ => throw (sdk_message E InvalidSegment)
  end.

(** [getDoc(ref)]: the snapshot's data, [None] when [!snap.exists()]. *)
Definition getDoc (p : path) : M (option document) := fun w =>
  match rejects E Get p with
  | Some msg => (Exn msg, w, [ERead p false])
  | None => (Val (db w !! p), w, [ERead p true])
  end.

(** The SDK validates the payload before it sends anything. *)
Definition validated (fs : fields) (k : M unit) : M unit :=
  if has_undefined fs && negb (ignore_undefined E)
  then throw (sdk_message E InvalidData)
  else k.

(** [updateDoc(ref, fs)]: only the listed fields change; the document must
    exist. *)
Definition updateDoc (p : path) (fs : fields) : M unit :=
  validated fs (fun w =>
    match rejects E Update p with
    | Some msg => (Exn msg, w, [EWrite Update p (data_of fs) false])
    | None =>
        match db w !! p with
        | None =>
            (Exn (sdk_message E NoDocument), w,
             [EWrite Update p (data_of fs) false])
        | Some old =>
            (Val tt, set_db (insert p (data_of fs ∪ old)) w,
             [EWrite Update p (data_of fs) true])
        end
    end).

(** [setDoc(ref, fs, { merge })] *)
Definition setDoc (p : path) (fs : fields) (merge : bool) : M unit :=
  validated fs (fun w =>
    let k := if merge then SetMerge else SetDoc in
    match rejects E k p with
    | Some msg => (Exn msg, w, [EWrite k p (data_of fs) false])
    | None =>
        let new :=
          if merge then data_of fs ∪ default ∅ (db w !! p) else data_of fs in
        (Val tt, set_db (insert p new) w, [EWrite k p (data_of fs) true])
    end).

(** [deleteDoc(ref)] *)
Definition deleteDoc (p : path) : M unit := fun w =>
  match rejects E Delete p with
  | Some msg => (Exn msg, w, [EWrite Delete p ∅ false])
  | None => (Val tt, set_db (delete p) w, [EWrite Delete p ∅ true])
  end.

End Primitives.

(** ** [setOrg] of [src/scope/ScopeContext.tsx] *)

Section Controller.

Context (E : env).

Definition setOrg (orgId : string) (orgName : option value) : M unit :=
  if negb (JsString.nonempty orgId) then throw "setOrg: missing orgId"
  else
    let name := default VNull (Js.coalesce orgName (Some VNull)) in
    modify (set_scope (Some (orgId, name)));;
    match scope_user E with
    | Some who =>
        try_catch
          (updateDoc E ["users"; who] [("scope", Some (VScope orgId name))])
          (fun _ =>
             setDoc E ["users"; who] [("scope", Some (VScope orgId name))] true)
    | None => ret tt
    end.

(** ** [AcceptInvite] of [src/pages/AcceptInvite.tsx] *)

Definition PENDING_INVITE_KEY : string := "pendingInvitePath".
Definition AFTER_ONBOARDING_NEXT : string := "afterOnboardingNext".

(** Where a run ends; one constructor per [return] of the source, [Failed]
    for the [catch] of the callback. *)
Inductive outcome :=
| InvalidLink
| TokenNotFound
| SignInRequired
| MalformedToken
| InviteNotFound
| NotPending
| EmailMismatch
| DetourOnboarding
| Done
| Failed (msg : string).

Definition invitePath (token : option string) (orgId : string) : string :=
  match token with
  | Some t =>
      if JsString.nonempty t && JsString.nonempty orgId
      then "/invite/" ++ JsString.encodeURIComponent t
           ++ "?org=" ++ JsString.encodeURIComponent orgId
      else EmptyString
  | None => EmptyString
  end.

(** The receiver of [.trim()] in [(x || "").trim()]; [None] when [x] is
    truthy and not a string, where the call throws a [TypeError]. *)
Definition string_or_empty (o : option value) : option string :=
  if Js.truthy o
  then match o with Some (VStr s) => Some s | _ => None end
  else Some EmptyString.

(** The two assignments inside the [try] that reads the profile; the second
    is not reached when the first throws. *)
Definition profile_names (p : document) : option string * option string :=
  match string_or_empty (p !! "firstName") with
  | None => (None, None)
  | Some f =>
      let firstName := JsString.or_null (JsString.trim f) in
      match string_or_empty (p !! "lastName") with
      | None => (firstName, None)
      | Some l => (firstName, JsString.or_null (JsString.trim l))
      end
  end.

Definition load_names (who : string) : M (option string * option string) :=
  try_catch
    (baseSnap <- getDoc E ["users"; who];;
     ret (match baseSnap with
          | Some p => profile_names p
          | None => (None, None)
          end))
    (fun _ => ret (None, None)).

(** Last attempt: take the names apart from [displayName]. *)
Definition fallback_names (u : user) (names : option string * option string)
  : option string * option string :=
  let firstName := fst names in
  let lastName := snd names in
  if negb (JsString.truthy firstName) || negb (JsString.truthy lastName) then
    let parts :=
      List.filter JsString.nonempty
        (JsString.split " " (JsString.trim (default EmptyString (displayName u)))) in
    (JsString.or_else (JsString.or_else firstName (head parts)) None,
     JsString.or_else lastName
       (JsString.or_null (JsString.join " " (List.tl parts))))
  else names.

(** [(u.email || "").trim().toLowerCase() || null] *)
Definition myEmail (u : user) : option string :=
  JsString.or_null
    (JsString.toLowerCase (JsString.trim (default EmptyString (email u)))).

(** [inv.email_lc ?? (typeof inv.email === "string" ? ... : null)] *)
Definition inviteEmailLC (inv : document) : option value :=
  Js.coalesce (inv !! "email_lc")
    (Some (match inv !! "email" with
           | Some (VStr s) => VStr (JsString.toLowerCase (JsString.trim s))
           | _ => VNull
           end)).

Definition claim_fields (inv : document) (u : user)
    (firstName lastName : option string) (now : value) : fields :=
  [ ("status", Js.coalesce (inv !! "status") (Some (VStr "pending")));
    ("role", Js.coalesce (inv !! "role") (Some (VStr "member")));
    ("email", Js.coalesce (inv !! "email") (Some VNull));
    ("phone", Js.coalesce (inv !! "phone") (Some VNull));
    ("createdBy", inv !! "createdBy");
    ("claimedBy", Some (VStr (uid u)));
    ("claimedEmail", Some (Js.of_string (myEmail u)));
    ("claimedEmail_lc", Some (Js.of_string (myEmail u)));
    ("claimedFirstName", Some (Js.of_string firstName));
    ("claimedLastName", Some (Js.of_string lastName));
    ("claimedAt", Some now) ].

Definition member_fields (inv : document) (u : user)
    (firstName lastName : option string) (inviteId : option value)
    (now : value) : fields :=
  [ ("userId", Some (VStr (uid u)));
    ("email", Some (Js.of_string (email u)));
    ("firstName", Some (Js.of_string firstName));
    ("lastName", Some (Js.of_string lastName));
    ("role", Js.coalesce (inv !! "role") (Some (VStr "member")));
    ("addedAt", Some now);
    ("fromInviteId", inviteId) ].

Definition index_fields (inv : document) (orgId : string) (orgName : value)
    (now : value) : fields :=
  [ ("orgId", Some (VStr orgId));
    ("orgName", Some orgName);
    ("role", Js.coalesce (inv !! "role") (Some (VStr "member")));
    ("joinedAt", Some now) ].

(** [let orgName = "Clinic"; try { ... || orgName } catch { }] *)
Definition load_orgName (orgId : string) : M value :=
  try_catch
    (orgSnap <- getDoc E ["orgs"; orgId];;
     let name := orgSnap ≫= (fun d => d !! "name") in
     ret (if Js.truthy name then default (VStr "Clinic") name
          else VStr "Clinic"))
    (fun _ => ret (VStr "Clinic")).

(** Steps 4 to 8 of the callback: claim, member, reverse index, delete,
    then [localStorage], scope and navigation. *)
Definition join (orgId : string) (inviteRef : path) (inviteId : option value)
    (inv : document) (u : user) (firstName lastName : option string)
  : M outcome :=
  (* 4) claim invite *)
  now <- serverTimestamp;;
  updateDoc E inviteRef (claim_fields inv u firstName lastName now);;
  (* 5) create member *)
  now <- serverTimestamp;;
  setDoc E ["orgs"; orgId; "members"; uid u]
    (member_fields inv u firstName lastName inviteId now) false;;
  (* 6) reverse index *)
  orgName <- load_orgName orgId;;
  now <- serverTimestamp;;
  setDoc E ["users"; uid u; "orgMemberships"; orgId]
    (index_fields inv orgId orgName now) true;;
  (* 7) delete invite *)
  swallow (deleteDoc E inviteRef);;
  (* 8) localStorage, scope, navigation *)
  swallow (removeItem E PENDING_INVITE_KEY;;
           removeItem E AFTER_ONBOARDING_NEXT);;
  setOrg orgId (Some orgName);;
  (fun w =>
     if negb (completedRef w) then
       (modify (set_completedRef true);;
        navigate "/" true (Some orgName)) w
     else ret tt w);;
  ret Done.

(** Steps 2 and 3 of the callback, once the invite [inv] is known to be
    pending: the email guard and the names, then [join]. *)
Definition guard_and_join (orgId link : string) (inviteRef : path)
    (inviteId : option value) (inv : document) (u : user) : M outcome :=
  (* 2) email soft guard *)
  if Js.truthy (inviteEmailLC inv) && JsString.truthy (myEmail u)
     && Js.strict_neq (inviteEmailLC inv) (Some (Js.of_string (myEmail u)))
  then
    setErr (Some "This invitation is addressed to a different email.");;
    setBusy false;;
    ret EmailMismatch
  else
  (* 3) first and last name, or onboarding *)
  names <- load_names (uid u);;
  let firstName := fst (fallback_names u names) in
  let lastName := snd (fallback_names u names) in
  if negb (JsString.truthy firstName) || negb (JsString.truthy lastName) then
    swallow (setItem E AFTER_ONBOARDING_NEXT link);;
    navigate "/onboarding" true None;;
    ret DetourOnboarding
  else
  join orgId inviteRef inviteId inv u firstName lastName.

(** The [try] block of the callback. *)
Definition accept (orgId link : string) (tokenData : document) (u : user)
  : M outcome :=
  setBusy true;;
  (* 1) resolve invite *)
  let inviteId := tokenData !! "inviteId" in
  if negb (Js.truthy inviteId) then
    setErr (Some "Malformed invite token.");; setBusy false;;
    ret MalformedToken
  else
  inviteRef <- doc_ref E ["orgs"; orgId; "invites"] inviteId;;
  inviteSnap <- getDoc E inviteRef;;
  match inviteSnap with
  | None =>
      setErr (Some "Invite not found.");; setBusy false;;
      ret InviteNotFound
  | Some inv =>
      if Js.truthy (inv !! "status")
         && Js.strict_neq (inv !! "status") (Some (VStr "pending")) then
        setErr (Some "This invitation is not pending anymore.");;
        setBusy false;;
        ret NotPending
      else guard_and_join orgId link inviteRef inviteId inv u
  end.

(** The [catch (e)] block of the callback. *)
Definition report (e : string) : M outcome :=
  console_error e;;
  setErr (Some (if JsString.nonempty e then e
                else "Could not process invitation. Please try again."));;
  ret (Failed e).

(** The callback given to [onAuthStateChanged], for one observed identity. *)
Definition on_auth (orgId link : string) (tokenData : document)
    (who : option user) : M outcome :=
  match who with
  | None =>
      setBusy false;;
      setErr (Some "Please sign in to accept the invitation.");;
      ret SignInRequired
  | Some u =>
      finally (try_catch (accept orgId link tokenData u) report)
        (set_busy false)
  end.

(** [run()] of the effect, followed by the first call of the callback with
    the identity [who] that the authentication service reports.  [token] is
    the route parameter and [orgParam] is [sp.get("org")]. *)
Definition run (token orgParam : option string) (who : option user)
  : M outcome :=
  let orgId := default EmptyString orgParam in
  setErr None;;
  (* 0) URL sanity *)
  if negb (JsString.truthy token) || negb (JsString.nonempty orgId) then
    swallow (removeItem E PENDING_INVITE_KEY;;
             removeItem E AFTER_ONBOARDING_NEXT);;
    setBusy false;;
    setErr (Some "Invalid invite link.");;
    ret InvalidLink
  else
  (* 1) validate the token before touching localStorage *)
  tokenSnap <- getDoc E ["orgs"; orgId; "inviteTokens"; default EmptyString token];;
  match tokenSnap with
  | None =>
      swallow (removeItem E PENDING_INVITE_KEY;;
               removeItem E AFTER_ONBOARDING_NEXT);;
      setBusy false;;
      setErr (Some "Invite token not found or expired.");;
      ret TokenNotFound
  | Some tokenData =>
      (* 2) stash the return path *)
      swallow (if JsString.nonempty (invitePath token orgId) then
                 setItem E PENDING_INVITE_KEY (invitePath token orgId);;
                 setItem E AFTER_ONBOARDING_NEXT (invitePath token orgId)
               else ret tt);;
      on_auth orgId (invitePath token orgId) tokenData who
  end.

End Controller.

(** ** Reading a run *)

Definition result {A} (r : res A * world * list event) : res A := fst (fst r).
Definition final {A} (r : res A * world * list event) : world := snd (fst r).
Definition events {A} (r : res A * world * list event) : list event := snd r.

Definition is_remote (e : event) : bool :=
  match e with ERead _ _ | EWrite _ _ _ _ => true | _ => false end.

Definition is_local_set (e : event) : bool :=
  match e with ELocalSet _ _ => true | _ => false end.

(** The remote writes of a run: what was attempted where, and whether it
    went through. *)
Definition writes (l : list event) : list (opkind * path * bool) :=
  omap (fun e => match e with
                 | EWrite k p _ ok => Some (k, p, ok)
                 | _ => None
                 end) l.

(** Document references of the protocol. *)
Definition tokenRef (orgId token : string) : path :=
  ["orgs"; orgId; "inviteTokens"; token].
Definition inviteRef (orgId inviteId : string) : path :=
  ["orgs"; orgId; "invites"; inviteId].
Definition memberRef (orgId who : string) : path :=
  ["orgs"; orgId; "members"; who].
Definition indexRef (who orgId : string) : path :=
  ["users"; who; "orgMemberships"; orgId].

(** The two resume pointers after they were cleared, and after the stash. *)
Definition clear_pointers (w : world) : world :=
  set_localStorage (delete AFTER_ONBOARDING_NEXT)
    (set_localStorage (delete PENDING_INVITE_KEY) w).

Definition stash (link : string) (w : world) : world :=
  set_localStorage (insert AFTER_ONBOARDING_NEXT link)
    (set_localStorage (insert PENDING_INVITE_KEY link) w).

(** The same when access to [localStorage] may throw: the [try] blocks
    around it swallow the exception and nothing is stored or removed. *)
Definition cleared (E : env) (w : world) : world :=
  if storage_denied E then w else clear_pointers w.

Definition clear_events (E : env) : list event :=
  if storage_denied E then []
  else [ELocalRemove PENDING_INVITE_KEY; ELocalRemove AFTER_ONBOARDING_NEXT].

Definition stashed (E : env) (link : string) (w : world) : world :=
  if storage_denied E then w else stash link w.

Definition stash_events (E : env) (link : string) : list event :=
  if storage_denied E then []
  else [ELocalSet PENDING_INVITE_KEY link; ELocalSet AFTER_ONBOARDING_NEXT link].

(** The link carries a token and an organisation. *)
Definition valid_link (token orgParam : option string) : Prop :=
  JsString.truthy token = true /\
  JsString.nonempty (default EmptyString orgParam) = true.

(** The token read answers and finds [tokenData]. *)
Definition token_found (E : env) (w : world) (token orgParam : option string)
    (tokenData : document) : Prop :=
  valid_link token orgParam /\
  rejects E Get (tokenRef (default EmptyString orgParam)
                          (default EmptyString token)) = None /\
  db w !! tokenRef (default EmptyString orgParam) (default EmptyString token)
    = Some tokenData.

(** The token leads to the invite [inv] with identifier [iid]. *)
Definition resolves (E : env) (w : world) (token orgParam : option string)
    (iid : string) (inv : document) : Prop :=
  exists tokenData,
    token_found E w token orgParam tokenData /\
    tokenData !! "inviteId" = Some (VStr iid) /\
    JsString.nonempty iid = true /\
    rejects E Get (inviteRef (default EmptyString orgParam) iid) = None /\
    db w !! inviteRef (default EmptyString orgParam) iid = Some inv.

(** [!(inv.status && inv.status !== "pending")] *)
Definition pending (inv : document) : bool :=
  negb (Js.truthy (inv !! "status")
        && Js.strict_neq (inv !! "status") (Some (VStr "pending"))).

(** The condition of the email soft guard. *)
Definition email_mismatch (inv : document) (u : user) : bool :=
  Js.truthy (inviteEmailLC inv) && JsString.truthy (myEmail u)
  && Js.strict_neq (inviteEmailLC inv) (Some (Js.of_string (myEmail u))).

(** What [load_names] returns in [w]. *)
Definition names_seen (E : env) (w : world) (who : string)
  : option string * option string :=
  match rejects E Get ["users"; who] with
  | Some _ => (None, None)
  | None =>
      match db w !! ["users"; who] with
      | Some p => profile_names p
      | None => (None, None)
      end
  end.

(** ** Symbolic execution *)

#[global] Arguments on_auth : simpl never.
#[global] Arguments accept : simpl never.
#[global] Arguments guard_and_join : simpl never.
#[global] Arguments join : simpl never.

Ltac exec_unfold :=
  unfold run, on_auth, accept, guard_and_join, report, load_names,
    load_orgName, getDoc, doc_ref, removeItem, setItem, swallow, try_catch,
    finally, bind, ret, throw, setBusy, setErr, modify, emit, navigate,
    console_error, serverTimestamp, tokenRef, inviteRef, memberRef, indexRef
    in *.

(** Rewrite with every hypothesis whose left-hand side decides a branch. *)
Ltac forward :=
  repeat (simpl;
          match goal with
          | H : ?l = true |- context [?l] => rewrite H
          | H : ?l = false |- context [?l] => rewrite H
          | H : ?l = None |- context [?l] => rewrite H
          | H : ?l = Some _ |- context [?l] => rewrite H
          end);
  simpl.

Lemma invitePath_nonempty token orgParam :
  valid_link token orgParam ->
  JsString.nonempty (invitePath token (default EmptyString orgParam)) = true.
Proof.
  intros [Ht Ho]. destruct token as [t|]; [|discriminate].
  simpl in *. rewrite Ht, Ho. reflexivity.
Qed.

(** *** The runs that end before the callback *)

Lemma run_invalid_link E w token orgParam who :
  JsString.truthy token = false \/
  JsString.nonempty (default EmptyString orgParam) = false ->
  run E token orgParam who w =
    (Val InvalidLink,
     set_err (Some "Invalid invite link.")
       (set_busy false (cleared E (set_err None w))),
     clear_events E).
Proof.
  unfold cleared, clear_events.
  intros [H|H]; exec_unfold; rewrite H, ?orb_true_r; simpl;
    destruct (storage_denied E); reflexivity.
Qed.

Lemma run_token_unread E w token orgParam who e :
  valid_link token orgParam ->
  rejects E Get (tokenRef (default EmptyString orgParam)
                          (default EmptyString token)) = Some e ->
  run E token orgParam who w =
    (Exn e, set_err None w,
     [ERead (tokenRef (default EmptyString orgParam)
                      (default EmptyString token)) false]).
Proof. intros [Ht Ho] Hr. exec_unfold. forward. reflexivity. Qed.

Lemma run_token_not_found E w token orgParam who :
  valid_link token orgParam ->
  rejects E Get (tokenRef (default EmptyString orgParam)
                          (default EmptyString token)) = None ->
  db w !! tokenRef (default EmptyString orgParam) (default EmptyString token)
    = None ->
  run E token orgParam who w =
    (Val TokenNotFound,
     set_err (Some "Invite token not found or expired.")
       (set_busy false (cleared E (set_err None w))),
     ERead (tokenRef (default EmptyString orgParam)
                     (default EmptyString token)) true :: clear_events E).
Proof.
  unfold cleared, clear_events.
  intros [Ht Ho] Hr Hd. exec_unfold. forward.
  destruct (storage_denied E); reflexivity.
Qed.

(** Once the token is found the path is stashed and the callback runs. *)
Lemma run_token_found E w token orgParam who tokenData :
  token_found E w token orgParam tokenData ->
  let orgId := default EmptyString orgParam in
  let link := invitePath token orgId in
  let r := on_auth E orgId link tokenData who (stashed E link (set_err None w)) in
  run E token orgParam who w =
    (result r, final r,
     ERead (tokenRef orgId (default EmptyString token)) true
     :: stash_events E link ++ events r).
Proof.
  intros (Hv & Hr & Hd). pose proof (invitePath_nonempty _ _ Hv) as Hl.
  destruct Hv as [Ht Ho]. unfold run, bind at 1 2 3, getDoc, setErr, modify.
  unfold tokenRef, stashed, stash_events in *.
  destruct (storage_denied E) eqn:Hs; forward;
    unfold swallow, try_catch, bind, setItem; forward;
    destruct (on_auth _ _ _ _ _ _) as [[r w'] l]; reflexivity.
Qed.

(** *** The callback *)

(** Whether the remote call [k] on [p] goes through. *)
Definition answered (E : env) (k : opkind) (p : path) : bool :=
  match rejects E k p with None => true | Some _ => false end.

(** What [catch] and [finally] make of the result of the [try] block. *)
Definition settle (r : res outcome * world * list event)
  : res outcome * world * list event :=
  match result r with
  | Val o => (Val o, set_busy false (final r), events r)
  | Exn e =>
      (Val (Failed e),
       set_busy false
         (set_err (Some (if JsString.nonempty e then e
                         else "Could not process invitation. Please try again."))
            (final r)),
       events r ++ [EConsoleError e])
  end.

Lemma on_auth_signed_out E orgId link tokenData w :
  on_auth E orgId link tokenData None w =
    (Val SignInRequired,
     set_err (Some "Please sign in to accept the invitation.")
       (set_busy false w), []).
Proof. reflexivity. Qed.

Lemma on_auth_settle E orgId link tokenData u w :
  on_auth E orgId link tokenData (Some u) w =
    settle (accept E orgId link tokenData u w).
Proof.
  unfold on_auth, finally, try_catch, settle, result, final, events, report.
  destruct (accept _ _ _ _ _ _) as [[[o|e] w'] l]; simpl; [reflexivity|].
  unfold bind, console_error, emit, setErr, modify, ret. simpl.
  reflexivity.
Qed.

Lemma accept_malformed E orgId link tokenData u w :
  Js.truthy (tokenData !! "inviteId") = false ->
  accept E orgId link tokenData u w =
    (Val MalformedToken,
     set_busy false (set_err (Some "Malformed invite token.") (set_busy true w)),
     []).
Proof. intros H. exec_unfold. forward. reflexivity. Qed.

Lemma accept_invite_not_found E orgId link tokenData u w iid :
  tokenData !! "inviteId" = Some (VStr iid) ->
  JsString.nonempty iid = true ->
  rejects E Get (inviteRef orgId iid) = None ->
  db w !! inviteRef orgId iid = None ->
  accept E orgId link tokenData u w =
    (Val InviteNotFound,
     set_busy false (set_err (Some "Invite not found.") (set_busy true w)),
     [ERead (inviteRef orgId iid) true]).
Proof. intros H1 H2 H3 H4. exec_unfold. forward. reflexivity. Qed.

Lemma accept_not_pending E orgId link tokenData u w iid inv :
  tokenData !! "inviteId" = Some (VStr iid) ->
  JsString.nonempty iid = true ->
  rejects E Get (inviteRef orgId iid) = None ->
  db w !! inviteRef orgId iid = Some inv ->
  pending inv = false ->
  accept E orgId link tokenData u w =
    (Val NotPending,
     set_busy false
       (set_err (Some "This invitation is not pending anymore.")
          (set_busy true w)),
     [ERead (inviteRef orgId iid) true]).
Proof.
  intros H1 H2 H3 H4 H5. apply negb_false_iff in H5.
  exec_unfold. forward. reflexivity.
Qed.

Lemma accept_pending E orgId link tokenData u w iid inv :
  tokenData !! "inviteId" = Some (VStr iid) ->
  JsString.nonempty iid = true ->
  rejects E Get (inviteRef orgId iid) = None ->
  db w !! inviteRef orgId iid = Some inv ->
  pending inv = true ->
  let r := guard_and_join E orgId link (inviteRef orgId iid)
             (Some (VStr iid)) inv u (set_busy true w) in
  accept E orgId link tokenData u w =
    (result r, final r, ERead (inviteRef orgId iid) true :: events r).
Proof.
  intros H1 H2 H3 H4 H5. apply negb_true_iff in H5.
  unfold accept, bind, getDoc, doc_ref, setBusy, modify, ret, inviteRef in *.
  forward. destruct (guard_and_join _ _ _ _ _ _ _ _) as [[r w'] l].
  reflexivity.
Qed.

Lemma load_names_eq E who w :
  load_names E who w =
    (Val (names_seen E w who), w,
     [ERead ["users"; who] (answered E Get ["users"; who])]).
Proof.
  unfold load_names, names_seen, answered, try_catch, bind, getDoc, ret.
  destruct (rejects E Get _); reflexivity.
Qed.

Lemma guard_mismatch E orgId link ref iid inv u w :
  email_mismatch inv u = true ->
  guard_and_join E orgId link ref iid inv u w =
    (Val EmailMismatch,
     set_busy false
       (set_err (Some "This invitation is addressed to a different email.") w),
     []).
Proof.
  unfold email_mismatch, guard_and_join. intros ->. reflexivity.
Qed.

Lemma guard_detour E orgId link ref iid inv u w :
  email_mismatch inv u = false ->
  JsString.truthy (fst (fallback_names u (names_seen E w (uid u))))
  && JsString.truthy (snd (fallback_names u (names_seen E w (uid u)))) = false ->
  guard_and_join E orgId link ref iid inv u w =
    (Val DetourOnboarding,
     (if storage_denied E then w
      else set_localStorage (insert AFTER_ONBOARDING_NEXT link) w),
     ERead ["users"; uid u] (answered E Get ["users"; uid u])
     :: (if storage_denied E then []
         else [ELocalSet AFTER_ONBOARDING_NEXT link])
     ++ [ENavigate "/onboarding" true None]).
Proof.
  unfold email_mismatch, guard_and_join. intros -> Hn.
  unfold bind at 1. rewrite load_names_eq.
  rewrite <- negb_andb, Hn. simpl.
  unfold bind, swallow, try_catch, setItem, navigate, emit, ret.
  destruct (storage_denied E); reflexivity.
Qed.

Lemma guard_join E orgId link ref iid inv u w :
  email_mismatch inv u = false ->
  JsString.truthy (fst (fallback_names u (names_seen E w (uid u))))
  && JsString.truthy (snd (fallback_names u (names_seen E w (uid u)))) = true ->
  let r := join E orgId ref iid inv u
             (fst (fallback_names u (names_seen E w (uid u))))
             (snd (fallback_names u (names_seen E w (uid u)))) w in
  guard_and_join E orgId link ref iid inv u w =
    (result r, final r,
     ERead ["users"; uid u] (answered E Get ["users"; uid u]) :: events r).
Proof.
  unfold email_mismatch, guard_and_join. intros -> Hn.
  unfold bind at 1. rewrite load_names_eq.
  rewrite <- negb_andb, Hn. simpl.
  destruct (join _ _ _ _ _ _ _ _ _) as [[r w'] l]. reflexivity.
Qed.

(** *** The remote writes, case by case *)

Inductive update_run (E : env) (p : path) (fs : fields) (w : world)
  : res unit * world * list event -> Prop :=
| update_invalid :
    has_undefined fs && negb (ignore_undefined E) = true ->
    update_run E p fs w (Exn (sdk_message E InvalidData), w, [])
| update_rejected e :
    has_undefined fs && negb (ignore_undefined E) = false ->
    rejects E Update p = Some e ->
    update_run E p fs w (Exn e, w, [EWrite Update p (data_of fs) false])
| update_missing :
    has_undefined fs && negb (ignore_undefined E) = false ->
    rejects E Update p = None ->
    db w !! p = None ->
    update_run E p fs w
      (Exn (sdk_message E NoDocument), w, [EWrite Update p (data_of fs) false])
| update_done old :
    has_undefined fs && negb (ignore_undefined E) = false ->
    rejects E Update p = None ->
    db w !! p = Some old ->
    update_run E p fs w
      (Val tt, set_db (insert p (data_of fs ∪ old)) w,
       [EWrite Update p (data_of fs) true]).

Lemma updateDoc_run E p fs w : update_run E p fs w (updateDoc E p fs w).
Proof.
  unfold updateDoc, validated, throw.
  destruct (has_undefined fs && negb (ignore_undefined E)) eqn:Hv.
  - now constructor.
  - destruct (rejects E Update p) eqn:Hr; [now constructor|].
    destruct (db w !! p) eqn:Hd; now constructor.
Qed.

Inductive set_run (E : env) (p : path) (fs : fields) (merge : bool) (w : world)
  : res unit * world * list event -> Prop :=
| set_invalid :
    has_undefined fs && negb (ignore_undefined E) = true ->
    set_run E p fs merge w (Exn (sdk_message E InvalidData), w, [])
| set_rejected e :
    has_undefined fs && negb (ignore_undefined E) = false ->
    rejects E (if merge then SetMerge else SetDoc) p = Some e ->
    set_run E p fs merge w
      (Exn e, w,
       [EWrite (if merge then SetMerge else SetDoc) p (data_of fs) false])
| set_done :
    has_undefined fs && negb (ignore_undefined E) = false ->
    rejects E (if merge then SetMerge else SetDoc) p = None ->
    set_run E p fs merge w
      (Val tt,
       set_db (insert p (if merge then data_of fs ∪ default ∅ (db w !! p)
                         else data_of fs)) w,
       [EWrite (if merge then SetMerge else SetDoc) p (data_of fs) true]).

Lemma setDoc_run E p fs merge w : set_run E p fs merge w (setDoc E p fs merge w).
Proof.
  unfold setDoc, validated, throw.
  destruct (has_undefined fs && negb (ignore_undefined E)) eqn:Hv.
  - now constructor.
  - destruct (rejects E _ p) eqn:Hr; now constructor.
Qed.

(** The name [load_orgName] comes back with. *)
Definition seen_orgName (E : env) (orgId : string) (s : store) : value :=
  match rejects E Get ["orgs"; orgId] with
  | Some _ => VStr "Clinic"
  | None =>
      if Js.truthy (s !! ["orgs"; orgId] ≫= (fun d => d !! "name"))
      then default (VStr "Clinic") (s !! ["orgs"; orgId] ≫= (fun d => d !! "name"))
      else VStr "Clinic"
  end.

Lemma load_orgName_eq E orgId w :
  load_orgName E orgId w =
    (Val (seen_orgName E orgId (db w)), w,
     [ERead ["orgs"; orgId] (answered E Get ["orgs"; orgId])]).
Proof.
  unfold load_orgName, seen_orgName, answered, try_catch, bind, getDoc, ret.
  destruct (rejects E Get _); reflexivity.
Qed.

Lemma swallow_delete_eq E p w :
  swallow (deleteDoc E p) w =
    (Val tt,
     if answered E Delete p then set_db (delete p) w else w,
     [EWrite Delete p ∅ (answered E Delete p)]).
Proof.
  unfold swallow, try_catch, deleteDoc, answered, ret.
  destruct (rejects E Delete p); reflexivity.
Qed.

Lemma swallow_clear_eq E w :
  swallow (removeItem E PENDING_INVITE_KEY;;
           removeItem E AFTER_ONBOARDING_NEXT) w =
    (Val tt, cleared E w, clear_events E).
Proof.
  unfold swallow, try_catch, bind, removeItem, ret, cleared, clear_events.
  destruct (storage_denied E); reflexivity.
Qed.

(** [setOrg], case by case. *)
Definition scope_doc (orgId : string) (name : value) : document :=
  data_of [("scope", Some (VScope orgId name))].

Inductive scope_run (E : env) (orgId : string) (name : value) (w : world)
  : res unit * world * list event -> Prop :=
| scope_local :
    scope_user E = None ->
    scope_run E orgId name w (Val tt, set_scope (Some (orgId, name)) w, [])
| scope_updated su old :
    scope_user E = Some su ->
    rejects E Update ["users"; su] = None ->
    db w !! ["users"; su] = Some old ->
    scope_run E orgId name w
      (Val tt,
       set_db (insert ["users"; su] (scope_doc orgId name ∪ old))
         (set_scope (Some (orgId, name)) w),
       [EWrite Update ["users"; su] (scope_doc orgId name) true])
| scope_merged su :
    scope_user E = Some su ->
    answered E Update ["users"; su] && bool_decide (is_Some (db w !! ["users"; su]))
      = false ->
    rejects E SetMerge ["users"; su] = None ->
    scope_run E orgId name w
      (Val tt,
       set_db (insert ["users"; su]
                 (scope_doc orgId name ∪ default ∅ (db w !! ["users"; su])))
         (set_scope (Some (orgId, name)) w),
       [EWrite Update ["users"; su] (scope_doc orgId name) false;
        EWrite SetMerge ["users"; su] (scope_doc orgId name) true])
| scope_failed su e :
    scope_user E = Some su ->
    answered E Update ["users"; su] && bool_decide (is_Some (db w !! ["users"; su]))
      = false ->
    rejects E SetMerge ["users"; su] = Some e ->
    scope_run E orgId name w
      (Exn e, set_scope (Some (orgId, name)) w,
       [EWrite Update ["users"; su] (scope_doc orgId name) false;
        EWrite SetMerge ["users"; su] (scope_doc orgId name) false]).

Lemma coalesce_null (v : value) :
  default VNull (Js.coalesce (Some v) (Some VNull)) = v.
Proof. destruct v; reflexivity. Qed.

Lemma setOrg_run E orgId name w :
  JsString.nonempty orgId = true ->
  scope_run E orgId name w (setOrg E orgId (Some name) w).
Proof.
  intros Ho. unfold setOrg. rewrite Ho, coalesce_null. simpl.
  unfold bind at 1. unfold modify at 1.
  destruct (scope_user E) as [su|] eqn:Hu.
  - unfold try_catch, updateDoc, setDoc, validated. simpl.
    fold (scope_doc orgId name).
    destruct (rejects E Update ["users"; su]) as [e|] eqn:Hr; simpl.
    + destruct (rejects E SetMerge ["users"; su]) as [e'|] eqn:Hm; simpl.
      * eapply scope_failed; eauto. unfold answered. now rewrite Hr.
      * eapply scope_merged; eauto. unfold answered. now rewrite Hr.
    + destruct (db w !! ["users"; su]) as [old|] eqn:Hd; simpl.
      * eapply scope_updated; eauto.
      * destruct (rejects E SetMerge ["users"; su]) as [e'|] eqn:Hm; simpl.
        -- eapply scope_failed; eauto. rewrite Hd.
           rewrite bool_decide_eq_false_2, andb_false_r; [done|].
           intros [? ?]; discriminate.
        -- eapply scope_merged; eauto. rewrite Hd.
           rewrite bool_decide_eq_false_2, andb_false_r; [done|].
           intros [? ?]; discriminate.
  - simpl. now constructor.
Qed.

(** *** The big step of [join] *)

Lemma coalesce_some (o : option value) (d : value) :
  exists v, Js.coalesce o (Some d) = Some v.
Proof. destruct o as [[]|]; simpl; eauto. Qed.

Lemma member_fields_defined inv u fn ln iid now :
  has_undefined (member_fields inv u fn ln (Some (VStr iid)) now) = false.
Proof.
  unfold member_fields, has_undefined. simpl.
  destruct (coalesce_some (inv !! "role") (VStr "member")) as [v ->].
  reflexivity.
Qed.

Lemma index_fields_defined inv orgId name now :
  has_undefined (index_fields inv orgId name now) = false.
Proof.
  unfold index_fields, has_undefined. simpl.
  destruct (coalesce_some (inv !! "role") (VStr "member")) as [v ->].
  reflexivity.
Qed.

Lemma claim_fields_undefined inv u fn ln now :
  has_undefined (claim_fields inv u fn ln now) =
    match inv !! "createdBy" with None => true | Some _ => false end.
Proof.
  unfold claim_fields, has_undefined. simpl.
  destruct (coalesce_some (inv !! "status") (VStr "pending")) as [v1 ->].
  destruct (coalesce_some (inv !! "role") (VStr "member")) as [v2 ->].
  destruct (coalesce_some (inv !! "email") VNull) as [v3 ->].
  destruct (coalesce_some (inv !! "phone") VNull) as [v4 ->].
  simpl. destruct (inv !! "createdBy"); reflexivity.
Qed.

Section Join.

Context (E : env) (orgId iid : string) (inv : document) (u : user)
  (fn ln : option string) (w : world).

(** The three payloads, with the server times of their writes. *)
Definition claim_doc : document :=
  data_of (claim_fields inv u fn ln (VTime (clock w))).
Definition member_doc : document :=
  data_of (member_fields inv u fn ln (Some (VStr iid)) (VTime (S (clock w)))).
Definition index_doc : document :=
  data_of (index_fields inv orgId (seen_orgName E orgId (db w))
             (VTime (S (S (clock w))))).

(** The world after each of the steps that went through. *)
Definition after_claim (old : document) : world :=
  set_db (insert (inviteRef orgId iid) (claim_doc ∪ old)) w.
Definition after_member (old : document) : world :=
  set_db (insert (memberRef orgId (uid u)) member_doc) (after_claim old).
Definition after_index (old : document) : world :=
  set_db (insert (indexRef (uid u) orgId)
            (index_doc ∪ default ∅ (db (after_member old) !! indexRef (uid u) orgId)))
    (after_member old).
Definition after_delete (old : document) : world :=
  if answered E Delete (inviteRef orgId iid)
  then set_db (delete (inviteRef orgId iid)) (after_index old)
  else after_index old.
Definition after_clear (old : document) : world :=
  cleared E (after_delete old).

(** The events of the steps 4 to 7 and of the clearing of the pointers. *)
Definition join_events : list event :=
  [EWrite Update (inviteRef orgId iid) claim_doc true;
   EWrite SetDoc (memberRef orgId (uid u)) member_doc true;
   ERead ["orgs"; orgId] (answered E Get ["orgs"; orgId]);
   EWrite SetMerge (indexRef (uid u) orgId) index_doc true;
   EWrite Delete (inviteRef orgId iid) ∅ (answered E Delete (inviteRef orgId iid))]
  ++ clear_events E.

Inductive join_run : res outcome * world * list event -> Prop :=
| join_claim_invalid :
    inv !! "createdBy" = None -> ignore_undefined E = false ->
    join_run (Exn (sdk_message E InvalidData), w, [])
| join_claim_failed e :
    (rejects E Update (inviteRef orgId iid) = Some e \/
     db w !! inviteRef orgId iid = None) ->
    join_run (Exn e, w, [EWrite Update (inviteRef orgId iid) claim_doc false])
| join_member_failed old e :
    db w !! inviteRef orgId iid = Some old ->
    rejects E SetDoc (memberRef orgId (uid u)) = Some e ->
    join_run
      (Exn e, after_claim old,
       [EWrite Update (inviteRef orgId iid) claim_doc true;
        EWrite SetDoc (memberRef orgId (uid u)) member_doc false])
| join_index_failed old e :
    db w !! inviteRef orgId iid = Some old ->
    rejects E SetMerge (indexRef (uid u) orgId) = Some e ->
    join_run
      (Exn e, after_member old,
       [EWrite Update (inviteRef orgId iid) claim_doc true;
        EWrite SetDoc (memberRef orgId (uid u)) member_doc true;
        ERead ["orgs"; orgId] (answered E Get ["orgs"; orgId]);
        EWrite SetMerge (indexRef (uid u) orgId) index_doc false])
| join_scope_failed old e w' l :
    db w !! inviteRef orgId iid = Some old ->
    scope_run E orgId (seen_orgName E orgId (db w)) (after_clear old)
      (Exn e, w', l) ->
    join_run (Exn e, w', join_events ++ l)
| join_done old w' l :
    db w !! inviteRef orgId iid = Some old ->
    (inv !! "createdBy" = None -> ignore_undefined E = true) ->
    rejects E Update (inviteRef orgId iid) = None ->
    rejects E SetDoc (memberRef orgId (uid u)) = None ->
    rejects E SetMerge (indexRef (uid u) orgId) = None ->
    scope_run E orgId (seen_orgName E orgId (db w)) (after_clear old)
      (Val tt, w', l) ->
    join_run
      (Val Done,
       (if completedRef w' then w' else set_completedRef true w'),
       join_events ++ l ++
       (if completedRef w' then []
        else [ENavigate "/" true (Some (seen_orgName E orgId (db w)))])).

End Join.

Lemma seen_orgName_frame (E : env) (orgId : string) (s s' : store) :
  s' !! ["orgs"; orgId] = s !! ["orgs"; orgId] ->
  seen_orgName E orgId s' = seen_orgName E orgId s.
Proof. unfold seen_orgName. intros ->. reflexivity. Qed.

Lemma bind_inv {A B} (m : M A) (k : A -> M B) w r w' l :
  bind m k w = (r, w', l) ->
  (exists a w1 l1 l2,
     m w = (Val a, w1, l1) /\ k a w1 = (r, w', l2) /\ l = l1 ++ l2) \/
  (exists e, m w = (Exn e, w', l) /\ r = Exn e).
Proof.
  unfold bind. destruct (m w) as [[[a|e] w1] l1].
  - destruct (k a w1) as [[r2 w2] l2] eqn:Hk. intros [= <- <- <-].
    left. exists a, w1, l1, l2. rewrite Hk. repeat split; reflexivity.
  - intros [= <- <- <-]. right. exists e. split; reflexivity.
Qed.

Lemma nav_step_eq (name : value) (w : world) :
  (fun w0 : world =>
     if negb (completedRef w0)
     then (modify (set_completedRef true);; navigate "/" true (Some name)) w0
     else ret tt w0) w =
  (Val tt,
   (if completedRef w then w else set_completedRef true w),
   (if completedRef w then [] else [ENavigate "/" true (Some name)])).
Proof. simpl. destruct (completedRef w); reflexivity. Qed.

Ltac inv_bind H :=
  let a := fresh "a" in
  let w1 := fresh "w" in
  let l1 := fresh "l" in
  let l2 := fresh "l" in
  let e := fresh "e" in
  let Hm := fresh "Hm" in
  apply bind_inv in H as
    [(a & w1 & l1 & l2 & Hm & H & ->) | (e & Hm & ->)].

Lemma updateDoc_Val E p fs w a w1 l1 :
  updateDoc E p fs w = (Val a, w1, l1) ->
  exists old,
    has_undefined fs && negb (ignore_undefined E) = false /\
    rejects E Update p = None /\ db w !! p = Some old /\
    w1 = set_db (insert p (data_of fs ∪ old)) w /\
    l1 = [EWrite Update p (data_of fs) true].
Proof.
  intros H. pose proof (updateDoc_run E p fs w) as R. rewrite H in R.
  inversion R; subst. eauto 10.
Qed.

Lemma updateDoc_Exn E p fs w e w1 l1 :
  updateDoc E p fs w = (Exn e, w1, l1) ->
  w1 = w /\
  ((has_undefined fs && negb (ignore_undefined E) = true /\
    e = sdk_message E InvalidData /\ l1 = []) \/
   ((rejects E Update p = Some e \/ db w !! p = None) /\
    l1 = [EWrite Update p (data_of fs) false])).
Proof.
  intros H. pose proof (updateDoc_run E p fs w) as R. rewrite H in R.
  inversion R; subst; auto 10.
Qed.

Lemma setDoc_Val E p fs merge w a w1 l1 :
  setDoc E p fs merge w = (Val a, w1, l1) ->
  has_undefined fs && negb (ignore_undefined E) = false /\
  rejects E (if merge then SetMerge else SetDoc) p = None /\
  w1 = set_db (insert p (if merge then data_of fs ∪ default ∅ (db w !! p)
                         else data_of fs)) w /\
  l1 = [EWrite (if merge then SetMerge else SetDoc) p (data_of fs) true].
Proof.
  intros H. pose proof (setDoc_run E p fs merge w) as R. rewrite H in R.
  inversion R; subst. auto.
Qed.

Lemma setDoc_Exn E p fs merge w e w1 l1 :
  setDoc E p fs merge w = (Exn e, w1, l1) ->
  w1 = w /\
  ((has_undefined fs && negb (ignore_undefined E) = true /\ l1 = []) \/
   (rejects E (if merge then SetMerge else SetDoc) p = Some e /\
    l1 = [EWrite (if merge then SetMerge else SetDoc) p (data_of fs) false])).
Proof.
  intros H. pose proof (setDoc_run E p fs merge w) as R. rewrite H in R.
  inversion R; subst; auto.
Qed.

Lemma join_inv E orgId iid inv u fn ln w r w' l :
  JsString.nonempty orgId = true ->
  join E orgId (inviteRef orgId iid) (Some (VStr iid)) inv u fn ln w
    = (r, w', l) ->
  join_run E orgId iid inv u fn ln w (r, w', l).
Proof.
  intros Ho H. unfold join in H.
  (* 4) claim *)
  inv_bind H; [|discriminate]. injection Hm as <- <- <-.
  inv_bind H.
  2:{ apply updateDoc_Exn in Hm as (-> & [(Hv & -> & ->) | (Hc & ->)]).
      - rewrite claim_fields_undefined in Hv.
        destruct (inv !! "createdBy") eqn:Hc; [discriminate|].
        apply join_claim_invalid; [assumption|].
        now destruct (ignore_undefined E).
      - now apply join_claim_failed. }
  apply updateDoc_Val in Hm as (old & Hv & Hru & Hold & -> & ->).
  (* 5) member *)
  inv_bind H; [|discriminate]. injection Hm as <- <- <-.
  inv_bind H.
  2:{ apply setDoc_Exn in Hm as (-> & [(Hv' & _) | (Hc & ->)]).
      - now rewrite member_fields_defined in Hv'.
      - now apply join_member_failed. }
  apply setDoc_Val in Hm as (_ & Hrm & -> & ->).
  (* 6) reverse index *)
  inv_bind H; [|now rewrite load_orgName_eq in Hm].
  rewrite load_orgName_eq in Hm. injection Hm as <- <- <-.
  rewrite (seen_orgName_frame E orgId (db w)) in H
    by (simpl; rewrite !lookup_insert_ne by discriminate; reflexivity).
  inv_bind H; [|discriminate]. injection Hm as <- <- <-.
  inv_bind H.
  2:{ apply setDoc_Exn in Hm as (-> & [(Hv' & _) | (Hc & ->)]).
      - now rewrite index_fields_defined in Hv'.
      - now apply (join_index_failed E orgId iid inv u fn ln w old). }
  apply setDoc_Val in Hm as (_ & Hri & -> & ->).
  (* 7) delete, 8) pointers *)
  inv_bind H; [|now rewrite swallow_delete_eq in Hm].
  rewrite swallow_delete_eq in Hm. injection Hm as <- <- <-.
  inv_bind H; [|now rewrite swallow_clear_eq in Hm].
  rewrite swallow_clear_eq in Hm. injection Hm as <- <- <-.
  (* scope and navigation *)
  pose proof (setOrg_run E orgId (seen_orgName E orgId (db w))
                (after_clear E orgId iid inv u fn ln w old) Ho) as R.
  inv_bind H;
    lazymatch type of Hm with
    | _ = ?rhs =>
        change (setOrg E orgId (Some (seen_orgName E orgId (db w)))
                  (after_clear E orgId iid inv u fn ln w old) = rhs) in Hm
    end;
    rewrite Hm in R.
  2:{ now apply (join_scope_failed E orgId iid inv u fn ln w old) in R. }
  clear Hm.
  inv_bind H; [|now rewrite nav_step_eq in Hm].
  rewrite nav_step_eq in Hm. injection Hm as <- <- <-.
  injection H as <- <- <-.
  rewrite app_nil_r.
  match type of R with
  | scope_run _ _ _ _ (Val ?a, _, _) => destruct a
  end.
  apply (join_done E orgId iid inv u fn ln w old) in R; try assumption.
  intros Hc. rewrite claim_fields_undefined, Hc in Hv.
  now destruct (ignore_undefined E).
Qed.

Lemma join_spec E orgId iid inv u fn ln w :
  JsString.nonempty orgId = true ->
  join_run E orgId iid inv u fn ln w
    (join E orgId (inviteRef orgId iid) (Some (VStr iid)) inv u fn ln w).
Proof.
  intros Ho.
  destruct (join _ _ _ _ _ _ _ _ _) as [[r w'] l] eqn:H.
  now apply join_inv.
Qed.

(** *** Whole runs *)

Definition prepend {A} (pre : list event) (r : res A * world * list event)
  : res A * world * list event :=
  (result r, final r, pre ++ events r).

(** The world in which the [try] block of the callback starts. *)
Definition entry (E : env) (token orgParam : option string) (w : world)
  : world :=
  stashed E (invitePath token (default EmptyString orgParam)) (set_err None w).

Lemma db_entry E token orgParam w : db (entry E token orgParam w) = db w.
Proof. unfold entry, stashed. destruct (storage_denied E); reflexivity. Qed.

Lemma run_settle E w token orgParam u tokenData :
  token_found E w token orgParam tokenData ->
  let orgId := default EmptyString orgParam in
  let link := invitePath token orgId in
  run E token orgParam (Some u) w =
    prepend (ERead (tokenRef orgId (default EmptyString token)) true
             :: stash_events E link)
      (settle (accept E orgId link tokenData u (entry E token orgParam w))).
Proof.
  intros Hf. simpl. rewrite (run_token_found _ _ _ _ _ _ Hf).
  simpl. rewrite on_auth_settle. reflexivity.
Qed.

Lemma run_signed_out E w token orgParam tokenData :
  token_found E w token orgParam tokenData ->
  run E token orgParam None w =
    (Val SignInRequired,
     set_err (Some "Please sign in to accept the invitation.")
       (set_busy false (entry E token orgParam w)),
     ERead (tokenRef (default EmptyString orgParam)
                     (default EmptyString token)) true
     :: stash_events E (invitePath token (default EmptyString orgParam))).
Proof.
  intros Hf. rewrite (run_token_found _ _ _ _ _ _ Hf). simpl.
  now rewrite app_nil_r.
Qed.

Lemma run_malformed E w token orgParam u tokenData :
  token_found E w token orgParam tokenData ->
  Js.truthy (tokenData !! "inviteId") = false ->
  run E token orgParam (Some u) w =
    (Val MalformedToken,
     set_busy false
       (set_busy false
          (set_err (Some "Malformed invite token.")
             (set_busy true (entry E token orgParam w)))),
     ERead (tokenRef (default EmptyString orgParam)
                     (default EmptyString token)) true
     :: stash_events E (invitePath token (default EmptyString orgParam))).
Proof.
  intros Hf Hi. rewrite (run_settle _ _ _ _ _ _ Hf). simpl.
  rewrite accept_malformed by assumption.
  unfold prepend, settle. simpl. now rewrite app_nil_r.
Qed.

Lemma run_invite_not_found E w token orgParam u tokenData iid :
  token_found E w token orgParam tokenData ->
  tokenData !! "inviteId" = Some (VStr iid) ->
  JsString.nonempty iid = true ->
  rejects E Get (inviteRef (default EmptyString orgParam) iid) = None ->
  db w !! inviteRef (default EmptyString orgParam) iid = None ->
  run E token orgParam (Some u) w =
    (Val InviteNotFound,
     set_busy false
       (set_busy false
          (set_err (Some "Invite not found.")
             (set_busy true (entry E token orgParam w)))),
     ERead (tokenRef (default EmptyString orgParam)
                     (default EmptyString token)) true
     :: stash_events E (invitePath token (default EmptyString orgParam))
     ++ [ERead (inviteRef (default EmptyString orgParam) iid) true]).
Proof.
  intros Hf Hi Hn Hr Hd. rewrite (run_settle _ _ _ _ _ _ Hf). simpl.
  rewrite (accept_invite_not_found _ _ _ _ _ _ iid)
    by (rewrite ?db_entry; assumption).
  reflexivity.
Qed.

(** From here on the invite is known. *)
Lemma run_resolved E w token orgParam u iid inv :
  resolves E w token orgParam iid inv ->
  let orgId := default EmptyString orgParam in
  let link := invitePath token orgId in
  let pre := ERead (tokenRef orgId (default EmptyString token)) true
             :: stash_events E link ++ [ERead (inviteRef orgId iid) true] in
  run E token orgParam (Some u) w =
    if pending inv then
      prepend pre
        (settle (guard_and_join E orgId link (inviteRef orgId iid)
                   (Some (VStr iid)) inv u
                   (set_busy true (entry E token orgParam w))))
    else
      (Val NotPending,
       set_busy false
         (set_busy false
            (set_err (Some "This invitation is not pending anymore.")
               (set_busy true (entry E token orgParam w)))),
       pre).
Proof.
  intros (tokenData & Hf & Hi & Hn & Hr & Hd). simpl.
  rewrite (run_settle _ _ _ _ _ _ Hf). simpl.
  destruct (pending inv) eqn:Hp.
  - rewrite (accept_pending _ _ _ _ _ _ iid inv)
      by (rewrite ?db_entry; assumption).
    unfold prepend, settle. simpl.
    destruct (guard_and_join _ _ _ _ _ _ _ _) as [[[o|e] w'] l]; simpl;
      rewrite <- ?app_assoc; reflexivity.
  - rewrite (accept_not_pending _ _ _ _ _ _ iid inv)
      by (rewrite ?db_entry; assumption).
    reflexivity.
Qed.

Lemma names_seen_db E w w' who :
  db w' = db w -> names_seen E w' who = names_seen E w who.
Proof. unfold names_seen. intros ->. reflexivity. Qed.

(** ** Vocabulary of the properties *)

Definition is_local_remove (e : event) : bool :=
  match e with ELocalRemove _ => true | _ => false end.

Definition is_navigate (e : event) : bool :=
  match e with ENavigate _ _ _ => true | _ => false end.

(** Both resume pointers are gone. *)
Definition pointers_cleared (w : world) : Prop :=
  localStorage w !! PENDING_INVITE_KEY = None /\
  localStorage w !! AFTER_ONBOARDING_NEXT = None.

(** Both resume pointers hold [link]. *)
Definition pointers_at (link : string) (w : world) : Prop :=
  localStorage w !! PENDING_INVITE_KEY = Some link /\
  localStorage w !! AFTER_ONBOARDING_NEXT = Some link.

(** The run that started in [w] ended with the message [msg] on the page,
    no remote write and no navigation. *)
Definition halted (w : world) (msg : string)
    (r : res outcome * world * list event) : Prop :=
  err (final r) = Some msg /\ busy (final r) = false /\
  db (final r) = db w /\ writes (events r) = [] /\
  List.filter is_navigate (events r) = [].

Lemma stash_events_quiet E link :
  writes (stash_events E link) = [] /\
  List.filter is_remote (stash_events E link) = [] /\
  List.filter is_navigate (stash_events E link) = [] /\
  List.filter is_local_remove (stash_events E link) = [].
Proof. unfold stash_events. destruct (storage_denied E); repeat split. Qed.

Lemma clear_events_quiet E :
  writes (clear_events E) = [] /\
  List.filter is_remote (clear_events E) = [] /\
  List.filter is_navigate (clear_events E) = [] /\
  List.filter is_local_set (clear_events E) = [].
Proof. unfold clear_events. destruct (storage_denied E); repeat split. Qed.

Lemma writes_app (l1 l2 : list event) :
  writes (l1 ++ l2) = writes l1 ++ writes l2.
Proof. unfold writes. apply omap_app. Qed.

Lemma cleared_pointers E w :
  storage_denied E = false -> pointers_cleared (cleared E w).
Proof.
  unfold cleared, pointers_cleared, clear_pointers. intros ->. simpl.
  split.
  - rewrite lookup_delete_ne by discriminate. apply lookup_delete_eq.
  - apply lookup_delete_eq.
Qed.

Lemma stashed_pointers E link w :
  storage_denied E = false -> pointers_at link (stashed E link w).
Proof.
  unfold stashed, pointers_at, stash. intros ->. simpl.
  split.
  - rewrite lookup_insert_ne by discriminate. apply lookup_insert_eq.
  - apply lookup_insert_eq.
Qed.

(** ** The scenarios of the specification *)

Module Scenario.

(** Nothing fails. *)
Definition quiet : env :=
  {| rejects := fun _ _ => None;
     storage_denied := false;
     ignore_undefined := false;
     scope_user := Some "u1";
     sdk_message := fun _ => "sdk" |}.

(** The invite cannot be deleted by the invitee. *)
Definition no_delete : env :=
  {| rejects := fun k _ => match k with
                           | Delete => Some "Missing or insufficient permissions."
                           | _ => None
                           end;
     storage_denied := false;
     ignore_undefined := false;
     scope_user := Some "u1";
     sdk_message := fun _ => "sdk" |}.

(** The organisation document cannot be read. *)
Definition no_org : env :=
  {| rejects := fun k p => match k, p with
                           | Get, [_; _] =>
                               if bool_decide (p = ["orgs"; "orgA"])
                               then Some "offline" else None
                           | _, _ => None
                           end;
     storage_denied := false;
     ignore_undefined := false;
     scope_user := Some "u1";
     sdk_message := fun _ => "sdk" |}.

Definition invite (status : string) : document :=
  list_to_map [("status", VStr status); ("role", VStr "member");
               ("email", VStr "pat@example.com"); ("createdBy", VStr "boss")].

(** [tok123] leads to a pending invite, [tokAcc] to an accepted one,
    [tokM] to nothing, [tokGone] to an invite that is gone. *)
Definition remote : store :=
  list_to_map
    [ (["orgs"; "orgA"; "inviteTokens"; "tok123"], {[ "inviteId" := VStr "inv1" ]});
      (["orgs"; "orgA"; "inviteTokens"; "tokAcc"], {[ "inviteId" := VStr "inv2" ]});
      (["orgs"; "orgA"; "inviteTokens"; "tokM"], ∅);
      (["orgs"; "orgA"; "inviteTokens"; "tokGone"], {[ "inviteId" := VStr "inv9" ]});
      (["orgs"; "orgA"; "invites"; "inv1"], invite "pending");
      (["orgs"; "orgA"; "invites"; "inv2"], invite "accepted");
      (["users"; "u1"],
       list_to_map [("firstName", VStr "Pat"); ("lastName", VStr "Lee")]);
      (["orgs"; "orgA"], {[ "name" := VStr "Alpha" ]}) ].

(** A fresh mount of the page, with stale pointers of an earlier visit. *)
Definition start : world :=
  {| db := remote;
     localStorage := list_to_map [("pendingInvitePath", "/invite/old?org=orgZ");
                                  ("afterOnboardingNext", "/invite/old?org=orgZ")];
     clock := 0; busy := true; err := None; completedRef := false;
     scope := None |}.

Definition pat : user :=
  {| uid := "u1"; email := Some "Pat@Example.com"; displayName := None |}.

Definition other : user :=
  {| uid := "u2"; email := Some "other@example.com"; displayName := Some "Otto Other" |}.

(** Signed in with a provider that gave no name, and no profile yet. *)
Definition nameless : user :=
  {| uid := "u3"; email := Some "pat@example.com"; displayName := None |}.

End Scenario.

(** Scenario A of the specification: the invite is claimed, the member
    and the index entry are written, the invite is deleted, the scope is
    stored. *)
Example scenario_A :
  let r := run Scenario.quiet (Some "tok123") (Some "orgA")
             (Some Scenario.pat) Scenario.start in
  result r = Val Done /\
  writes (events r) =
    [(Update, inviteRef "orgA" "inv1", true);
     (SetDoc, memberRef "orgA" "u1", true);
     (SetMerge, indexRef "u1" "orgA", true);
     (Delete, inviteRef "orgA" "inv1", true);
     (Update, ["users"; "u1"], true)] /\
  db (final r) !! inviteRef "orgA" "inv1" = None /\
  List.filter is_navigate (events r) = [ENavigate "/" true (Some (VStr "Alpha"))].
Proof. vm_compute. repeat split; reflexivity. Qed.

(** The member write is refused: the claim stays on the invite and nothing
    follows. *)
Example member_write_refused :
  let E := {| rejects := fun k _ => match k with
                                    | SetDoc => Some "permission-denied"
                                    | _ => None
                                    end;
              storage_denied := false; ignore_undefined := false;
              scope_user := Some "u1"; sdk_message := fun _ => "sdk" |} in
  let r := run E (Some "tok123") (Some "orgA") (Some Scenario.pat)
             Scenario.start in
  result r = Val (Failed "permission-denied") /\
  err (final r) = Some "permission-denied" /\
  writes (events r) =
    [(Update, inviteRef "orgA" "inv1", true);
     (SetDoc, memberRef "orgA" "u1", false)] /\
  db (final r) !! inviteRef "orgA" "inv1" ≫= (fun d => d !! "claimedBy")
    = Some (VStr "u1") /\
  db (final r) !! memberRef "orgA" "u1" = None.
Proof. vm_compute. repeat split; reflexivity. Qed.

Example invitePath_escapes :
  invitePath (Some "a b/c") "org A" = "/invite/a%20b%2Fc?org=org%20A".
Proof. reflexivity. Qed.

Example names_from_displayName :
  fallback_names {| uid := "u"; email := None;
                    displayName := Some "  Ada  Lovelace King " |} (None, None)
  = (Some "Ada", Some "Lovelace King").
Proof. reflexivity. Qed.

(** ** Link errors and the resume pointers *)






(** ** After the invite is resolved *)

(** Both names are there after the profile and the display name were tried. *)
Definition names_resolved (E : env) (w : world) (u : user) : bool :=
  JsString.truthy (fst (fallback_names u (names_seen E w (uid u))))
  && JsString.truthy (snd (fallback_names u (names_seen E w (uid u)))).

(** The run of a signed-in caller whose invite is pending and passes the
    email guard: the detour to onboarding, or [join]. *)
Lemma run_guard_passed E w token orgParam u iid inv :
  resolves E w token orgParam iid inv ->
  pending inv = true ->
  email_mismatch inv u = false ->
  let orgId := default EmptyString orgParam in
  let link := invitePath token orgId in
  let w1 := set_busy true (entry E token orgParam w) in
  let pre := ERead (tokenRef orgId (default EmptyString token)) true
             :: stash_events E link
             ++ [ERead (inviteRef orgId iid) true;
                 ERead ["users"; uid u] (answered E Get ["users"; uid u])] in
  run E token orgParam (Some u) w =
    if names_resolved E w u then
      prepend pre
        (settle (join E orgId (inviteRef orgId iid) (Some (VStr iid)) inv u
                   (fst (fallback_names u (names_seen E w (uid u))))
                   (snd (fallback_names u (names_seen E w (uid u)))) w1))
    else
      (Val DetourOnboarding,
       set_busy false
         (if storage_denied E then w1
          else set_localStorage (insert AFTER_ONBOARDING_NEXT link) w1),
       pre ++ (if storage_denied E then []
               else [ELocalSet AFTER_ONBOARDING_NEXT link])
           ++ [ENavigate "/onboarding" true None]).
Proof.
  intros Hres Hp Hm. cbv zeta. rewrite (run_resolved _ _ _ _ _ _ _ Hres), Hp.
  assert (Hn : names_seen E (set_busy true (entry E token orgParam w)) (uid u)
               = names_seen E w (uid u))
    by (apply names_seen_db; simpl; apply db_entry).
  unfold names_resolved. destruct (_ && _) eqn:Hnames.
  - rewrite guard_join by (rewrite ?Hn; assumption). rewrite Hn.
    unfold prepend, settle, result, final, events. simpl.
    destruct (join _ _ _ _ _ _ _ _ _) as [[[o|e] w'] l]; simpl;
      rewrite <- !app_assoc; reflexivity.
  - rewrite guard_detour by (rewrite ?Hn; assumption).
    unfold prepend, settle, result, final, events. simpl.
    rewrite <- !app_assoc. reflexivity.
Qed.

Lemma join_result E orgId iid inv u fn ln w :
  JsString.nonempty orgId = true ->
  let r := join E orgId (inviteRef orgId iid) (Some (VStr iid)) inv u fn ln w in
  result r = Val Done \/ exists e, result r = Exn e.
Proof.
  intros Ho. simpl. pose proof (join_spec E orgId iid inv u fn ln w Ho) as R.
  inversion R; unfold result; simpl; eauto.
Qed.

Lemma settle_result (r : res outcome * world * list event) (o : outcome) :
  result (settle r) = Val o ->
  result r = Val o \/ exists e, result r = Exn e /\ o = Failed e.
Proof.
  unfold settle. destruct (result r) as [o'|e]; simpl; intros [= <-]; eauto.
Qed.

(** C6.  An invite whose status is accepted, revoked or expired ends the
    run in [NotPending]: the message is shown, nothing is written to the
    remote store, and the resume pointers are not removed (they stay on
    the invite link, where the stash put them). *)
Theorem C6_not_pending_blocks E w token orgParam u iid inv s :
  resolves E w token orgParam iid inv ->
  inv !! "status" = Some (VStr s) ->
  s = "accepted" \/ s = "revoked" \/ s = "expired" ->
  let r := run E token orgParam (Some u) w in
  result r = Val NotPending /\
  halted w "This invitation is not pending anymore." r /\
  List.filter is_local_remove (events r) = [] /\
  (storage_denied E = false ->
   pointers_at (invitePath token (default EmptyString orgParam)) (final r)).
Proof.
  intros Hres Hst Hs. cbv zeta.
  assert (Hp : pending inv = false)
    by (unfold pending; rewrite Hst; destruct Hs as [->| [->| ->]]; reflexivity).
  rewrite (run_resolved _ _ _ _ _ _ _ Hres), Hp.
  destruct (stash_events_quiet E (invitePath token (default EmptyString orgParam)))
    as (Hsw & _ & Hsn & Hsr).
  unfold halted, result, final, events. simpl.
  repeat split.
  - apply db_entry.
  - now rewrite writes_app, Hsw.
  - now rewrite List.filter_app, Hsn.
  - now rewrite List.filter_app, Hsr.
  - unfold entry. now apply stashed_pointers.
  - unfold entry. now apply stashed_pointers.
Qed.

Lemma C6_witness :
  let r := run Scenario.quiet (Some "tokAcc") (Some "orgA")
             (Some Scenario.pat) Scenario.start in
  result r = Val NotPending /\ writes (events r) = [] /\
  pointers_at "/invite/tokAcc?org=orgA" (final r).
Proof.
  destruct (C6_not_pending_blocks Scenario.quiet Scenario.start
              (Some "tokAcc") (Some "orgA") Scenario.pat "inv2"
              (Scenario.invite "accepted") "accepted")
    as (Hr & (_ & _ & _ & Hw & _) & _ & Hp).
  - exists {[ "inviteId" := VStr "inv2" ]}.
    repeat split; vm_compute; reflexivity.
  - vm_compute; reflexivity.
  - left; reflexivity.
  - split; [exact Hr|]. split; [exact Hw|]. apply Hp. reflexivity.
Defined.

(** C8.  When the first or the last name is found neither in the profile
    document nor in the display name of the provider, the run stores the
    invite link under the after-onboarding key, goes to onboarding, and
    stops there: no claim write and no other remote write. *)
Theorem C8_onboarding_detour E w token orgParam u iid inv :
  resolves E w token orgParam iid inv ->
  pending inv = true ->
  email_mismatch inv u = false ->
  names_resolved E w u = false ->
  let r := run E token orgParam (Some u) w in
  let link := invitePath token (default EmptyString orgParam) in
  result r = Val DetourOnboarding /\
  (storage_denied E = false ->
   localStorage (final r) !! AFTER_ONBOARDING_NEXT = Some link) /\
  List.filter is_navigate (events r) = [ENavigate "/onboarding" true None] /\
  writes (events r) = [] /\
  db (final r) = db w.
Proof.
  intros Hres Hp Hm Hn. cbv zeta.
  rewrite (run_guard_passed _ _ _ _ _ _ _ Hres Hp Hm), Hn.
  destruct (stash_events_quiet E (invitePath token (default EmptyString orgParam)))
    as (Hsw & _ & Hsn & _).
  unfold result, final, events. simpl. repeat split.
  - intros ->. simpl. apply lookup_insert_eq.
  - rewrite !List.filter_app, Hsn. simpl.
    now destruct (storage_denied E).
  - rewrite !writes_app, Hsw. simpl. now destruct (storage_denied E).
  - destruct (storage_denied E); simpl; apply db_entry.
Qed.

Lemma C8_witness :
  let r := run Scenario.quiet (Some "tok123") (Some "orgA")
             (Some Scenario.nameless) Scenario.start in
  result r = Val DetourOnboarding /\
  localStorage (final r) !! AFTER_ONBOARDING_NEXT = Some "/invite/tok123?org=orgA" /\
  writes (events r) = [].
Proof.
  destruct (C8_onboarding_detour Scenario.quiet Scenario.start
              (Some "tok123") (Some "orgA") Scenario.nameless "inv1"
              (Scenario.invite "pending"))
    as (Hr & Hl & _ & Hw & _).
  - exists {[ "inviteId" := VStr "inv1" ]}.
    repeat split; vm_compute; reflexivity.
  - vm_compute; reflexivity.
  - vm_compute; reflexivity.
  - vm_compute; reflexivity.
  - split; [exact Hr|]. split; [apply Hl; reflexivity | exact Hw].
Defined.

(** ** Every run, case by case *)

Lemma run_bad_segment E w token orgParam u tokenData :
  token_found E w token orgParam tokenData ->
  Js.truthy (tokenData !! "inviteId") = true ->
  (forall s, tokenData !! "inviteId" <> Some (VStr s)) ->
  run E token orgParam (Some u) w =
    prepend (ERead (tokenRef (default EmptyString orgParam)
                             (default EmptyString token)) true
             :: stash_events E (invitePath token (default EmptyString orgParam)))
      (settle (Exn (sdk_message E InvalidSegment),
               set_busy true (entry E token orgParam w), [])).
Proof.
  intros Hf Ht Hs. rewrite (run_settle _ _ _ _ _ _ Hf). cbv zeta.
  f_equal. f_equal. unfold accept, bind, setBusy, modify, doc_ref, throw.
  rewrite Ht. simpl.
  destruct (tokenData !! "inviteId") as [[]|]; try reflexivity.
  now destruct (Hs s).
Qed.

Lemma run_invite_unread E w token orgParam u tokenData iid e :
  token_found E w token orgParam tokenData ->
  tokenData !! "inviteId" = Some (VStr iid) ->
  JsString.nonempty iid = true ->
  rejects E Get (inviteRef (default EmptyString orgParam) iid) = Some e ->
  run E token orgParam (Some u) w =
    prepend (ERead (tokenRef (default EmptyString orgParam)
                             (default EmptyString token)) true
             :: stash_events E (invitePath token (default EmptyString orgParam)))
      (settle (Exn e, set_busy true (entry E token orgParam w),
               [ERead (inviteRef (default EmptyString orgParam) iid) false])).
Proof.
  intros Hf Hi Hn Hr. rewrite (run_settle _ _ _ _ _ _ Hf). cbv zeta.
  f_equal. f_equal. exec_unfold. forward. reflexivity.
Qed.

(** A run that wrote nothing and did not complete; when it ended in the
    email guard, the invite was resolved, pending, and failed the guard. *)
Definition quiet_exit (E : env) (w : world) (token orgParam : option string)
    (who : option user) (r : res outcome * world * list event) : Prop :=
  writes (events r) = [] /\ db (final r) = db w /\ result r <> Val Done /\
  (result r = Val EmailMismatch ->
   exists u iid inv,
     who = Some u /\ resolves E w token orgParam iid inv /\
     pending inv = true /\ email_mismatch inv u = true).

Lemma quiet_intro E w token orgParam who r :
  writes (events r) = [] -> db (final r) = db w ->
  result r <> Val Done -> result r <> Val EmailMismatch ->
  quiet_exit E w token orgParam who r.
Proof. intros Hw Hd Hn Hm. repeat split; try assumption. contradiction. Qed.

Lemma quiet_prepend_settle E w token orgParam who link o w' l :
  writes l = [] -> db w' = db w ->
  o <> Val Done -> o <> Val EmailMismatch ->
  quiet_exit E w token orgParam who
    (prepend (ERead (tokenRef (default EmptyString orgParam)
                              (default EmptyString token)) true
              :: stash_events E link)
       (settle (o, w', l))).
Proof.
  intros Hl Hd Ho Hm.
  destruct (stash_events_quiet E link) as (Hsw & _).
  apply quiet_intro; unfold prepend, settle, result, final, events;
    destruct o as [o|e]; simpl; try assumption; try discriminate.
  - now rewrite writes_app, Hsw, Hl.
  - now rewrite !writes_app, Hsw, Hl.
Qed.

Lemma run_cases E w token orgParam who :
  quiet_exit E w token orgParam who (run E token orgParam who w) \/
  exists u iid inv,
    who = Some u /\ resolves E w token orgParam iid inv /\
    pending inv = true /\ email_mismatch inv u = false /\
    names_resolved E w u = true.
Proof.
  destruct (clear_events_quiet E) as (Hcw & _).
  pose proof (stash_events_quiet E (invitePath token (default EmptyString orgParam)))
    as (Hsw & _).
  (* 0) URL sanity *)
  destruct (JsString.truthy token) eqn:Ht.
  2:{ left. rewrite run_invalid_link by now left.
      apply quiet_intro; unfold result, final, events, cleared; simpl;
        [assumption | now destruct (storage_denied E) | discriminate..]. }
  destruct (JsString.nonempty (default EmptyString orgParam)) eqn:Ho.
  2:{ left. rewrite run_invalid_link by now right.
      apply quiet_intro; unfold result, final, events, cleared; simpl;
        [assumption | now destruct (storage_denied E) | discriminate..]. }
  assert (Hv : valid_link token orgParam) by now split.
  (* 1) the token *)
  destruct (rejects E Get (tokenRef (default EmptyString orgParam)
                                    (default EmptyString token))) as [e|] eqn:Hr.
  { left. rewrite (run_token_unread _ _ _ _ _ _ Hv Hr).
    apply quiet_intro; try reflexivity; discriminate. }
  destruct (db w !! tokenRef (default EmptyString orgParam)
                             (default EmptyString token)) as [tokenData|] eqn:Hd.
  2:{ left. rewrite (run_token_not_found _ _ _ _ _ Hv Hr Hd).
      apply quiet_intro; unfold result, final, events, cleared; simpl;
        [assumption | now destruct (storage_denied E) | discriminate..]. }
  assert (Hf : token_found E w token orgParam tokenData) by now repeat split.
  (* the callback *)
  destruct who as [u|].
  2:{ left. rewrite (run_signed_out _ _ _ _ _ Hf).
      apply quiet_intro; unfold result, final, events; simpl;
        [assumption | apply db_entry | discriminate..]. }
  destruct (Js.truthy (tokenData !! "inviteId")) eqn:Hi.
  2:{ left. rewrite (run_malformed _ _ _ _ _ _ Hf Hi).
      apply quiet_intro; unfold result, final, events; simpl;
        [assumption | apply db_entry | discriminate..]. }
  destruct (tokenData !! "inviteId") as [v|] eqn:Hid; [|discriminate].
  assert (Hstr : (exists s, v = VStr s) \/ forall s, Some v <> Some (VStr s)).
  { destruct v; eauto; right; intros ? [=]. }
  destruct Hstr as [(iid & ->) | Hns].
  2:{ left. rewrite (run_bad_segment _ _ _ _ _ _ Hf) by (rewrite ?Hid; assumption).
      apply quiet_prepend_settle;
        [reflexivity | apply db_entry | discriminate..]. }
  simpl in Hi.
  destruct (rejects E Get (inviteRef (default EmptyString orgParam) iid))
    as [e|] eqn:Hri.
  { left. rewrite (run_invite_unread _ _ _ _ _ _ _ _ Hf Hid Hi Hri).
    apply quiet_prepend_settle;
      [reflexivity | apply db_entry | discriminate..]. }
  destruct (db w !! inviteRef (default EmptyString orgParam) iid)
    as [inv|] eqn:Hdi.
  2:{ left. rewrite (run_invite_not_found _ _ _ _ _ _ _ Hf Hid Hi Hri Hdi).
      apply quiet_intro; unfold result, final, events; simpl;
        [ | apply db_entry | discriminate..].
      now rewrite writes_app, Hsw. }
  assert (Hres : resolves E w token orgParam iid inv)
    by (exists tokenData; repeat split; assumption).
  destruct (pending inv) eqn:Hp.
  2:{ left. rewrite (run_resolved _ _ _ _ _ _ _ Hres), Hp.
      apply quiet_intro; unfold result, final, events; simpl;
        [ | apply db_entry | discriminate..].
      now rewrite writes_app, Hsw. }
  destruct (email_mismatch inv u) eqn:Hm.
  { left. rewrite (run_resolved _ _ _ _ _ _ _ Hres), Hp.
    rewrite guard_mismatch by assumption.
    unfold quiet_exit, prepend, settle, result, final, events. simpl.
    repeat split; [ | apply db_entry | discriminate | ].
    - now rewrite app_nil_r, writes_app, Hsw.
    - intros _. exists u, iid, inv. repeat split; assumption. }
  destruct (names_resolved E w u) eqn:Hn.
  2:{ left. rewrite (run_guard_passed _ _ _ _ _ _ _ Hres Hp Hm), Hn.
      apply quiet_intro; unfold result, final, events; simpl;
        [ | | discriminate..].
      - rewrite !writes_app, Hsw. simpl. now destruct (storage_denied E).
      - destruct (storage_denied E); simpl; apply db_entry. }
  right. exists u, iid, inv. repeat split; assumption.
Qed.

(** ** The remote store after a run *)

(** What one event does to the remote store: a write that went through
    changes it, anything else leaves it alone. *)
Definition apply_event (s : store) (e : event) : store :=
  match e with
  | EWrite Update p d true =>
      match s !! p with
      | Some old => <[p := d ∪ old]> s
      | None => s
      end
  | EWrite SetDoc p d true => <[p := d]> s
  | EWrite SetMerge p d true => <[p := d ∪ default ∅ (s !! p)]> s
  | EWrite Delete p _ true => delete p s
  | _ => s
  end.

Definition replay (l : list event) (s : store) : store :=
  fold_left apply_event l s.

Lemma replay_app l1 l2 s : replay (l1 ++ l2) s = replay l2 (replay l1 s).
Proof. apply fold_left_app. Qed.

Lemma replay_no_writes l s : writes l = [] -> replay l s = s.
Proof.
  revert s. induction l as [|e l IH]; intros s; [reflexivity|].
  destruct e; simpl; try discriminate; intros H; now apply IH.
Qed.

Lemma scope_run_replay E orgId name w0 r w' l :
  scope_run E orgId name w0 (r, w', l) -> db w' = replay l (db w0).
Proof.
  inversion 1; subst; simpl; try reflexivity.
  match goal with H : db w0 !! _ = Some _ |- _ => now rewrite H end.
Qed.

Lemma scope_run_writes E orgId name w0 r w' l :
  scope_run E orgId name w0 (r, w', l) ->
  map fst (writes l) `prefix_of`
    [(Update, ["users"; default EmptyString (scope_user E)]);
     (SetMerge, ["users"; default EmptyString (scope_user E)])] /\
  (r = Val tt -> Forall (fun x => snd x = true) (drop 1 (writes l)) /\
                 List.filter is_navigate l = []).
Proof.
  inversion 1; subst; simpl;
    repeat match goal with H : scope_user E = _ |- _ => rewrite H; clear H end;
    simpl; (split; [eexists; reflexivity|]); intros; try discriminate;
    repeat constructor.
Qed.

Section JoinFacts.

Context (E : env) (orgId iid : string) (inv : document) (u : user)
  (fn ln : option string) (w : world).

Lemma writes_join_events :
  writes (join_events E orgId iid inv u fn ln w) =
    [(Update, inviteRef orgId iid, true);
     (SetDoc, memberRef orgId (uid u), true);
     (SetMerge, indexRef (uid u) orgId, true);
     (Delete, inviteRef orgId iid, answered E Delete (inviteRef orgId iid))].
Proof.
  unfold join_events. rewrite writes_app.
  destruct (clear_events_quiet E) as (-> & _). reflexivity.
Qed.

Lemma db_cleared w0 : db (cleared E w0) = db w0.
Proof. unfold cleared. now destruct (storage_denied E). Qed.

Lemma replay_join_events old :
  db w !! inviteRef orgId iid = Some old ->
  replay (join_events E orgId iid inv u fn ln w) (db w)
    = db (after_clear E orgId iid inv u fn ln w old).
Proof.
  intros Hold. unfold join_events. rewrite replay_app.
  destruct (clear_events_quiet E) as (Hc & _).
  rewrite (replay_no_writes (clear_events E)) by assumption.
  unfold after_clear. rewrite db_cleared.
  unfold after_delete, replay. simpl. rewrite Hold.
  now destruct (answered E Delete (inviteRef orgId iid)).
Qed.

(** The store after [join] is the store before it with the writes that went
    through applied in order: nothing is rolled back. *)
Lemma join_replay r w' l :
  join_run E orgId iid inv u fn ln w (r, w', l) -> db w' = replay l (db w).
Proof.
  intros H.
  inversion H as [Hc Hi | e Hf | old e Hold Hr | old e Hold Hr
                 | old e w1 l1 Hold Hs | old w1 l1 Hold Hc Hru Hrm Hri Hs];
    subst; try reflexivity.
  - unfold replay. simpl. now rewrite Hold.
  - unfold replay. simpl. now rewrite Hold.
  - change (db w' = replay (join_events E orgId iid inv u fn ln w ++ l1) (db w)).
    rewrite replay_app, (replay_join_events old) by assumption.
    eapply scope_run_replay; eassumption.
  - match goal with
    | |- _ = replay (_ :: _ :: _ :: _ :: _ :: _ ++ ?t) _ =>
        change (db (if completedRef w1 then w1 else set_completedRef true w1)
                = replay (join_events E orgId iid inv u fn ln w ++ t) (db w))
    end.
    rewrite !replay_app, (replay_join_events old) by assumption.
    rewrite (replay_no_writes (if completedRef _ then _ else _))
      by (now destruct (completedRef _)).
    erewrite <- scope_run_replay by eassumption.
    now destruct (completedRef _).
Qed.

End JoinFacts.

(** A run that reaches step 4 is [join] between the reads before it and
    the [catch] and [finally] after it. *)
Lemma run_join E w token orgParam u iid inv :
  resolves E w token orgParam iid inv ->
  pending inv = true ->
  email_mismatch inv u = false ->
  names_resolved E w u = true ->
  exists pre rj,
    join_run E (default EmptyString orgParam) iid inv u
      (fst (fallback_names u (names_seen E w (uid u))))
      (snd (fallback_names u (names_seen E w (uid u))))
      (set_busy true (entry E token orgParam w)) rj /\
    run E token orgParam (Some u) w = prepend pre (settle rj) /\
    writes pre = [] /\ List.filter is_navigate pre = [].
Proof.
  intros Hres Hp Hm Hn.
  assert (Ho : JsString.nonempty (default EmptyString orgParam) = true)
    by (destruct Hres as (? & ((_ & Ho) & _) & _); exact Ho).
  eexists. eexists. split; [apply join_spec; exact Ho|].
  rewrite (run_guard_passed _ _ _ _ _ _ _ Hres Hp Hm), Hn.
  destruct (stash_events_quiet E (invitePath token (default EmptyString orgParam)))
    as (Hsw & _ & Hsn & _).
  split; [reflexivity|]. split.
  - change (writes ([ERead (tokenRef (default EmptyString orgParam)
                                     (default EmptyString token)) true]
                    ++ stash_events E (invitePath token (default EmptyString orgParam))
                    ++ [ERead (inviteRef (default EmptyString orgParam) iid) true;
                        ERead ["users"; uid u] (answered E Get ["users"; uid u])])
            = []).
    now rewrite !writes_app, Hsw.
  - simpl. now rewrite List.filter_app, Hsn.
Qed.

Lemma events_prepend {A} pre (r : res A * world * list event) :
  events (prepend pre r) = pre ++ events r.
Proof. reflexivity. Qed.

Lemma final_prepend {A} pre (r : res A * world * list event) :
  final (prepend pre r) = final r.
Proof. reflexivity. Qed.

Lemma result_prepend {A} pre (r : res A * world * list event) :
  result (prepend pre r) = result r.
Proof. reflexivity. Qed.

Lemma writes_settle (r : res outcome * world * list event) :
  writes (events (settle r)) = writes (events r).
Proof.
  unfold settle. destruct (result r); simpl; [reflexivity|].
  rewrite writes_app. simpl. apply app_nil_r.
Qed.

Lemma db_settle (r : res outcome * world * list event) :
  db (final (settle r)) = db (final r).
Proof. unfold settle. destruct (result r); reflexivity. Qed.

Lemma replay_settle (r : res outcome * world * list event) s :
  replay (events (settle r)) s = replay (events r) s.
Proof.
  unfold settle. destruct (result r); simpl; [reflexivity|].
  now rewrite replay_app.
Qed.

(** ** The email soft guard *)

(** The stored lower-case copy, when the invite has one, is the copy of the
    target email (data model of the invite record). *)
Definition email_lc_consistent (inv : document) : Prop :=
  match inv !! "email_lc" with
  | None | Some VNull => True
  | Some v =>
      exists e, inv !! "email" = Some (VStr e) /\
                v = VStr (JsString.toLowerCase (JsString.trim e))
  end.

(** The invite names a target email, the caller has an email, and the two
    differ once blanks around them and the case of letters are ignored. *)
Definition addressed_elsewhere (inv : document) (u : user) : Prop :=
  exists e m,
    inv !! "email" = Some (VStr e) /\ email u = Some m /\
    JsString.trim e <> EmptyString /\ JsString.trim m <> EmptyString /\
    JsString.toLowerCase (JsString.trim e)
      <> JsString.toLowerCase (JsString.trim m).

Lemma nonempty_toLowerCase s :
  JsString.nonempty (JsString.toLowerCase s) = JsString.nonempty s.
Proof. destruct s; reflexivity. Qed.

Lemma nonempty_iff s : JsString.nonempty s = true <-> s <> EmptyString.
Proof. destruct s; simpl; split; congruence. Qed.

Lemma inviteEmailLC_consistent inv :
  email_lc_consistent inv ->
  inviteEmailLC inv =
    Some (match inv !! "email" with
          | Some (VStr e) => VStr (JsString.toLowerCase (JsString.trim e))
          | _ => VNull
          end).
Proof.
  unfold email_lc_consistent, inviteEmailLC.
  destruct (inv !! "email_lc") as [v|]; [|reflexivity].
  destruct v; try reflexivity; intros (e & -> & [=]); subst; reflexivity.
Qed.

Lemma email_mismatch_iff inv u :
  email_lc_consistent inv ->
  email_mismatch inv u = true <-> addressed_elsewhere inv u.
Proof.
  intros Hc. unfold email_mismatch, addressed_elsewhere, myEmail.
  rewrite (inviteEmailLC_consistent _ Hc).
  destruct (inv !! "email") as [[| | |e| |]|]; simpl;
    try (split; [discriminate | intros (? & ? & [=] & _)]).
  destruct (email u) as [m|]; simpl.
  - unfold JsString.or_null. rewrite !nonempty_toLowerCase.
    destruct (JsString.nonempty (JsString.trim e)) eqn:He; simpl.
    + destruct (JsString.nonempty (JsString.trim m)) eqn:Hm'; simpl.
      * rewrite nonempty_toLowerCase, Hm'. simpl.
        unfold Js.strict_neq. rewrite negb_true_iff, bool_decide_eq_false.
        apply nonempty_iff in He, Hm'. split.
        -- intros Hne. exists e, m. repeat split; try assumption.
           congruence.
        -- intros (e' & m' & [= <-] & [= <-] & _ & _ & Hne). congruence.
      * split; [discriminate|].
        intros (e' & m' & _ & [= <-] & _ & Hm2 & _).
        apply nonempty_iff in Hm2. congruence.
    + split; [discriminate|].
      intros (e' & m' & [= <-] & _ & He2 & _).
      apply nonempty_iff in He2. congruence.
  - rewrite andb_false_r. split; [discriminate|].
    intros (? & ? & _ & [=] & _).
Qed.



(** ** The order of the remote writes *)

(** The remote writes of a complete run, in the order of the source: the
    four of the protocol, then the two with which [setOrg] stores the
    scope (the second only when the first fails). *)
Definition expected_writes (orgId iid who su : string)
  : list (opkind * path) :=
  [(Update, inviteRef orgId iid);
   (SetDoc, memberRef orgId who);
   (SetMerge, indexRef who orgId);
   (Delete, inviteRef orgId iid);
   (Update, ["users"; su]);
   (SetMerge, ["users"; su])].

(** The invite that the token of the link leads to. *)
Definition invite_id (w : world) (token orgParam : option string) : string :=
  match db w !! tokenRef (default EmptyString orgParam) (default EmptyString token)
          ≫= (fun d => d !! "inviteId") with
  | Some (VStr s) => s
  | _ => EmptyString
  end.

Lemma invite_id_resolves E w token orgParam iid inv :
  resolves E w token orgParam iid inv -> invite_id w token orgParam = iid.
Proof.
  intros (tokenData & (_ & _ & Hd) & Hi & _). unfold invite_id.
  rewrite Hd. simpl. now rewrite Hi.
Qed.

Lemma nav_quiet (c : bool) (name : value) :
  writes (if c then [] else [ENavigate "/" true (Some name)]) = [].
Proof. now destruct c. Qed.

Lemma join_writes E orgId iid inv u fn ln w r w' l :
  join_run E orgId iid inv u fn ln w (r, w', l) ->
  map fst (writes l) `prefix_of`
    expected_writes orgId iid (uid u) (default EmptyString (scope_user E)) /\
  (forall i kp, i < 3 -> writes l !! i = Some (kp, false) ->
                length (writes l) = S i).
Proof.
  intros H.
  inversion H as [Hc Hi | e Hf | old e Hold Hr | old e Hold Hr
                 | old e w1 l1 Hold Hs | old w1 l1 Hold Hc Hru Hrm Hri Hs];
    subst.
  1-4: split; [eexists; reflexivity|];
       intros [|[|[|i]]] kp Hlt; simpl; intros [=]; (reflexivity || lia).
  - change (_ :: _ :: _ :: _ :: _ :: _ ++ l1)
      with (join_events E orgId iid inv u fn ln w ++ l1).
    rewrite writes_app, writes_join_events.
    apply scope_run_writes in Hs as [Hp _]. split.
    + rewrite map_app. now apply (prefix_app [_; _; _; _]).
    + intros [|[|[|i]]] kp Hlt; simpl; intros [=]; lia.
  - match goal with
    | |- context [_ :: _ :: _ :: _ :: _ :: _ ++ ?t] =>
        change (_ :: _ :: _ :: _ :: _ :: _ ++ t)
          with (join_events E orgId iid inv u fn ln w ++ t)
    end.
    rewrite !writes_app, writes_join_events, nav_quiet, app_nil_r.
    apply scope_run_writes in Hs as [Hp _]. split.
    + rewrite map_app. now apply (prefix_app [_; _; _; _]).
    + intros [|[|[|i]]] kp Hlt; simpl; intros [=]; lia.
Qed.

(** C1.  In every run the remote writes come in the order claim, member,
    reverse index, delete (followed only by the writes that store the
    scope); a write among the first three that fails is the last remote
    write of the run; and the store the run leaves is the store it found
    with the writes that went through applied in that order, so that
    nothing written earlier is rolled back. *)
Theorem C1_writes_are_ordered E w token orgParam who :
  let r := run E token orgParam who w in
  let ws := writes (events r) in
  map fst ws `prefix_of`
    expected_writes (default EmptyString orgParam)
      (invite_id w token orgParam) (from_option uid EmptyString who)
      (default EmptyString (scope_user E)) /\
  (forall i kp, i < 3 -> ws !! i = Some (kp, false) -> length ws = S i) /\
  db (final r) = replay (events r) (db w).
Proof.
  cbv zeta.
  destruct (run_cases E w token orgParam who)
    as [(Hw & Hd & _ & _) | (u & iid & inv & -> & Hres & Hp & Hm & Hn)].
  - rewrite Hw, Hd, replay_no_writes by assumption.
    split; [eexists; reflexivity|]. split; [|reflexivity].
    intros i kp _ [=].
  - destruct (run_join _ _ _ _ _ _ _ Hres Hp Hm Hn)
      as (pre & [[rj wj] lj] & Hj & -> & Hpre & _).
    rewrite (invite_id_resolves _ _ _ _ _ _ Hres).
    rewrite events_prepend, final_prepend.
    rewrite writes_app, Hpre, writes_settle, db_settle, replay_app.
    rewrite (replay_no_writes _ _ Hpre), replay_settle.
    cbn [final events fst snd from_option].
    destruct (join_writes _ _ _ _ _ _ _ _ _ _ _ Hj) as [Hpf Hfail].
    split; [exact Hpf|]. split; [exact Hfail|].
    rewrite (join_replay _ _ _ _ _ _ _ _ _ _ _ Hj). simpl.
    now rewrite db_entry.
Qed.


(** ** Documents and payloads *)

(** The first defined binding of [k] in a payload. *)
Fixpoint assoc (k : string) (fs : fields) : option value :=
  match fs with
  | [] => None
  | (k', Some v) :: rest => if String.eqb k' k then Some v else assoc k rest
  | (_, None) :: rest => assoc k rest
  end.

Lemma data_of_lookup (fs : fields) (k : string) : data_of fs !! k = assoc k fs.
Proof.
  induction fs as [|[k' [v|]] fs IH]; simpl.
  - apply lookup_empty.
  - unfold data_of in *. simpl. destruct (String.eqb_spec k' k) as [->|Hne].
    + apply lookup_insert_eq.
    + rewrite lookup_insert_ne by assumption. exact IH.
  - exact IH.
Qed.

Lemma coalesce_idem (o : option value) (d v : value) :
  d <> VNull ->
  Js.coalesce o (Some d) = Some v ->
  v <> VNull /\ Js.coalesce (Some v) (Some d) = Some v.
Proof. destruct o as [[]|]; simpl; intros Hd [= <-]; split; congruence || (now destruct d). Qed.

Section Payloads.

Context (inv : document) (u : user) (fn ln : option string) (now : value).

Lemma claim_email_fields :
  data_of (claim_fields inv u fn ln now) !! "claimedEmail"
    = Some (Js.of_string (myEmail u)) /\
  data_of (claim_fields inv u fn ln now) !! "claimedEmail_lc"
    = Some (Js.of_string (myEmail u)).
Proof.
  rewrite !data_of_lookup. unfold claim_fields. simpl.
  destruct (coalesce_some (inv !! "status") (VStr "pending")) as [v1 ->].
  destruct (coalesce_some (inv !! "role") (VStr "member")) as [v2 ->].
  destruct (coalesce_some (inv !! "email") VNull) as [v3 ->].
  destruct (coalesce_some (inv !! "phone") VNull) as [v4 ->].
  simpl. destruct (inv !! "createdBy"); simpl; split; reflexivity.
Qed.

Lemma claim_role_field :
  data_of (claim_fields inv u fn ln now) !! "role"
    = Js.coalesce (inv !! "role") (Some (VStr "member")).
Proof.
  rewrite data_of_lookup. unfold claim_fields. simpl.
  destruct (coalesce_some (inv !! "status") (VStr "pending")) as [v1 ->].
  destruct (coalesce_some (inv !! "role") (VStr "member")) as [v2 ->].
  reflexivity.
Qed.

Lemma member_role_field iid :
  data_of (member_fields inv u fn ln iid now) !! "role"
    = Js.coalesce (inv !! "role") (Some (VStr "member")).
Proof.
  rewrite data_of_lookup. unfold member_fields. simpl.
  destruct (coalesce_some (inv !! "role") (VStr "member")) as [v2 ->].
  reflexivity.
Qed.

Lemma index_role_field orgId name :
  data_of (index_fields inv orgId name now) !! "role"
    = Js.coalesce (inv !! "role") (Some (VStr "member")).
Proof.
  rewrite data_of_lookup. unfold index_fields. simpl.
  destruct (coalesce_some (inv !! "role") (VStr "member")) as [v2 ->].
  reflexivity.
Qed.

Lemma index_name_field orgId name :
  data_of (index_fields inv orgId name now) !! "orgName" = Some name.
Proof. rewrite data_of_lookup. reflexivity. Qed.

End Payloads.

Lemma scope_doc_lookup orgId name k :
  scope_doc orgId name !! k =
    if String.eqb "scope" k then Some (VScope orgId name) else None.
Proof. unfold scope_doc. rewrite data_of_lookup. reflexivity. Qed.

(** ** The world after a run that completed *)

Lemma scope_run_Val E orgId name w0 w' l :
  scope_run E orgId name w0 (Val tt, w', l) ->
  scope w' = Some (orgId, name) /\
  localStorage w' = localStorage w0 /\
  completedRef w' = completedRef w0 /\
  (forall p, length p <> 2 -> db w' !! p = db w0 !! p) /\
  (forall c x, c <> "users" -> db w' !! [c; x] = db w0 !! [c; x]) /\
  (forall who k, k <> "scope" ->
     db w' !! ["users"; who] ≫= (fun d => d !! k)
     = db w0 !! ["users"; who] ≫= (fun d => d !! k)) /\
  (forall su, scope_user E = Some su ->
     db w' !! ["users"; su] ≫= (fun d => d !! "scope")
     = Some (VScope orgId name)).
Proof.
  intros H.
  inversion H as [Hu | su old Hu Hr Hd | su Hu Ha Hr | ]; subst; simpl;
    (split; [reflexivity|]); (split; [reflexivity|]); (split; [reflexivity|]).
  - repeat split; try reflexivity. congruence.
  - split; [|split; [|split]].
    + intros p Hp. apply lookup_insert_ne. intros <-. now apply Hp.
    + intros c x Hc. apply lookup_insert_ne. congruence.
    + intros who k Hk. destruct (decide (su = who)) as [->|Hne].
      * rewrite lookup_insert_eq, Hd. simpl.
        rewrite lookup_union_r; [reflexivity|].
        rewrite scope_doc_lookup.
        destruct (String.eqb_spec "scope" k); congruence.
      * rewrite lookup_insert_ne by congruence. reflexivity.
    + intros su' Hsu. rewrite Hu in Hsu. injection Hsu as <-.
      rewrite lookup_insert_eq. simpl.
      erewrite lookup_union_Some_l; [reflexivity|].
      now rewrite scope_doc_lookup.
  - split; [|split; [|split]].
    + intros p Hp. apply lookup_insert_ne. intros <-. now apply Hp.
    + intros c x Hc. apply lookup_insert_ne. congruence.
    + intros who k Hk. destruct (decide (su = who)) as [->|Hne].
      * rewrite lookup_insert_eq. simpl.
        rewrite lookup_union_r.
        -- destruct (db w0 !! ["users"; who]); reflexivity.
        -- rewrite scope_doc_lookup.
           destruct (String.eqb_spec "scope" k); congruence.
      * rewrite lookup_insert_ne by congruence. reflexivity.
    + intros su' Hsu. rewrite Hu in Hsu. injection Hsu as <-.
      rewrite lookup_insert_eq. simpl.
      erewrite lookup_union_Some_l; [reflexivity|].
      now rewrite scope_doc_lookup.
Qed.

Section AfterJoin.

Context (E : env) (orgId iid : string) (inv : document) (u : user)
  (fn ln : option string) (w : world) (old : document).

Lemma after_clear_member :
  db (after_clear E orgId iid inv u fn ln w old) !! memberRef orgId (uid u)
    = Some (member_doc iid inv u fn ln w).
Proof.
  unfold after_clear. rewrite db_cleared. unfold after_delete.
  destruct (answered E Delete (inviteRef orgId iid)); simpl;
    rewrite ?lookup_delete_ne by discriminate;
    rewrite lookup_insert_ne by discriminate; apply lookup_insert_eq.
Qed.

Lemma after_clear_index :
  db (after_clear E orgId iid inv u fn ln w old) !! indexRef (uid u) orgId
    = Some (index_doc E orgId inv w
            ∪ default ∅ (db w !! indexRef (uid u) orgId)).
Proof.
  unfold after_clear. rewrite db_cleared. unfold after_delete.
  destruct (answered E Delete (inviteRef orgId iid)); simpl;
    rewrite ?lookup_delete_ne by discriminate;
    rewrite lookup_insert_eq;
    rewrite !(lookup_insert_ne _ _ (indexRef (uid u) orgId)) by discriminate;
    reflexivity.
Qed.

Lemma after_clear_invite :
  db (after_clear E orgId iid inv u fn ln w old) !! inviteRef orgId iid
    = if answered E Delete (inviteRef orgId iid) then None
      else Some (claim_doc inv u fn ln w ∪ old).
Proof.
  unfold after_clear. rewrite db_cleared. unfold after_delete.
  destruct (answered E Delete (inviteRef orgId iid)); simpl.
  - apply lookup_delete_eq.
  - rewrite !lookup_insert_ne by discriminate. apply lookup_insert_eq.
Qed.

Lemma after_clear_other p :
  p <> inviteRef orgId iid -> p <> memberRef orgId (uid u) ->
  p <> indexRef (uid u) orgId ->
  db (after_clear E orgId iid inv u fn ln w old) !! p = db w !! p.
Proof.
  intros H1 H2 H3. unfold after_clear. rewrite db_cleared.
  unfold after_delete.
  destruct (answered E Delete (inviteRef orgId iid)); simpl;
    rewrite ?lookup_delete_ne by congruence;
    rewrite !lookup_insert_ne by congruence; reflexivity.
Qed.

Lemma after_clear_pointers :
  storage_denied E = false ->
  pointers_cleared (after_clear E orgId iid inv u fn ln w old).
Proof. intros Hs. unfold after_clear. now apply cleared_pointers. Qed.

Lemma after_clear_completedRef :
  completedRef (after_clear E orgId iid inv u fn ln w old) = completedRef w.
Proof.
  unfold after_clear, cleared, after_delete.
  destruct (storage_denied E), (answered E Delete _); reflexivity.
Qed.

End AfterJoin.

(** A run that completed went through every step: the facts of its path,
    and the run itself. *)
Lemma run_Done_inv E w token orgParam who :
  result (run E token orgParam who w) = Val Done ->
  exists u iid inv pre old w' l,
    let orgId := default EmptyString orgParam in
    let fn := fst (fallback_names u (names_seen E w (uid u))) in
    let ln := snd (fallback_names u (names_seen E w (uid u))) in
    let w1 := set_busy true (entry E token orgParam w) in
    who = Some u /\ resolves E w token orgParam iid inv /\
    pending inv = true /\ email_mismatch inv u = false /\
    names_resolved E w u = true /\
    db w !! inviteRef orgId iid = Some old /\
    scope_run E orgId (seen_orgName E orgId (db w))
      (after_clear E orgId iid inv u fn ln w1 old) (Val tt, w', l) /\
    writes pre = [] /\ List.filter is_navigate pre = [] /\
    run E token orgParam who w =
      (Val Done,
       set_busy false (if completedRef w' then w' else set_completedRef true w'),
       pre ++ join_events E orgId iid inv u fn ln w1 ++ l ++
       (if completedRef w' then []
        else [ENavigate "/" true (Some (seen_orgName E orgId (db w)))])).
Proof.
  intros HD.
  destruct (run_cases E w token orgParam who)
    as [(_ & _ & Hn & _) | (u & iid & inv & -> & Hres & Hp & Hm & Hn)];
    [contradiction|].
  destruct (run_join _ _ _ _ _ _ _ Hres Hp Hm Hn)
    as (pre & rj & Hj & Hrun & Hpre & Hnav).
  rewrite Hrun, result_prepend in HD.
  exists u, iid, inv, pre.
  inversion Hj as [Hc Hi | e Hf | old e Hold Hr | old e Hold Hr
                  | old e w1 l1 Hold Hs | old w1 l1 Hold Hc Hru Hrm Hri Hs];
    subst rj; try discriminate HD.
  exists old, w1, l1. cbv zeta.
  assert (Hdb : db (set_busy true (entry E token orgParam w)) = db w)
    by (simpl; apply db_entry).
  rewrite Hdb in *.
  repeat split; try assumption.
Qed.

(** ** Member and reverse index *)

(** C3.  A run that completes writes the member record of (org, user) and
    the reverse-index entry of (user, org) with one and the same role, the
    role of the invite, or ["member"] when the invite has none; and that is
    the role both documents carry when the run is over. *)
Theorem C3_member_and_index_share_role E w token orgParam who :
  let orgId := default EmptyString orgParam in
  let r := run E token orgParam who w in
  result r = Val Done ->
  exists u iid inv role m x,
    who = Some u /\ resolves E w token orgParam iid inv /\
    Js.coalesce (inv !! "role") (Some (VStr "member")) = Some role /\
    (inv !! "role" = None -> role = VStr "member") /\
    In (EWrite SetDoc (memberRef orgId (uid u)) m true) (events r) /\
    m !! "role" = Some role /\
    In (EWrite SetMerge (indexRef (uid u) orgId) x true) (events r) /\
    x !! "role" = Some role /\
    db (final r) !! memberRef orgId (uid u) ≫= (fun d => d !! "role")
      = Some role /\
    db (final r) !! indexRef (uid u) orgId ≫= (fun d => d !! "role")
      = Some role.
Proof.
  cbv zeta. intros HD.
  destruct (run_Done_inv _ _ _ _ _ HD)
    as (u & iid & inv & pre & old & w' & l & -> & Hres & Hp & Hm & Hn
        & Hold & Hs & Hpre & Hnav & Hrun).
  destruct (coalesce_some (inv !! "role") (VStr "member")) as [role Hrole].
  apply scope_run_Val in Hs as (_ & _ & _ & Hframe & _).
  exists u, iid, inv, role. eexists. eexists.
  rewrite Hrun. unfold events, final. simpl fst. simpl snd.
  split; [reflexivity|]. split; [assumption|]. split; [assumption|].
  split; [intros Hnone; rewrite Hnone in Hrole; now injection Hrole|].
  split; [apply in_or_app; right; right; left; reflexivity|].
  split; [unfold member_doc; now rewrite member_role_field|].
  split; [apply in_or_app; right; do 3 right; left; reflexivity|].
  split; [unfold index_doc; now rewrite index_role_field|].
  assert (Hdb : forall p, length p <> 2 ->
            db (set_busy false (if completedRef w' then w'
                                else set_completedRef true w')) !! p
            = db w' !! p)
    by (intros; now destruct (completedRef w')).
  rewrite !Hdb, !Hframe by discriminate.
  rewrite after_clear_member, after_clear_index. simpl.
  unfold member_doc. rewrite member_role_field. split; [assumption|].
  erewrite lookup_union_Some_l; [reflexivity|].
  unfold index_doc. now rewrite index_role_field.
Qed.

Lemma C3_witness :
  exists u iid inv role m x,
    Some Scenario.pat = Some u /\
    resolves Scenario.quiet Scenario.start (Some "tok123") (Some "orgA") iid inv /\
    Js.coalesce (inv !! "role") (Some (VStr "member")) = Some role /\
    (inv !! "role" = None -> role = VStr "member") /\
    In (EWrite SetDoc (memberRef "orgA" (uid u)) m true)
       (events (run Scenario.quiet (Some "tok123") (Some "orgA")
                  (Some Scenario.pat) Scenario.start)) /\
    m !! "role" = Some role /\
    In (EWrite SetMerge (indexRef (uid u) "orgA") x true)
       (events (run Scenario.quiet (Some "tok123") (Some "orgA")
                  (Some Scenario.pat) Scenario.start)) /\
    x !! "role" = Some role /\
    db (final (run Scenario.quiet (Some "tok123") (Some "orgA")
                 (Some Scenario.pat) Scenario.start))
      !! memberRef "orgA" (uid u) ≫= (fun d => d !! "role") = Some role /\
    db (final (run Scenario.quiet (Some "tok123") (Some "orgA")
                 (Some Scenario.pat) Scenario.start))
      !! indexRef (uid u) "orgA" ≫= (fun d => d !! "role") = Some role.
Proof.
  apply (C3_member_and_index_share_role Scenario.quiet Scenario.start
           (Some "tok123") (Some "orgA") (Some Scenario.pat)).
  vm_compute. reflexivity.
Defined.

(** ** Best-effort steps *)

(** The steps that must go through for the run to complete; the read of
    the organisation name and the deletion of the invite are not among
    them. *)
Definition writes_go_through (E : env) (orgId iid : string) (inv : document)
    (u : user) : Prop :=
  (inv !! "createdBy" = None -> ignore_undefined E = true) /\
  rejects E Update (inviteRef orgId iid) = None /\
  rejects E SetDoc (memberRef orgId (uid u)) = None /\
  rejects E SetMerge (indexRef (uid u) orgId) = None /\
  (forall su, scope_user E = Some su ->
              rejects E SetMerge ["users"; su] = None).

Lemma run_completes E w token orgParam u iid inv :
  resolves E w token orgParam iid inv ->
  pending inv = true ->
  email_mismatch inv u = false ->
  names_resolved E w u = true ->
  writes_go_through E (default EmptyString orgParam) iid inv u ->
  result (run E token orgParam (Some u) w) = Val Done.
Proof.
  intros Hres Hp Hm Hn (Hcb & Hru & Hrm & Hri & Hsc).
  destruct (run_join _ _ _ _ _ _ _ Hres Hp Hm Hn)
    as (pre & rj & Hj & -> & _).
  rewrite result_prepend.
  assert (Hinv : db (set_busy true (entry E token orgParam w))
                 !! inviteRef (default EmptyString orgParam) iid = Some inv).
  { simpl. rewrite db_entry.
    now destruct Hres as (? & _ & _ & _ & _ & Hd). }
  inversion Hj as [Hc Hi | e Hf | old e Hold Hr | old e Hold Hr
                  | old e w1 l1 Hold Hs | old w1 l1 Hold Hc Hru' Hrm' Hri' Hs];
    subst rj; try reflexivity; exfalso.
  - rewrite (Hcb Hc) in Hi. discriminate.
  - destruct Hf; congruence.
  - congruence.
  - congruence.
  - inversion Hs as [ | | | su e' Hu Ha Hr]; subst.
    rewrite (Hsc _ Hu) in Hr. discriminate.
Qed.



(** ** The claim block *)

Lemma lower_ascii_idem c :
  JsString.lower_ascii (JsString.lower_ascii c) = JsString.lower_ascii c.
Proof. destruct c as [[] [] [] [] [] [] [] []]; reflexivity. Qed.

Lemma toLowerCase_idem s :
  JsString.toLowerCase (JsString.toLowerCase s) = JsString.toLowerCase s.
Proof.
  induction s as [|c s IH]; simpl; [reflexivity|].
  now rewrite lower_ascii_idem, IH.
Qed.

(** The payloads of the [updateDoc] calls on documents four segments deep,
    which are the invites. *)
Definition claim_writes (l : list event) : list document :=
  omap (fun e => match e with
                 | EWrite Update [_; _; _; _] d _ => Some d
                 | _ => None
                 end) l.

Lemma claim_writes_app l1 l2 :
  claim_writes (l1 ++ l2) = claim_writes l1 ++ claim_writes l2.
Proof. apply omap_app. Qed.

Lemma In_claim_writes orgId iid d ok l :
  In (EWrite Update (inviteRef orgId iid) d ok) l -> In d (claim_writes l).
Proof.
  induction l as [|e l IH]; simpl; [tauto|].
  intros [-> | H].
  - left. reflexivity.
  - apply IH in H. change (In d (claim_writes ([e] ++ l))).
    rewrite claim_writes_app. apply in_or_app. now right.
Qed.

Lemma no_writes_no_claim l : writes l = [] -> claim_writes l = [].
Proof.
  induction l as [|e l IH]; [reflexivity|].
  destruct e; simpl; try discriminate; exact IH.
Qed.

Lemma scope_run_no_claim E orgId name w0 r w' l :
  scope_run E orgId name w0 (r, w', l) -> claim_writes l = [].
Proof. inversion 1; reflexivity. Qed.

Lemma join_claim_writes E orgId iid inv u fn ln w r w' l d :
  join_run E orgId iid inv u fn ln w (r, w', l) ->
  In d (claim_writes l) -> d = claim_doc inv u fn ln w.
Proof.
  intros H.
  inversion H as [Hc Hi | e Hf | old e Hold Hr | old e Hold Hr
                 | old e w1 l1 Hold Hs | old w1 l1 Hold Hc Hru Hrm Hri Hs];
    subst.
  1: intros [].
  1-3: simpl; intros [<- | []]; reflexivity.
  - change (_ :: _ :: _ :: _ :: _ :: _ ++ l1)
      with (join_events E orgId iid inv u fn ln w ++ l1).
    unfold join_events.
    rewrite !claim_writes_app, (scope_run_no_claim _ _ _ _ _ _ _ Hs).
    rewrite (no_writes_no_claim (clear_events E))
      by apply clear_events_quiet.
    simpl. intros [<- | []]. reflexivity.
  - match goal with
    | |- context [_ :: _ :: _ :: _ :: _ :: _ ++ ?t] =>
        change (_ :: _ :: _ :: _ :: _ :: _ ++ t)
          with (join_events E orgId iid inv u fn ln w ++ t)
    end.
    unfold join_events.
    rewrite !claim_writes_app, (scope_run_no_claim _ _ _ _ _ _ _ Hs).
    rewrite (no_writes_no_claim (clear_events E))
      by apply clear_events_quiet.
    rewrite (no_writes_no_claim (if completedRef w1 then _ else _))
      by apply nav_quiet.
    simpl. intros [<- | []]. reflexivity.
Qed.

Lemma claim_writes_settle (r : res outcome * world * list event) :
  claim_writes (events (settle r)) = claim_writes (events r).
Proof.
  unfold settle. destruct (result r); simpl; [reflexivity|].
  rewrite claim_writes_app. simpl. apply app_nil_r.
Qed.



(** ** Running the sequence twice *)

(** [profile_names] looks at two fields only, and finds in a missing
    profile what it finds in one without names. *)
Lemma names_seen_fields E E' w w' who :
  answered E' Get ["users"; who] = answered E Get ["users"; who] ->
  (forall k, k <> "scope" ->
     db w' !! ["users"; who] ≫= (fun d => d !! k)
     = db w !! ["users"; who] ≫= (fun d => d !! k)) ->
  names_seen E' w' who = names_seen E w who.
Proof.
  unfold names_seen, answered. intros Ha Hf.
  pose proof (Hf "firstName" ltac:(discriminate)) as H1.
  pose proof (Hf "lastName" ltac:(discriminate)) as H2.
  destruct (rejects E' Get _), (rejects E Get _); try discriminate;
    [reflexivity|].
  unfold profile_names.
  destruct (db w' !! ["users"; who]) as [p'|],
           (db w !! ["users"; who]) as [p|]; simpl in *.
  - now rewrite H1, H2.
  - now rewrite H1, H2.
  - now rewrite <- H1, <- H2.
  - reflexivity.
Qed.

Lemma seen_orgName_agree (E E' : env) (orgId : string) (s s' : store) :
  answered E' Get ["orgs"; orgId] = answered E Get ["orgs"; orgId] ->
  s' !! ["orgs"; orgId] = s !! ["orgs"; orgId] ->
  seen_orgName E' orgId s' = seen_orgName E orgId s.
Proof.
  unfold seen_orgName, answered. intros Ha ->.
  destruct (rejects E' Get _), (rejects E Get _); try discriminate;
    reflexivity.
Qed.

(** Two member payloads with the same role differ in [addedAt] only. *)
Lemma member_doc_equiv inv inv' u fn ln iid t t' :
  Js.coalesce (inv' !! "role") (Some (VStr "member"))
    = Js.coalesce (inv !! "role") (Some (VStr "member")) ->
  delete "addedAt" (data_of (member_fields inv' u fn ln iid (VTime t')))
    = delete "addedAt" (data_of (member_fields inv u fn ln iid (VTime t))).
Proof.
  intros Hr. apply map_eq. intros k.
  destruct (decide (k = "addedAt")) as [->|Hk].
  - now rewrite !lookup_delete_eq.
  - rewrite !lookup_delete_ne, !data_of_lookup by congruence.
    unfold member_fields. rewrite Hr.
    destruct (coalesce_some (inv !! "role") (VStr "member")) as [v ->].
    cbn [assoc].
    destruct (String.eqb_spec "addedAt" k) as [<-|_]; [congruence|].
    reflexivity.
Qed.

(** Merging an index payload over an entry that already carries the same
    organisation, name and role changes [joinedAt] only. *)
Lemma index_doc_equiv inv inv' orgId name t t' (base : document) :
  Js.coalesce (inv' !! "role") (Some (VStr "member"))
    = Js.coalesce (inv !! "role") (Some (VStr "member")) ->
  delete "joinedAt"
    (data_of (index_fields inv' orgId name (VTime t'))
     ∪ (data_of (index_fields inv orgId name (VTime t)) ∪ base))
  = delete "joinedAt" (data_of (index_fields inv orgId name (VTime t)) ∪ base).
Proof.
  intros Hr. apply map_eq. intros k.
  destruct (decide (k = "joinedAt")) as [->|Hk].
  - now rewrite !lookup_delete_eq.
  - rewrite !lookup_delete_ne, !lookup_union, !data_of_lookup by congruence.
    unfold index_fields. rewrite Hr.
    destruct (coalesce_some (inv !! "role") (VStr "member")) as [v ->].
    cbn [assoc].
    destruct (String.eqb_spec "joinedAt" k) as [<-|_]; [congruence|].
    destruct (String.eqb "orgId" k), (String.eqb "orgName" k),
             (String.eqb "role" k), (base !! k); reflexivity.
Qed.

(** The store after a run that completed, read through the steps of [join]:
    [setOrg] touches only documents two segments deep. *)
Lemma run_Done_store E w token orgParam who :
  result (run E token orgParam who w) = Val Done ->
  exists u iid inv,
    let orgId := default EmptyString orgParam in
    let fn := fst (fallback_names u (names_seen E w (uid u))) in
    let ln := snd (fallback_names u (names_seen E w (uid u))) in
    let w1 := set_busy true (entry E token orgParam w) in
    let s := db (final (run E token orgParam who w)) in
    who = Some u /\ resolves E w token orgParam iid inv /\
    (forall p, length p = 4 ->
       s !! p = db (after_clear E orgId iid inv u fn ln w1 inv) !! p) /\
    (forall c x, c <> "users" -> s !! [c; x] = db w !! [c; x]) /\
    (forall x k, k <> "scope" ->
       s !! ["users"; x] ≫= (fun d => d !! k)
       = db w !! ["users"; x] ≫= (fun d => d !! k)).
Proof.
  intros HD.
  destruct (run_Done_inv _ _ _ _ _ HD)
    as (u & iid & inv & pre & old & w' & l & -> & Hres & Hp & Hm & Hn
        & Hold & Hs & Hpre & Hnav & Hrun).
  assert (old = inv) as ->.
  { destruct Hres as (? & _ & _ & _ & _ & Hd). congruence. }
  exists u, iid, inv. cbv zeta. rewrite Hrun. unfold final. simpl fst. simpl snd.
  apply scope_run_Val in Hs as (_ & _ & _ & Hframe & Htop & Hfld & _).
  assert (Hdb : forall p,
            db (set_busy false (if completedRef w' then w'
                                else set_completedRef true w')) !! p
            = db w' !! p)
    by (intros; now destruct (completedRef w')).
  split; [reflexivity|]. split; [assumption|]. split; [|split].
  - intros p Hp4. rewrite Hdb. apply Hframe. rewrite Hp4. discriminate.
  - intros c x Hc. rewrite Hdb, Htop by assumption.
    rewrite after_clear_other by discriminate. simpl. now rewrite db_entry.
  - intros x k Hk. rewrite Hdb, Hfld by assumption.
    rewrite after_clear_other by discriminate. simpl. now rewrite db_entry.
Qed.



(** * Around the invite page

    The rest of the development follows the invite link through the other
    pages of the front end, and looks closer at the runs of the invite
    page that fail.  It embeds [upsertEmailIndex] of
    [src/utils/emailIndex.ts], [useScopedRefs] of [src/scope/path.ts],
    [ScopeRedirectOnChange], the listener and the auto-pick effect of the
    [ScopeProvider], [handleAfterSignIn] of [src/pages/Login.tsx], the
    callback and [createClinic] of [src/pages/Onboarding.tsx], the list and
    [onCreateClinic] of [src/pages/MyClinics.tsx], and the actions of a
    manager in [ClinicMembersTab].

    Further conventions
    - A page that is mounted uses the flags of the world: the [saving] and
      [loading] flags of a page are [busy], its error text is [err].
    - An identifier that the SDK generates is an argument of the function
      that asks for it.
    - What a handler shows with [alert] is part of its result.
    - Where a page is visited after another one, the second starts in the
      world the first one left, or in any world with the same store when
      another person visits it. *)

(** ** Visitors who are not signed in, and reads that fail *)

(** X1.  A visitor who is not signed in and opens a link whose token exists
    is told to sign in: the token read is the only remote call, nothing is
    written or navigated, and both resume pointers hold the invite link
    (when [localStorage] denies access they are left as they were). *)
Theorem signed_out_visitor_is_parked E w token orgParam tokenData :
  token_found E w token orgParam tokenData ->
  let orgId := default EmptyString orgParam in
  let r := run E token orgParam None w in
  result r = Val SignInRequired /\
  halted w "Please sign in to accept the invitation." r /\
  List.filter is_remote (events r)
    = [ERead (tokenRef orgId (default EmptyString token)) true] /\
  (storage_denied E = false -> pointers_at (invitePath token orgId) (final r)) /\
  (storage_denied E = true -> localStorage (final r) = localStorage w).
Proof.
  intros Hf. cbv zeta. rewrite (run_signed_out _ _ _ _ _ Hf).
  destruct (stash_events_quiet E (invitePath token (default EmptyString orgParam)))
    as (Hsw & Hsr & Hsn & _).
  unfold halted, result, final, events. simpl.
  rewrite Hsw, Hsr, Hsn. repeat split.
  - apply db_entry.
  - unfold entry. now apply stashed_pointers.
  - unfold entry. now apply stashed_pointers.
  - unfold entry, stashed. now intros ->.
Qed.

Lemma signed_out_visitor_is_parked_witness :
  let r := run Scenario.quiet (Some "tok123") (Some "orgA") None
             Scenario.start in
  result r = Val SignInRequired /\
  pointers_at "/invite/tok123?org=orgA" (final r).
Proof.
  destruct (signed_out_visitor_is_parked Scenario.quiet Scenario.start
              (Some "tok123") (Some "orgA") {[ "inviteId" := VStr "inv1" ]})
    as (Hr & _ & _ & Hp & _).
  - repeat split; vm_compute; reflexivity.
  - split; [exact Hr|]. apply Hp. reflexivity.
Defined.

(** X2.  The token read sits outside every [try]: when it is rejected the
    error escapes [run()].  No message is set, the busy flag keeps the value
    it had (the page stays on its spinner after a fresh mount), and the
    resume pointers are neither written nor removed. *)
Theorem token_read_failure_escapes E w token orgParam who e :
  valid_link token orgParam ->
  rejects E Get (tokenRef (default EmptyString orgParam)
                          (default EmptyString token)) = Some e ->
  let r := run E token orgParam who w in
  result r = Exn e /\
  err (final r) = None /\ busy (final r) = busy w /\
  localStorage (final r) = localStorage w /\ db (final r) = db w /\
  events r = [ERead (tokenRef (default EmptyString orgParam)
                              (default EmptyString token)) false].
Proof.
  intros Hv Hr. cbv zeta. rewrite (run_token_unread _ _ _ _ _ _ Hv Hr).
  repeat split.
Qed.

Lemma token_read_failure_escapes_witness :
  let E := {| rejects := fun k _ => match k with
                                    | Get => Some "unavailable"
                                    | _ => None
                                    end;
              storage_denied := false; ignore_undefined := false;
              scope_user := Some "u1"; sdk_message := fun _ => "sdk" |} in
  let r := run E (Some "tok123") (Some "orgA") (Some Scenario.pat)
             Scenario.start in
  result r = Exn "unavailable" /\ err (final r) = None /\
  busy (final r) = true.
Proof.
  cbv zeta.
  destruct (token_read_failure_escapes
              {| rejects := fun k _ => match k with
                                       | Get => Some "unavailable"
                                       | _ => None
                                       end;
                 storage_denied := false; ignore_undefined := false;
                 scope_user := Some "u1"; sdk_message := fun _ => "sdk" |}
              Scenario.start (Some "tok123") (Some "orgA")
              (Some Scenario.pat) "unavailable")
    as (Hr & He & Hb & _).
  - split; reflexivity.
  - reflexivity.
  - split; [exact Hr|]. split; [exact He | exact Hb].
Defined.

(** ** Writes that are refused *)

(** The payload of the claim passes the validation of the SDK. *)
Definition claim_accepted (E : env) (inv : document) : Prop :=
  inv !! "createdBy" = None -> ignore_undefined E = true.

Lemma claim_accepted_valid E inv u fn ln now :
  claim_accepted E inv ->
  has_undefined (claim_fields inv u fn ln now) && negb (ignore_undefined E)
    = false.
Proof.
  intros Hc. rewrite claim_fields_undefined.
  destruct (inv !! "createdBy") eqn:Hcb; [reflexivity|].
  unfold claim_accepted in Hc. rewrite Hcb in Hc. now rewrite Hc.
Qed.

Lemma join_claim_refused E orgId iid inv u fn ln w e :
  claim_accepted E inv ->
  rejects E Update (inviteRef orgId iid) = Some e ->
  join E orgId (inviteRef orgId iid) (Some (VStr iid)) inv u fn ln w =
    (Exn e, w,
     [EWrite Update (inviteRef orgId iid) (claim_doc inv u fn ln w) false]).
Proof.
  intros Hc Hr. unfold join.
  unfold bind at 1, serverTimestamp at 1. unfold bind at 1.
  unfold updateDoc, validated.
  rewrite claim_accepted_valid by assumption. rewrite Hr. reflexivity.
Qed.

Lemma join_member_refused E orgId iid inv u fn ln w old e :
  claim_accepted E inv ->
  rejects E Update (inviteRef orgId iid) = None ->
  db w !! inviteRef orgId iid = Some old ->
  rejects E SetDoc (memberRef orgId (uid u)) = Some e ->
  join E orgId (inviteRef orgId iid) (Some (VStr iid)) inv u fn ln w =
    (Exn e, after_claim orgId iid inv u fn ln w old,
     [EWrite Update (inviteRef orgId iid) (claim_doc inv u fn ln w) true;
      EWrite SetDoc (memberRef orgId (uid u)) (member_doc iid inv u fn ln w)
        false]).
Proof.
  intros Hc Hr Hold Hm. unfold join.
  unfold bind at 1, serverTimestamp at 1. unfold bind at 1.
  unfold updateDoc at 1, validated.
  rewrite claim_accepted_valid by assumption. rewrite Hr, Hold.
  unfold bind at 1, serverTimestamp at 1. unfold bind at 1.
  unfold setDoc at 1, validated.
  rewrite member_fields_defined. simpl.
  unfold memberRef in Hm. rewrite Hm. reflexivity.
Qed.

Lemma claim_status_field inv u fn ln now :
  data_of (claim_fields inv u fn ln now) !! "status"
    = Js.coalesce (inv !! "status") (Some (VStr "pending")).
Proof.
  rewrite data_of_lookup. unfold claim_fields. simpl.
  destruct (coalesce_some (inv !! "status") (VStr "pending")) as [v1 ->].
  reflexivity.
Qed.

Lemma claim_claimedBy_field inv u fn ln now :
  data_of (claim_fields inv u fn ln now) !! "claimedBy" = Some (VStr (uid u)).
Proof.
  rewrite data_of_lookup. unfold claim_fields. simpl.
  destruct (coalesce_some (inv !! "status") (VStr "pending")) as [v1 ->].
  destruct (coalesce_some (inv !! "role") (VStr "member")) as [v2 ->].
  destruct (coalesce_some (inv !! "email") VNull) as [v3 ->].
  destruct (coalesce_some (inv !! "phone") VNull) as [v4 ->].
  simpl. destruct (inv !! "createdBy"); reflexivity.
Qed.

(** The claim writes back the status it read, so a pending invite stays
    pending. *)
Lemma claim_keeps_pending inv u fn ln now (old : document) :
  pending inv = true ->
  pending (data_of (claim_fields inv u fn ln now) ∪ old) = true.
Proof.
  unfold pending. intros Hp.
  destruct (coalesce_some (inv !! "status") (VStr "pending")) as [v Hv].
  erewrite lookup_union_Some_l by (rewrite claim_status_field; exact Hv).
  destruct (inv !! "status") as [[]|]; simpl in *;
    injection Hv as <-; try reflexivity; exact Hp.
Qed.

Definition default_failure : string :=
  "Could not process invitation. Please try again.".





(** ** Names taken from the display name *)

(** [(u.displayName || "").trim().split(" ").filter(Boolean)] *)
Definition display_words (u : user) : list string :=
  List.filter JsString.nonempty
    (JsString.split " " (JsString.trim (default EmptyString (displayName u)))).

Lemma fallback_last_name u names :
  JsString.truthy (snd names) = false ->
  length (display_words u) <= 1 ->
  JsString.truthy (snd (fallback_names u names)) = false.
Proof.
  intros Hl Hw. unfold fallback_names. rewrite Hl, orb_true_r. simpl.
  fold (display_words u).
  assert (Ht : List.tl (display_words u) = []).
  { destruct (display_words u) as [|a [|b t]]; simpl in *; [reflexivity..|lia]. }
  rewrite Ht. simpl. unfold JsString.or_else. now rewrite Hl.
Qed.

(** X5.  A display name of one word gives a first name only.  A caller
    whose profile has no last name and whose display name is absent or has
    a single word is therefore sent to onboarding, and nothing is written:
    the display name alone cannot complete such a profile. *)
Theorem one_word_display_name_detours E w token orgParam u iid inv :
  resolves E w token orgParam iid inv ->
  pending inv = true ->
  email_mismatch inv u = false ->
  JsString.truthy (snd (names_seen E w (uid u))) = false ->
  length (display_words u) <= 1 ->
  let r := run E token orgParam (Some u) w in
  result r = Val DetourOnboarding /\
  writes (events r) = [] /\
  List.filter is_navigate (events r) = [ENavigate "/onboarding" true None].
Proof.
  intros Hres Hp Hm Hl Hw. cbv zeta.
  assert (Hn : names_resolved E w u = false).
  { unfold names_resolved. rewrite fallback_last_name by assumption.
    apply andb_false_r. }
  rewrite (run_guard_passed _ _ _ _ _ _ _ Hres Hp Hm), Hn.
  destruct (stash_events_quiet E (invitePath token (default EmptyString orgParam)))
    as (Hsw & _ & Hsn & _).
  unfold result, events. simpl. repeat split.
  - rewrite !writes_app, Hsw. simpl. now destruct (storage_denied E).
  - rewrite !List.filter_app, Hsn. simpl. now destruct (storage_denied E).
Qed.

Lemma one_word_display_name_detours_witness :
  let u := {| uid := "u4"; email := Some "pat@example.com";
              displayName := Some "  Cher " |} in
  let r := run Scenario.quiet (Some "tok123") (Some "orgA") (Some u)
             Scenario.start in
  result r = Val DetourOnboarding /\ writes (events r) = [].
Proof.
  cbv zeta.
  destruct (one_word_display_name_detours Scenario.quiet Scenario.start
              (Some "tok123") (Some "orgA")
              {| uid := "u4"; email := Some "pat@example.com";
                 displayName := Some "  Cher " |}
              "inv1" (Scenario.invite "pending"))
    as (Hr & Hw & _).
  - exists {[ "inviteId" := VStr "inv1" ]}.
    repeat split; vm_compute; reflexivity.
  - vm_compute; reflexivity.
  - vm_compute; reflexivity.
  - vm_compute; reflexivity.
  - vm_compute. lia.
  - split; [exact Hr | exact Hw].
Defined.

(** ** The scope provider *)

(** [orgName ?? null] *)
Definition scope_name (orgName : option value) : value :=
  default VNull (Js.coalesce orgName (Some VNull)).

(** The snapshot listener on [users/{uid}] of the [ScopeProvider]: the scope
    it selects for the profile document [d] ([None] when there is none). *)
Definition persisted_scope (d : option document) : option (string * value) :=
  match d ≫= (fun p => p !! "scope") with
  | Some (VScope orgId orgName) =>
      if JsString.nonempty orgId then Some (orgId, scope_name (Some orgName))
      else None
  | _ => None
  end.

Lemma setOrg_scope_name E orgId orgName :
  setOrg E orgId orgName = setOrg E orgId (Some (scope_name orgName)).
Proof.
  unfold setOrg, scope_name. destruct orgName as [[]|]; reflexivity.
Qed.

Lemma setOrg_scope_run E orgId orgName w :
  JsString.nonempty orgId = true ->
  scope_run E orgId (scope_name orgName) w (setOrg E orgId orgName w).
Proof. intros Ho. rewrite setOrg_scope_name. now apply setOrg_run. Qed.

Lemma setOrg_missing E orgId orgName w :
  JsString.nonempty orgId = false ->
  setOrg E orgId orgName w = (Exn "setOrg: missing orgId", w, []).
Proof. unfold setOrg. intros ->. reflexivity. Qed.

(** What [setOrg] leaves alone, whatever its result. *)
Lemma scope_run_frame E orgId name w0 r w' l :
  scope_run E orgId name w0 (r, w', l) ->
  localStorage w' = localStorage w0 /\ busy w' = busy w0 /\
  err w' = err w0 /\ completedRef w' = completedRef w0 /\
  (forall p, Some p <> (scope_user E ≫= fun su => Some ["users"; su]) ->
             db w' !! p = db w0 !! p) /\
  (forall su k, scope_user E = Some su -> k <> "scope" ->
     db w' !! ["users"; su] ≫= (fun d => d !! k)
     = db w0 !! ["users"; su] ≫= (fun d => d !! k)).
Proof.
  intros H.
  inversion H as [Hu | su old Hu Hr Hd | su Hu Ha Hr | su e Hu Ha Hr];
    subst; simpl; repeat (split; [reflexivity|]).
  - split; reflexivity.
  - rewrite Hu. simpl. split.
    + intros p Hp. apply lookup_insert_ne. congruence.
    + intros su' k [= <-] Hk. rewrite lookup_insert_eq, Hd. simpl.
      rewrite lookup_union_r; [reflexivity|].
      rewrite scope_doc_lookup. destruct (String.eqb_spec "scope" k); congruence.
  - rewrite Hu. simpl. split.
    + intros p Hp. apply lookup_insert_ne. congruence.
    + intros su' k [= <-] Hk. rewrite lookup_insert_eq. simpl.
      rewrite lookup_union_r.
      * destruct (db w0 !! ["users"; su]); reflexivity.
      * rewrite scope_doc_lookup.
        destruct (String.eqb_spec "scope" k); congruence.
  - split; reflexivity.
Qed.

(** X6.  [setOrg] changes nothing but the selection: in the remote store
    only the profile document of the signed-in user can change, and of
    that document only the field [scope]; [localStorage] and the flags of
    the page are not touched.  This holds whether [setOrg] returns or
    throws. *)
Theorem setOrg_touches_only_the_scope E orgId orgName w :
  let r := setOrg E orgId orgName w in
  localStorage (final r) = localStorage w /\
  busy (final r) = busy w /\ err (final r) = err w /\
  completedRef (final r) = completedRef w /\
  (forall p, Some p <> (scope_user E ≫= fun su => Some ["users"; su]) ->
             db (final r) !! p = db w !! p) /\
  (forall su k, scope_user E = Some su -> k <> "scope" ->
     db (final r) !! ["users"; su] ≫= (fun d => d !! k)
     = db w !! ["users"; su] ≫= (fun d => d !! k)).
Proof.
  cbv zeta. destruct (JsString.nonempty orgId) eqn:Ho.
  - pose proof (setOrg_scope_run E orgId orgName w Ho) as R.
    destruct (setOrg E orgId orgName w) as [[r w'] l].
    exact (scope_run_frame _ _ _ _ _ _ _ R).
  - rewrite setOrg_missing by assumption. repeat split.
Qed.

(** X7.  When [setOrg] returns for a signed-in user, the profile document
    carries the selection, and the snapshot listener of the provider reads
    back from it exactly the scope that [setOrg] selected locally. *)
Theorem setOrg_round_trip E orgId orgName w su :
  scope_user E = Some su ->
  result (setOrg E orgId orgName w) = Val tt ->
  let r := setOrg E orgId orgName w in
  JsString.nonempty orgId = true /\
  scope (final r) = Some (orgId, scope_name orgName) /\
  persisted_scope (db (final r) !! ["users"; su]) = scope (final r).
Proof.
  intros Hu Hr. cbv zeta.
  destruct (JsString.nonempty orgId) eqn:Ho.
  2:{ rewrite setOrg_missing in Hr by assumption. discriminate. }
  split; [reflexivity|].
  pose proof (setOrg_scope_run E orgId orgName w Ho) as R.
  destruct (setOrg E orgId orgName w) as [[r w'] l].
  unfold result in Hr. simpl in Hr. subst r.
  apply scope_run_Val in R as (Hs & _ & _ & _ & _ & _ & Hp).
  unfold final. simpl. split; [exact Hs|].
  unfold persisted_scope. rewrite (Hp su Hu), Ho, Hs.
  unfold scope_name. destruct orgName as [[]|]; reflexivity.
Qed.

Lemma setOrg_round_trip_witness :
  let r := setOrg Scenario.quiet "orgA" (Some (VStr "Alpha")) Scenario.start in
  scope (final r) = Some ("orgA", VStr "Alpha") /\
  persisted_scope (db (final r) !! ["users"; "u1"]) = Some ("orgA", VStr "Alpha").
Proof.
  destruct (setOrg_round_trip Scenario.quiet "orgA" (Some (VStr "Alpha"))
              Scenario.start "u1") as (_ & Hs & Hp).
  - reflexivity.
  - vm_compute. reflexivity.
  - split; [exact Hs|]. rewrite Hp. exact Hs.
Defined.

(** X8.  [setOrg] throws in two cases only.  Without an organisation it
    throws before anything happens.  Otherwise the local selection is made
    first, and when the update of the profile and then the merge are both
    refused, the error of the merge is the one that is thrown: the store
    is unchanged while the local scope has already switched. *)
Theorem setOrg_failure E orgId orgName w e :
  result (setOrg E orgId orgName w) = Exn e ->
  let r := setOrg E orgId orgName w in
  db (final r) = db w /\
  ((JsString.nonempty orgId = false /\ e = "setOrg: missing orgId" /\
    final r = w /\ events r = []) \/
   (JsString.nonempty orgId = true /\
    scope (final r) = Some (orgId, scope_name orgName) /\
    exists su, scope_user E = Some su /\
      rejects E SetMerge ["users"; su] = Some e /\
      writes (events r) =
        [(Update, ["users"; su], false); (SetMerge, ["users"; su], false)])).
Proof.
  intros Hr. cbv zeta. destruct (JsString.nonempty orgId) eqn:Ho.
  - pose proof (setOrg_scope_run E orgId orgName w Ho) as R.
    destruct (setOrg E orgId orgName w) as [[r w'] l].
    unfold result in Hr. simpl in Hr. subst r.
    inversion R as [ | | | su e' Hu Ha Hm]; subst.
    unfold final, events. simpl. split; [reflexivity|]. right.
    repeat split. exists su. repeat split; assumption.
  - rewrite setOrg_missing in * by assumption.
    injection Hr as <-. split; [reflexivity|]. left. repeat split.
Qed.

Lemma setOrg_failure_witness :
  let E := {| rejects := fun _ _ => Some "offline";
              storage_denied := false; ignore_undefined := false;
              scope_user := Some "u1"; sdk_message := fun _ => "sdk" |} in
  let r := setOrg E "orgA" None Scenario.start in
  db (final r) = db Scenario.start /\
  scope (final r) = Some ("orgA", VNull).
Proof.
  cbv zeta.
  destruct (setOrg_failure
              {| rejects := fun _ _ => Some "offline";
                 storage_denied := false; ignore_undefined := false;
                 scope_user := Some "u1"; sdk_message := fun _ => "sdk" |}
              "orgA" None Scenario.start "offline")
    as (Hd & [(Ho & _) | (_ & Hs & _)]).
  - vm_compute. reflexivity.
  - discriminate.
  - split; [exact Hd | exact Hs].
Defined.

(** ** References built from strings

    [doc(db, ...parts)] and [collection(db, ...parts)] of the SDK take
    their parts apart at every ["/"]: a part may bring several segments or
    none, and the reference is refused when the number of segments has the
    wrong parity. *)

(** [s.includes(sub)] *)
Fixpoint includes (sub s : string) : bool :=
  String.prefix sub s ||
  match s with
  | EmptyString => false
  | String _ r => includes sub r
  end.

Fixpoint has_char (c : ascii) (s : string) : bool :=
  match s with
  | EmptyString => false
  | String c' r => Ascii.eqb c' c || has_char c r
  end.

(** An identifier that is one segment: not empty, no ["/"]. *)
Definition plain (s : string) : bool :=
  JsString.nonempty s && negb (has_char "/" s).

Module Firestore.

(** [ResourcePath.fromString(...parts)]; [None] where it throws. *)
Definition fromString (parts : list string) : option path :=
  if existsb (includes "//") parts then None
  else Some (concat (map (fun s => List.filter JsString.nonempty
                                     (JsString.split "/" s)) parts)).

Section References.

Context (E : env).

Definition doc (parts : list string) : M path :=
  match fromString parts with
  | Some p =>
      if Nat.even (length p) then ret p
      else throw (sdk_message E InvalidSegment)
  | None => throw (sdk_message E InvalidSegment)
  end.

Definition collection (parts : list string) : M path :=
  match fromString parts with
  | Some p =>
      if Nat.odd (length p) then ret p
      else throw (sdk_message E InvalidSegment)
  | None => throw (sdk_message E InvalidSegment)
  end.

End References.

End Firestore.

Lemma split_no_sep sep s :
  has_char sep s = false -> JsString.split sep s = [s].
Proof.
  induction s as [|c r IH]; simpl; [reflexivity|].
  intros H. apply orb_false_iff in H as [Hc Hr].
  rewrite Hc, (IH Hr). reflexivity.
Qed.

Lemma includes_no_char c s :
  has_char c s = false -> includes (String c (String c EmptyString)) s = false.
Proof.
  induction s as [|c' r IH]; simpl; [reflexivity|].
  intros H. apply orb_false_iff in H as [Hc Hr].
  rewrite (IH Hr), orb_false_r.
  destruct (ascii_dec c c') as [->|Hne]; [|reflexivity].
  now rewrite Ascii.eqb_refl in Hc.
Qed.

Lemma fromString_plain (parts : list string) :
  forallb plain parts = true -> Firestore.fromString parts = Some parts.
Proof.
  unfold Firestore.fromString. intros H.
  assert (He : existsb (includes "//") parts = false).
  { induction parts as [|s parts IH]; simpl in *; [reflexivity|].
    apply andb_true_iff in H as [Hs Hp]. rewrite (IH Hp), orb_false_r.
    apply andb_true_iff in Hs as [_ Hs]. apply negb_true_iff in Hs.
    now apply includes_no_char. }
  rewrite He. f_equal.
  induction parts as [|s parts IH]; simpl in *; [reflexivity|].
  apply andb_true_iff in H as [Hs Hp].
  rewrite IH by (assumption || (clear -He; simpl in He;
                                now apply orb_false_iff in He as [_ ?])).
  apply andb_true_iff in Hs as [Hn Hs]. apply negb_true_iff in Hs.
  rewrite split_no_sep by assumption. simpl. now rewrite Hn.
Qed.

Lemma doc_plain E (parts : list string) :
  forallb plain parts = true -> Nat.even (length parts) = true ->
  Firestore.doc E parts = ret parts.
Proof.
  intros Hp He. unfold Firestore.doc. now rewrite fromString_plain, He.
Qed.

(** ** [upsertEmailIndex] of [src/utils/emailIndex.ts] *)

(** [v || ""] on a field value. *)
Definition or_empty (o : option value) : value :=
  if Js.truthy o then default (VStr EmptyString) o else VStr EmptyString.

Module EmailIndex.

(** The argument of [upsertEmailIndex]; the names are what the callers read
    from a profile document, [None] when they pass none. *)
Record account := {
  uid : string;
  email : option string;
  firstName : option value;
  lastName : option value;
}.

(** [user.email.trim().toLowerCase()] *)
Definition key (address : string) : string :=
  JsString.toLowerCase (JsString.trim address).

Definition entry_fields (u : account) (now : value) : fields :=
  [ ("userId", Some (VStr (uid u)));
    ("firstName", Some (or_empty (firstName u)));
    ("lastName", Some (or_empty (lastName u)));
    ("updatedAt", Some now) ].

Definition upsertEmailIndex (E : env) (u : account) : M unit :=
  if negb (JsString.truthy (email u)) then ret tt
  else
    ref <- Firestore.doc E ["emailIndex"; key (default EmptyString (email u))];;
    now <- serverTimestamp;;
    setDoc E ref (entry_fields u now) true.

End EmailIndex.

(** The index entry of an address. *)
Definition emailRef (address : string) : path :=
  ["emailIndex"; EmailIndex.key address].

Lemma upsertEmailIndex_plain E u address w :
  EmailIndex.email u = Some address ->
  plain (EmailIndex.key address) = true ->
  EmailIndex.upsertEmailIndex E u w =
    setDoc E (emailRef address)
      (EmailIndex.entry_fields u (VTime (clock w))) true w.
Proof.
  intros He Hp. unfold EmailIndex.upsertEmailIndex. rewrite He. simpl.
  assert (Hn : JsString.nonempty address = true).
  { destruct address; [discriminate Hp | reflexivity]. }
  rewrite Hn. simpl. rewrite doc_plain by (simpl; now rewrite ?Hp).
  unfold bind, ret, serverTimestamp, emailRef.
  destruct (setDoc _ _ _ _ _) as [[r w'] l]. reflexivity.
Qed.

Lemma entry_fields_lookup u now k :
  data_of (EmailIndex.entry_fields u now) !! k =
    if String.eqb "userId" k then Some (VStr (EmailIndex.uid u))
    else if String.eqb "firstName" k then Some (or_empty (EmailIndex.firstName u))
    else if String.eqb "lastName" k then Some (or_empty (EmailIndex.lastName u))
    else if String.eqb "updatedAt" k then Some now
    else None.
Proof. rewrite data_of_lookup. reflexivity. Qed.

(** The entry that [u] leaves in the index, over the entry [old] that was
    there. *)
Definition index_entry (u : EmailIndex.account) (t : nat)
    (old : option document) : document :=
  data_of (EmailIndex.entry_fields u (VTime t)) ∪ default ∅ old.

Lemma upsertEmailIndex_done E u address w :
  EmailIndex.email u = Some address ->
  plain (EmailIndex.key address) = true ->
  rejects E SetMerge (emailRef address) = None ->
  EmailIndex.upsertEmailIndex E u w =
    (Val tt,
     set_db (insert (emailRef address)
               (index_entry u (clock w) (db w !! emailRef address))) w,
     [EWrite SetMerge (emailRef address)
        (data_of (EmailIndex.entry_fields u (VTime (clock w)))) true]).
Proof.
  intros He Hp Hr. rewrite (upsertEmailIndex_plain _ _ address) by assumption.
  unfold setDoc, validated. simpl. rewrite Hr. reflexivity.
Qed.





(** X11.  Without a usable address nothing reaches the index: a user whose
    address is absent or empty is skipped silently, and an address made of
    blanks only makes the call throw before any write. *)
Theorem upsertEmailIndex_needs_an_address E u w :
  JsString.trim (default EmptyString (EmailIndex.email u)) = EmptyString ->
  let r := EmailIndex.upsertEmailIndex E u w in
  events r = [] /\ final r = w /\
  result r = if JsString.truthy (EmailIndex.email u)
             then Exn (sdk_message E InvalidSegment) else Val tt.
Proof.
  intros Ht. cbv zeta. unfold EmailIndex.upsertEmailIndex.
  destruct (JsString.truthy (EmailIndex.email u)); simpl; [|repeat split].
  unfold EmailIndex.key. rewrite Ht. repeat split.
Qed.

Lemma upsertEmailIndex_needs_an_address_witness :
  let u := {| EmailIndex.uid := "u1"; EmailIndex.email := Some "   ";
              EmailIndex.firstName := None; EmailIndex.lastName := None |} in
  let r := EmailIndex.upsertEmailIndex Scenario.quiet u Scenario.start in
  events r = [] /\ result r = Exn "sdk".
Proof.
  cbv zeta.
  destruct (upsertEmailIndex_needs_an_address Scenario.quiet
              {| EmailIndex.uid := "u1"; EmailIndex.email := Some "   ";
                 EmailIndex.firstName := None; EmailIndex.lastName := None |}
              Scenario.start)
    as (He & _ & Hr).
  - reflexivity.
  - split; [exact He | exact Hr].
Defined.

(** ** [useScopedRefs] of [src/scope/path.ts] *)

Module ScopedRefs.

Definition missing_org : string :=
  "Scoped path requires an orgId, but none is selected. Ensure the user picks a clinic first.".

(** [ensureOrg()], on the scope the provider holds. *)
Definition ensureOrg : M string := fun w =>
  match scope w with
  | Some (orgId, _) =>
      if JsString.nonempty orgId then (Val orgId, w, [])
      else (Exn missing_org, w, [])
  | None => (Exn missing_org, w, [])
  end.

Section Refs.

Context (E : env).

Definition collectionScoped (sub : string) : M path :=
  orgId <- ensureOrg;; Firestore.collection E ["orgs"; orgId; sub].

Definition docScoped (sub id : string) : M path :=
  orgId <- ensureOrg;; Firestore.doc E ["orgs"; orgId; sub; id].

Definition rootDoc : M path :=
  orgId <- ensureOrg;; Firestore.doc E ["orgs"; orgId].

End Refs.

End ScopedRefs.

(** The organisation the provider has selected, if any. *)
Definition selected_org (w : world) : option string :=
  match scope w with
  | Some (orgId, _) => if JsString.nonempty orgId then Some orgId else None
  | None => None
  end.

Lemma fromString_cons_plain s parts p :
  plain s = true ->
  Firestore.fromString (s :: parts) = Some p ->
  exists rest, p = s :: rest /\ Firestore.fromString parts = Some rest.
Proof.
  unfold Firestore.fromString. simpl. intros Hs.
  apply andb_true_iff in Hs as [Hn Hs]. apply negb_true_iff in Hs.
  rewrite (includes_no_char _ _ Hs), (split_no_sep _ _ Hs). simpl. rewrite Hn.
  destruct (existsb _ parts); [discriminate|]. intros [= <-].
  eexists. split; reflexivity.
Qed.

Lemma scoped_prefix orgId parts p :
  plain orgId = true ->
  Firestore.fromString ("orgs" :: orgId :: parts) = Some p ->
  take 2 p = ["orgs"; orgId].
Proof.
  intros Ho H.
  apply fromString_cons_plain in H as (r1 & -> & H); [|reflexivity].
  apply fromString_cons_plain in H as (r2 & -> & H); [|assumption].
  reflexivity.
Qed.

Lemma doc_Val E parts p w w' l :
  Firestore.doc E parts w = (Val p, w', l) ->
  Firestore.fromString parts = Some p /\ w' = w /\ l = [].
Proof.
  unfold Firestore.doc, ret, throw.
  destruct (Firestore.fromString parts) as [q|]; [|discriminate].
  destruct (Nat.even (length q)); [|discriminate].
  now intros [= <- <- <-].
Qed.

Lemma collection_Val E parts p w w' l :
  Firestore.collection E parts w = (Val p, w', l) ->
  Firestore.fromString parts = Some p /\ w' = w /\ l = [].
Proof.
  unfold Firestore.collection, ret, throw.
  destruct (Firestore.fromString parts) as [q|]; [|discriminate].
  destruct (Nat.odd (length q)); [|discriminate].
  now intros [= <- <- <-].
Qed.

(** The three helpers, as one family. *)
Inductive scoped_ref :=
| CollectionScoped (sub : string)
| DocScoped (sub id : string)
| RootDoc.

Definition scoped (E : env) (h : scoped_ref) : M path :=
  match h with
  | CollectionScoped sub => ScopedRefs.collectionScoped E sub
  | DocScoped sub id => ScopedRefs.docScoped E sub id
  | RootDoc => ScopedRefs.rootDoc E
  end.

(** X12.  The scoped helpers never leave the selected organisation.  With
    no organisation selected each of them throws the same error; with one
    selected, a reference that is returned lies under [orgs/{orgId}],
    whatever the sub-collection and the identifier are.  They change
    nothing and call nothing. *)
Theorem scoped_refs_stay_in_the_org E h w :
  let r := scoped E h w in
  final r = w /\ events r = [] /\
  match selected_org w with
  | None => result r = Exn ScopedRefs.missing_org
  | Some orgId =>
      plain orgId = true ->
      forall p, result r = Val p -> take 2 p = ["orgs"; orgId]
  end.
Proof.
  cbv zeta. unfold selected_org.
  assert (Hf : forall parts,
             final (Firestore.doc E parts w) = w /\
             events (Firestore.doc E parts w) = [] /\
             final (Firestore.collection E parts w) = w /\
             events (Firestore.collection E parts w) = []).
  { intros parts. unfold Firestore.doc, Firestore.collection.
    destruct (Firestore.fromString parts) as [q|]; [|repeat split].
    destruct (Nat.even (length q)), (Nat.odd (length q)); repeat split. }
  destruct h as [sub | sub id | ];
    unfold scoped, ScopedRefs.collectionScoped, ScopedRefs.docScoped,
      ScopedRefs.rootDoc, bind, ScopedRefs.ensureOrg;
    destruct (scope w) as [[orgId name]|]; try (repeat split; fail);
    destruct (JsString.nonempty orgId); try (repeat split; fail).
  - destruct (Hf ["orgs"; orgId; sub]) as (_ & _ & H1 & H2).
    destruct (Firestore.collection E _ w) as [[r w'] l] eqn:Hc.
    unfold final, events, result in *. simpl in *. subst.
    repeat split. intros Ho p ->.
    apply collection_Val in Hc as (Hc & _). now apply scoped_prefix in Hc.
  - destruct (Hf ["orgs"; orgId; sub; id]) as (H1 & H2 & _).
    destruct (Firestore.doc E _ w) as [[r w'] l] eqn:Hc.
    unfold final, events, result in *. simpl in *. subst.
    repeat split. intros Ho p ->.
    apply doc_Val in Hc as (Hc & _). now apply scoped_prefix in Hc.
  - destruct (Hf ["orgs"; orgId]) as (H1 & H2 & _).
    destruct (Firestore.doc E _ w) as [[r w'] l] eqn:Hc.
    unfold final, events, result in *. simpl in *. subst.
    repeat split. intros Ho p ->.
    apply doc_Val in Hc as (Hc & _). now apply scoped_prefix in Hc.
Qed.

(** An identifier with a ["/"] splits into segments, so a reference built
    from it need not lie under the organisation it was asked for. *)
Example docScoped_splits_identifiers :
  let w := set_scope (Some ("orgA", VNull)) Scenario.start in
  result (ScopedRefs.docScoped Scenario.quiet "clients" "c1/notes/n1" w)
    = Val ["orgs"; "orgA"; "clients"; "c1"; "notes"; "n1"] /\
  result (ScopedRefs.docScoped Scenario.quiet "clients" "" w) = Exn "sdk".
Proof. split; reflexivity. Qed.

(** *** What indexing an address can touch *)

(** From [w] to [w'] nothing changed but entries of [emailIndex]. *)
Definition index_only (w w' : world) (l : list event) : Prop :=
  localStorage w' = localStorage w /\ busy w' = busy w /\ err w' = err w /\
  completedRef w' = completedRef w /\ scope w' = scope w /\
  (forall p, head p <> Some "emailIndex" -> db w' !! p = db w !! p) /\
  List.filter is_navigate l = [] /\
  Forall (fun x => head (snd (fst x)) = Some "emailIndex") (writes l).

Lemma upsertEmailIndex_index_only E u w :
  exists w' l,
    swallow (EmailIndex.upsertEmailIndex E u) w = (Val tt, w', l) /\
    index_only w w' l.
Proof.
  unfold swallow, try_catch, EmailIndex.upsertEmailIndex.
  destruct (JsString.truthy (EmailIndex.email u)); simpl.
  2:{ exists w, []. split; [reflexivity|]. repeat split; constructor. }
  unfold bind at 1, Firestore.doc.
  destruct (Firestore.fromString _) as [p|] eqn:Hp.
  2:{ exists w, []. split; [reflexivity|]. repeat split; constructor. }
  apply fromString_cons_plain in Hp as (rest & -> & _); [|reflexivity].
  destruct (Nat.even _).
  2:{ exists w, []. split; [reflexivity|]. repeat split; constructor. }
  unfold ret, bind, serverTimestamp.
  pose proof (setDoc_run E ("emailIndex" :: rest)
                (EmailIndex.entry_fields u (VTime (clock w))) true w) as R.
  destruct (setDoc _ _ _ _ _) as [[r w'] l].
  inversion R; subst; simpl.
  - eexists _, _. split; [reflexivity|]. repeat split; constructor.
  - eexists _, _. split; [reflexivity|]. repeat split; repeat constructor.
  - eexists _, _. split; [reflexivity|]. repeat split; repeat constructor.
    intros p Hp. simpl. apply lookup_insert_ne. intros <-. now apply Hp.
Qed.

(** ** [ScopeRedirectOnChange] of [src/scope/ScopeRedirectOnChange.tsx] *)

(** One run of the effect.  [prev] is [prev.current] and [orgId] is
    [scope.orgId]; the result says whether the effect navigated to ["/"],
    and gives the new [prev.current]. *)
Definition redirect_effect (prev : string) (orgId : option string)
  : bool * string :=
  let sig := default EmptyString orgId in
  (JsString.nonempty prev && negb (String.eqb prev sig), sig).

(** The runs of the effect over the successive values of [scope.orgId],
    from the mount on. *)
Fixpoint redirect_effects (prev : string) (orgIds : list (option string))
  : list bool :=
  match orgIds with
  | [] => []
  | orgId :: rest =>
      fst (redirect_effect prev orgId)
      :: redirect_effects (snd (redirect_effect prev orgId)) rest
  end.

Definition mounted : string := EmptyString.   (* [useRef<string>("")] *)

Lemma redirect_effects_lookup prev (orgIds : list (option string)) i :
  redirect_effects prev orgIds !! i = Some true <->
  (i = 0 /\ exists b, orgIds !! 0 = Some b /\
     prev <> EmptyString /\ prev <> default EmptyString b) \/
  (exists j a b, i = S j /\ orgIds !! j = Some a /\ orgIds !! i = Some b /\
     default EmptyString a <> EmptyString /\
     default EmptyString a <> default EmptyString b).
Proof.
  revert prev i. induction orgIds as [|o rest IH]; intros prev i.
  - simpl. split; [discriminate|].
    intros [(_ & b & H & _) | (j & a & b & _ & H & _)]; discriminate.
  - destruct i as [|i]; simpl.
    + split.
      * intros [= H]. left. split; [reflexivity|]. exists o.
        apply andb_true_iff in H as [Hn Hd]. apply negb_true_iff in Hd.
        split; [reflexivity|]. split.
        -- intros ->. discriminate.
        -- intros ->. now rewrite String.eqb_refl in Hd.
      * intros [(_ & b & [= <-] & Hn & Hd) | (j & a & b & [=] & _)].
        f_equal. apply andb_true_iff. split.
        -- destruct prev; [contradiction | reflexivity].
        -- apply negb_true_iff. now apply String.eqb_neq.
    + rewrite IH. split.
      * intros [(-> & b & Hb & Hn & Hd) | (j & a & b & -> & Ha & Hb & Hn & Hd)];
          right.
        -- exists 0, o, b. repeat split; assumption.
        -- exists (S j), a, b. repeat split; assumption.
      * intros [(H & _) | (j & a & b & [= ->] & Ha & Hb & Hn & Hd)];
          [discriminate|].
        destruct j as [|j].
        -- left. split; [reflexivity|]. simpl in Ha. injection Ha as <-.
           exists b. repeat split; assumption.
        -- right. exists j, a, b. repeat split; assumption.
Qed.

(** X13.  The effect navigates home exactly when the organisation of the
    run before was a real one and differs from the present one.  So it
    never navigates at the mount, nor when the first organisation is
    selected; it does when the organisation is switched, and when the
    selection is dropped. *)
Theorem redirect_exactly_on_a_change (orgIds : list (option string)) (i : nat) :
  redirect_effects mounted orgIds !! i = Some true <->
  exists j a b, i = S j /\ orgIds !! j = Some a /\ orgIds !! i = Some b /\
    default EmptyString a <> EmptyString /\
    default EmptyString a <> default EmptyString b.
Proof.
  rewrite redirect_effects_lookup. split.
  - intros [(_ & b & _ & Hn & _) | H]; [now destruct Hn | exact H].
  - intros H. right. exact H.
Qed.

Example redirect_session :
  redirect_effects mounted [None; Some "orgA"; Some "orgA"; Some "orgB"; None; Some "orgB"]
    = [false; false; false; true; true; false].
Proof. reflexivity. Qed.

(** ** [Login] of [src/pages/Login.tsx]: after the sign-in *)

Definition LOGIN_NEXT_KEY : string := "loginNext".

Section Login.

Context (E : env).

(** [localStorage.getItem(key)] *)
Definition getItem (key : string) : M (option string) := fun w =>
  if storage_denied E then (Exn EmptyString, w, [])
  else (Val (localStorage w !! key), w, []).

(** [fromUrl] is [sp.get("next")]. *)
Definition stashNextForOnboarding (fromUrl : option string) : M unit :=
  fromLoginKey <- getItem LOGIN_NEXT_KEY;;
  fromInvite <- getItem PENDING_INVITE_KEY;;
  let next :=
    JsString.or_else
      (JsString.or_else (JsString.or_else fromUrl fromLoginKey) fromInvite)
      None in
  if JsString.truthy next then
    setItem E AFTER_ONBOARDING_NEXT (default EmptyString next);;
    removeItem E LOGIN_NEXT_KEY;;
    removeItem E PENDING_INVITE_KEY
  else ret tt.

(** The minimal profile of a new user; [providerId] is
    [user.providerData?.[0]?.providerId]. *)
Definition new_profile_fields (u : user) (providerId : option string)
    (now : value) : fields :=
  [ ("uid", Some (VStr (uid u)));
    ("email", Some (VStr (default EmptyString (email u))));
    ("hasCompletedOnboarding", Some (VBool false));
    ("authProvider",
     Some (VStr (if JsString.truthy providerId
                 then default EmptyString providerId else "google.com")));
    ("createdAt", Some now);
    ("updatedAt", Some now) ].

(** The two ways [handleAfterSignIn] ends. *)

Definition to_onboarding (fromUrl : option string) : M unit :=
  stashNextForOnboarding fromUrl;;
  navigate "/onboarding" true None.

Definition to_next (fromUrl : option string) : M unit :=
  next <- (if JsString.truthy fromUrl then ret fromUrl
           else
             fromLoginKey <- getItem LOGIN_NEXT_KEY;;
             if JsString.truthy fromLoginKey then ret fromLoginKey
             else getItem PENDING_INVITE_KEY);;
  if JsString.truthy next then
    removeItem E LOGIN_NEXT_KEY;;
    removeItem E PENDING_INVITE_KEY;;
    navigate (default EmptyString next) true None
  else navigate "/" true None.

(** [try { await setDoc(userRef, ...) } catch (e) { ... throw e }] *)
Definition create_profile (u : user) (providerId : option string) : M unit :=
  try_catch
    (now <- serverTimestamp;;
     setDoc E ["users"; uid u] (new_profile_fields u providerId now) true)
    (fun e =>
       re <- getDoc E ["users"; uid u];;
       match re with
       | None => throw e
       | Some _ => ret tt
       end).

(** [try { await upsertEmailIndex(...) } catch { }] *)
Definition index_email (u : user) (firstName lastName : option value)
  : M unit :=
  swallow (EmailIndex.upsertEmailIndex E
             {| EmailIndex.uid := uid u; EmailIndex.email := email u;
                EmailIndex.firstName := firstName;
                EmailIndex.lastName := lastName |}).

Definition handleAfterSignIn (fromUrl : option string) (u : user)
    (providerId : option string) : M unit :=
  snap <- getDoc E ["users"; uid u];;
  match snap with
  | None =>
      (* New user: create minimal doc then go to onboarding *)
      create_profile u providerId;;
      index_email u None None;;
      to_onboarding fromUrl
  | Some data =>
      (* Existing user *)
      index_email u (data !! "firstName") (data !! "lastName");;
      if negb (Js.truthy (data !! "hasCompletedOnboarding"))
      then to_onboarding fromUrl
      else to_next fromUrl
  end.

End Login.

(** The first of the three sources of a return path that is not empty:
    the address bar, the key of the login page, the pending invite. *)
Definition return_path (fromUrl : option string) (w : world) : option string :=
  JsString.or_else
    (JsString.or_else
       (JsString.or_else fromUrl (localStorage w !! LOGIN_NEXT_KEY))
       (localStorage w !! PENDING_INVITE_KEY))
    None.

Lemma return_path_truthy fromUrl w next :
  return_path fromUrl w = Some next -> JsString.nonempty next = true.
Proof.
  unfold return_path, JsString.or_else.
  repeat match goal with
         | |- context [JsString.truthy ?o] =>
             let H := fresh "H" in destruct (JsString.truthy o) eqn:H
         end; intros Heq; try discriminate; rewrite Heq in *; simpl in *;
    assumption.
Qed.

Lemma stashNextForOnboarding_eq E fromUrl w :
  storage_denied E = false ->
  stashNextForOnboarding E fromUrl w =
    match return_path fromUrl w with
    | Some next =>
        (Val tt,
         set_localStorage (delete PENDING_INVITE_KEY)
           (set_localStorage (delete LOGIN_NEXT_KEY)
              (set_localStorage (insert AFTER_ONBOARDING_NEXT next) w)),
         [ELocalSet AFTER_ONBOARDING_NEXT next; ELocalRemove LOGIN_NEXT_KEY;
          ELocalRemove PENDING_INVITE_KEY])
    | None => (Val tt, w, [])
    end.
Proof.
  intros Hs. unfold stashNextForOnboarding, bind, getItem. rewrite Hs.
  fold (return_path fromUrl w).
  destruct (return_path fromUrl w) as [next|] eqn:Hn; simpl; [|reflexivity].
  rewrite (return_path_truthy _ _ _ Hn).
  unfold setItem, removeItem. rewrite Hs. reflexivity.
Qed.

Lemma return_path_cases fromUrl w :
  (JsString.truthy fromUrl = true -> return_path fromUrl w = fromUrl) /\
  (JsString.truthy fromUrl = false ->
   JsString.truthy (localStorage w !! LOGIN_NEXT_KEY) = true ->
   return_path fromUrl w = localStorage w !! LOGIN_NEXT_KEY) /\
  (JsString.truthy fromUrl = false ->
   JsString.truthy (localStorage w !! LOGIN_NEXT_KEY) = false ->
   JsString.truthy (localStorage w !! PENDING_INVITE_KEY) = true ->
   return_path fromUrl w = localStorage w !! PENDING_INVITE_KEY) /\
  (JsString.truthy fromUrl = false ->
   JsString.truthy (localStorage w !! LOGIN_NEXT_KEY) = false ->
   JsString.truthy (localStorage w !! PENDING_INVITE_KEY) = false ->
   return_path fromUrl w = None).
Proof.
  unfold return_path, JsString.or_else. repeat split.
  - intros H. now rewrite !H.
  - intros H1 H2. now rewrite H1, !H2.
  - intros H1 H2 H3. now rewrite H1, H2, !H3.
  - intros H1 H2 H3. now rewrite H1, H2, !H3.
Qed.

(** X14.  [stashNextForOnboarding] keeps one return path: the one of the
    address bar if there is one, else the one the login page stored, else
    the pending invite.  That path becomes the after-onboarding pointer
    and the two other keys are removed, also when they held something
    else; when there is no return path at all, [localStorage] is left as
    it is. *)
Theorem stash_keeps_one_return_path E fromUrl w :
  storage_denied E = false ->
  let r := stashNextForOnboarding E fromUrl w in
  result r = Val tt /\ db (final r) = db w /\
  (JsString.truthy fromUrl = true ->
   localStorage (final r) !! AFTER_ONBOARDING_NEXT = fromUrl) /\
  (JsString.truthy fromUrl = false ->
   JsString.truthy (localStorage w !! LOGIN_NEXT_KEY) = true ->
   localStorage (final r) !! AFTER_ONBOARDING_NEXT
     = localStorage w !! LOGIN_NEXT_KEY) /\
  (JsString.truthy fromUrl = false ->
   JsString.truthy (localStorage w !! LOGIN_NEXT_KEY) = false ->
   JsString.truthy (localStorage w !! PENDING_INVITE_KEY) = true ->
   localStorage (final r) !! AFTER_ONBOARDING_NEXT
     = localStorage w !! PENDING_INVITE_KEY) /\
  (return_path fromUrl w <> None ->
   localStorage (final r) !! LOGIN_NEXT_KEY = None /\
   localStorage (final r) !! PENDING_INVITE_KEY = None) /\
  (return_path fromUrl w = None -> final r = w /\ events r = []).
Proof.
  intros Hs. cbv zeta. rewrite stashNextForOnboarding_eq by assumption.
  destruct (return_path_cases fromUrl w) as (Hu & Hl & Hp & _).
  destruct (return_path fromUrl w) as [next|] eqn:Hn;
    unfold result, final, events; simpl fst; simpl snd.
  - assert (Hafter :
      localStorage
        (set_localStorage (delete PENDING_INVITE_KEY)
           (set_localStorage (delete LOGIN_NEXT_KEY)
              (set_localStorage (insert AFTER_ONBOARDING_NEXT next) w)))
        !! AFTER_ONBOARDING_NEXT = Some next).
    { simpl. rewrite !lookup_delete_ne by discriminate.
      apply lookup_insert_eq. }
    rewrite Hafter. repeat split; try discriminate.
    + intros H. now apply Hu.
    + intros H1 H2. now apply Hl.
    + intros H1 H2 H3. now apply Hp.
    + simpl. rewrite lookup_delete_ne by discriminate. apply lookup_delete_eq.
    + simpl. apply lookup_delete_eq.
  - repeat split; try congruence.
    + intros H. specialize (Hu H). rewrite <- Hu in H. discriminate.
    + intros H1 H2. specialize (Hl H1 H2). rewrite <- Hl in H2. discriminate.
    + intros H1 H2 H3. specialize (Hp H1 H2 H3). rewrite <- Hp in H3.
      discriminate.
Qed.

Lemma stash_keeps_one_return_path_witness :
  let ls := list_to_map [("pendingInvitePath", "/invite/t1?org=o1");
                         ("loginNext", "/calendar")] : gmap string string in
  let w := set_localStorage (fun _ => ls) Scenario.start in
  let r := stashNextForOnboarding Scenario.quiet None w in
  localStorage (final r) !! AFTER_ONBOARDING_NEXT = Some "/calendar" /\
  localStorage (final r) !! PENDING_INVITE_KEY = None.
Proof.
  cbv zeta.
  destruct (stash_keeps_one_return_path Scenario.quiet None
              (set_localStorage
                 (fun _ => list_to_map [("pendingInvitePath", "/invite/t1?org=o1");
                                        ("loginNext", "/calendar")])
                 Scenario.start))
    as (_ & _ & _ & Hl & _ & Hrm & _).
  - reflexivity.
  - split.
    + rewrite Hl by reflexivity. reflexivity.
    + apply Hrm. vm_compute. discriminate.
Defined.

(** The two keys a return path is read from are removed. *)
Definition consume_return (w : world) : world :=
  set_localStorage (delete PENDING_INVITE_KEY)
    (set_localStorage (delete LOGIN_NEXT_KEY) w).

Lemma return_path_storage fromUrl w w' :
  localStorage w' = localStorage w ->
  return_path fromUrl w' = return_path fromUrl w.
Proof. unfold return_path. now intros ->. Qed.

Lemma or_else_None_truthy o :
  JsString.truthy (JsString.or_else o None) = JsString.truthy o.
Proof. unfold JsString.or_else. now destruct (JsString.truthy o) eqn:H. Qed.

Lemma to_onboarding_eq E fromUrl w :
  storage_denied E = false ->
  to_onboarding E fromUrl w =
    match return_path fromUrl w with
    | Some next =>
        (Val tt,
         consume_return (set_localStorage (insert AFTER_ONBOARDING_NEXT next) w),
         [ELocalSet AFTER_ONBOARDING_NEXT next; ELocalRemove LOGIN_NEXT_KEY;
          ELocalRemove PENDING_INVITE_KEY; ENavigate "/onboarding" true None])
    | None => (Val tt, w, [ENavigate "/onboarding" true None])
    end.
Proof.
  intros Hs. unfold to_onboarding, bind.
  rewrite stashNextForOnboarding_eq by assumption.
  destruct (return_path fromUrl w); reflexivity.
Qed.

Lemma to_next_eq E fromUrl w :
  storage_denied E = false ->
  to_next E fromUrl w =
    match return_path fromUrl w with
    | Some next =>
        (Val tt, consume_return w,
         [ELocalRemove LOGIN_NEXT_KEY; ELocalRemove PENDING_INVITE_KEY;
          ENavigate next true None])
    | None => (Val tt, w, [ENavigate "/" true None])
    end.
Proof.
  intros Hs.
  assert (Hlazy :
    (if JsString.truthy fromUrl then ret fromUrl
     else
       fromLoginKey <- getItem E LOGIN_NEXT_KEY;;
       if JsString.truthy fromLoginKey then ret fromLoginKey
       else getItem E PENDING_INVITE_KEY) w =
    (Val (JsString.or_else
            (JsString.or_else fromUrl (localStorage w !! LOGIN_NEXT_KEY))
            (localStorage w !! PENDING_INVITE_KEY)), w, [])).
  { unfold JsString.or_else, bind, getItem, ret. rewrite Hs.
    destruct (JsString.truthy fromUrl) eqn:Hu; rewrite ?Hu; [reflexivity|].
    destruct (JsString.truthy (localStorage w !! LOGIN_NEXT_KEY)) eqn:Hl;
      rewrite ?Hl; reflexivity. }
  unfold to_next. unfold bind at 1. rewrite Hlazy.
  unfold return_path.
  set (c := JsString.or_else (JsString.or_else fromUrl _) _).
  pose proof (or_else_None_truthy c) as Ht.
  unfold JsString.or_else at 1. unfold JsString.or_else at 1 in Ht.
  destruct (JsString.truthy c) eqn:Hc.
  - destruct c as [next|]; [|discriminate]. simpl.
    unfold bind, removeItem, navigate, emit. rewrite Hs. reflexivity.
  - reflexivity.
Qed.

(** The profile of the user who signed in exists. *)
Definition has_profile (E : env) (w : world) (u : user) (data : document)
  : Prop :=
  rejects E Get ["users"; uid u] = None /\ db w !! ["users"; uid u] = Some data.

Lemma handleAfterSignIn_existing E fromUrl u providerId w data :
  storage_denied E = false ->
  has_profile E w u data ->
  exists w' l,
    index_only w w' l /\
    handleAfterSignIn E fromUrl u providerId w =
      match return_path fromUrl w with
      | Some next =>
          if Js.truthy (data !! "hasCompletedOnboarding") then
            (Val tt, consume_return w',
             ERead ["users"; uid u] true :: l ++
             [ELocalRemove LOGIN_NEXT_KEY; ELocalRemove PENDING_INVITE_KEY;
              ENavigate next true None])
          else
            (Val tt,
             consume_return
               (set_localStorage (insert AFTER_ONBOARDING_NEXT next) w'),
             ERead ["users"; uid u] true :: l ++
             [ELocalSet AFTER_ONBOARDING_NEXT next;
              ELocalRemove LOGIN_NEXT_KEY; ELocalRemove PENDING_INVITE_KEY;
              ENavigate "/onboarding" true None])
      | None =>
          (Val tt, w',
           ERead ["users"; uid u] true :: l ++
           [ENavigate (if Js.truthy (data !! "hasCompletedOnboarding")
                       then "/" else "/onboarding") true None])
      end.
Proof.
  intros Hs (Hr & Hd).
  destruct (upsertEmailIndex_index_only E
              {| EmailIndex.uid := uid u; EmailIndex.email := email u;
                 EmailIndex.firstName := data !! "firstName";
                 EmailIndex.lastName := data !! "lastName" |} w)
    as (w' & l & Hup & Hio).
  exists w', l. split; [exact Hio|].
  destruct Hio as (Hls & _).
  unfold handleAfterSignIn. unfold bind at 1, getDoc. rewrite Hr, Hd.
  unfold bind at 1. unfold index_email. rewrite Hup.
  rewrite <- (return_path_storage fromUrl w w' Hls).
  destruct (Js.truthy (data !! "hasCompletedOnboarding")); cbn [negb].
  - rewrite to_next_eq by assumption.
    destruct (return_path fromUrl w'); reflexivity.
  - rewrite to_onboarding_eq by assumption.
    destruct (return_path fromUrl w'); reflexivity.
Qed.

Lemma consume_return_lookup w :
  localStorage (consume_return w) !! LOGIN_NEXT_KEY = None /\
  localStorage (consume_return w) !! PENDING_INVITE_KEY = None /\
  localStorage (consume_return w) !! AFTER_ONBOARDING_NEXT
    = localStorage w !! AFTER_ONBOARDING_NEXT.
Proof.
  unfold consume_return. simpl. repeat split.
  - rewrite lookup_delete_ne by discriminate. apply lookup_delete_eq.
  - apply lookup_delete_eq.
  - now rewrite !lookup_delete_ne by discriminate.
Qed.

(** Where [handleAfterSignIn] sends an existing user. *)
Definition destination (fromUrl : option string) (w : world) (data : document)
  : string :=
  if Js.truthy (data !! "hasCompletedOnboarding")
  then default "/" (return_path fromUrl w)
  else "/onboarding".

(** X15.  A user whose profile exists is sent to exactly one place: to
    onboarding when the profile is not marked as completed, else to the
    return path, and home when there is none.  A return path that was
    found is consumed: the keys of the login page and of the pending invite
    are removed, and on the way to onboarding the path is kept under the
    after-onboarding key.  In the store nothing but the email index can
    change. *)
Theorem existing_user_follows_the_return_path E fromUrl u providerId w data :
  storage_denied E = false ->
  has_profile E w u data ->
  let r := handleAfterSignIn E fromUrl u providerId w in
  result r = Val tt /\
  List.filter is_navigate (events r)
    = [ENavigate (destination fromUrl w data) true None] /\
  (return_path fromUrl w <> None ->
   localStorage (final r) !! LOGIN_NEXT_KEY = None /\
   localStorage (final r) !! PENDING_INVITE_KEY = None) /\
  (Js.truthy (data !! "hasCompletedOnboarding") = false ->
   return_path fromUrl w <> None ->
   localStorage (final r) !! AFTER_ONBOARDING_NEXT = return_path fromUrl w) /\
  (return_path fromUrl w = None -> localStorage (final r) = localStorage w) /\
  (forall p, head p <> Some "emailIndex" -> db (final r) !! p = db w !! p).
Proof.
  intros Hs Hp. cbv zeta.
  destruct (handleAfterSignIn_existing E fromUrl u providerId w data Hs Hp)
    as (w' & l & (Hls & _ & _ & _ & _ & Hdb & Hnav & _) & ->).
  unfold destination.
  destruct (return_path fromUrl w) as [next|] eqn:Hn;
    destruct (Js.truthy (data !! "hasCompletedOnboarding")) eqn:Hf;
    unfold result, final, events; simpl fst; simpl snd;
    (split; [reflexivity|]);
    (split; [simpl; rewrite List.filter_app, Hnav; reflexivity|]).
  - destruct (consume_return_lookup w') as (H1 & H2 & _).
    repeat split; try assumption; try discriminate.
  - destruct (consume_return_lookup
                (set_localStorage (insert AFTER_ONBOARDING_NEXT next) w'))
      as (H1 & H2 & H3).
    repeat split; try assumption; try discriminate.
    intros _ _. rewrite H3. simpl. apply lookup_insert_eq.
  - repeat split; try assumption; try congruence.
  - repeat split; try assumption; try congruence.
Qed.

Lemma existing_user_follows_the_return_path_witness :
  let ls := {[ "loginNext" := "/calendar" ]} : gmap string string in
  let w := set_localStorage (fun _ => ls) Scenario.start in
  let r := handleAfterSignIn Scenario.quiet None Scenario.pat None w in
  List.filter is_navigate (events r) = [ENavigate "/onboarding" true None] /\
  localStorage (final r) !! AFTER_ONBOARDING_NEXT = Some "/calendar".
Proof.
  cbv zeta.
  destruct (existing_user_follows_the_return_path Scenario.quiet None
              Scenario.pat None
              (set_localStorage (fun _ => {[ "loginNext" := "/calendar" ]})
                 Scenario.start)
              (list_to_map [("firstName", VStr "Pat"); ("lastName", VStr "Lee")]))
    as (_ & Hn & _ & Ha & _).
  - reflexivity.
  - split; vm_compute; reflexivity.
  - split; [exact Hn|]. apply Ha; [reflexivity|]. vm_compute. discriminate.
Defined.

(** X16.  The invite link survives the sign-in.  A visitor opens a valid
    invite link without being signed in, then signs in from a login page
    that carries no return path of its own: [handleAfterSignIn] sends a
    user who completed onboarding straight back to the invite link, and
    any other existing user to onboarding with the link under the
    after-onboarding key. *)
Theorem sign_in_resumes_the_invite E w token orgParam tokenData fromUrl u
    providerId data :
  token_found E w token orgParam tokenData ->
  storage_denied E = false ->
  JsString.truthy fromUrl = false ->
  JsString.truthy (localStorage w !! LOGIN_NEXT_KEY) = false ->
  has_profile E w u data ->
  let link := invitePath token (default EmptyString orgParam) in
  let visit := run E token orgParam None w in
  let r := handleAfterSignIn E fromUrl u providerId (final visit) in
  result r = Val tt /\
  List.filter is_navigate (events r) =
    [ENavigate (if Js.truthy (data !! "hasCompletedOnboarding")
                then link else "/onboarding") true None] /\
  localStorage (final r) !! AFTER_ONBOARDING_NEXT = Some link /\
  localStorage (final r) !! PENDING_INVITE_KEY = None.
Proof.
  intros Hf Hs Hu Hl (Hr & Hd). cbv zeta.
  rewrite (run_signed_out _ _ _ _ _ Hf). unfold final. simpl fst. simpl snd.
  set (w1 := set_err _ _).
  assert (Hls : localStorage w1
                = <[AFTER_ONBOARDING_NEXT :=
                      invitePath token (default EmptyString orgParam)]>
                    (<[PENDING_INVITE_KEY :=
                         invitePath token (default EmptyString orgParam)]>
                       (localStorage w))).
  { unfold w1, entry, stashed. rewrite Hs. reflexivity. }
  assert (Hp1 : has_profile E w1 u data).
  { split; [exact Hr|]. unfold w1. simpl. now rewrite db_entry. }
  assert (Hlink : JsString.nonempty
                    (invitePath token (default EmptyString orgParam)) = true)
    by (apply invitePath_nonempty; now destruct Hf).
  assert (Hrp : return_path fromUrl w1
                = Some (invitePath token (default EmptyString orgParam))).
  { destruct (return_path_cases fromUrl w1) as (_ & _ & Hc & _).
    rewrite Hc; rewrite ?Hls.
    - rewrite lookup_insert_ne by discriminate. apply lookup_insert_eq.
    - exact Hu.
    - now rewrite !lookup_insert_ne by discriminate.
    - rewrite lookup_insert_ne by discriminate. rewrite lookup_insert_eq.
      exact Hlink. }
  destruct (handleAfterSignIn_existing E fromUrl u providerId w1 data Hs Hp1)
    as (w' & l & (Hls' & _ & _ & _ & _ & _ & Hnav & _) & ->).
  rewrite Hrp.
  destruct (Js.truthy (data !! "hasCompletedOnboarding"));
    unfold result, final, events; simpl fst; simpl snd;
    (split; [reflexivity|]);
    (split; [simpl; rewrite List.filter_app, Hnav; reflexivity|]).
  - destruct (consume_return_lookup w') as (_ & H2 & H3).
    split; [|exact H2]. rewrite H3, Hls', Hls. apply lookup_insert_eq.
  - destruct (consume_return_lookup
                (set_localStorage
                   (insert AFTER_ONBOARDING_NEXT
                      (invitePath token (default EmptyString orgParam))) w'))
      as (_ & H2 & H3).
    split; [|exact H2]. rewrite H3. simpl. apply lookup_insert_eq.
Qed.

Lemma sign_in_resumes_the_invite_witness :
  let visit := run Scenario.quiet (Some "tok123") (Some "orgA") None
                 Scenario.start in
  let r := handleAfterSignIn Scenario.quiet None Scenario.pat None
             (final visit) in
  List.filter is_navigate (events r) = [ENavigate "/onboarding" true None] /\
  localStorage (final r) !! AFTER_ONBOARDING_NEXT
    = Some "/invite/tok123?org=orgA".
Proof.
  cbv zeta.
  destruct (sign_in_resumes_the_invite Scenario.quiet Scenario.start
              (Some "tok123") (Some "orgA") {[ "inviteId" := VStr "inv1" ]}
              None Scenario.pat None
              (list_to_map [("firstName", VStr "Pat"); ("lastName", VStr "Lee")]))
    as (_ & Hn & Ha & _).
  - repeat split; vm_compute; reflexivity.
  - reflexivity.
  - reflexivity.
  - vm_compute; reflexivity.
  - split; vm_compute; reflexivity.
  - split; [exact Hn | exact Ha].
Defined.

Lemma new_profile_lookup u providerId now k :
  data_of (new_profile_fields u providerId now) !! k =
    assoc k (new_profile_fields u providerId now).
Proof. apply data_of_lookup. Qed.

(** The world after the minimal profile was created. *)
Definition with_profile (u : user) (providerId : option string) (w : world)
  : world :=
  set_db (insert ["users"; uid u]
            (data_of (new_profile_fields u providerId (VTime (clock w))) ∪ ∅)) w.

Lemma create_profile_eq E u providerId w :
  rejects E Get ["users"; uid u] = None ->
  db w !! ["users"; uid u] = None ->
  create_profile E u providerId w =
    match rejects E SetMerge ["users"; uid u] with
    | Some e =>
        (Exn e, w,
         [EWrite SetMerge ["users"; uid u]
            (data_of (new_profile_fields u providerId (VTime (clock w)))) false;
          ERead ["users"; uid u] true])
    | None =>
        (Val tt, with_profile u providerId w,
         [EWrite SetMerge ["users"; uid u]
            (data_of (new_profile_fields u providerId (VTime (clock w)))) true])
    end.
Proof.
  intros Hr Hd. unfold create_profile, try_catch.
  unfold bind at 1, serverTimestamp at 1. unfold setDoc, validated. simpl.
  destruct (rejects E SetMerge ["users"; uid u]) as [e|] eqn:Hm.
  - unfold bind, getDoc. rewrite Hr, Hd. reflexivity.
  - unfold with_profile. rewrite Hd. reflexivity.
Qed.

Lemma handleAfterSignIn_new E fromUrl u providerId w :
  storage_denied E = false ->
  rejects E Get ["users"; uid u] = None ->
  db w !! ["users"; uid u] = None ->
  exists w2 l,
    index_only (with_profile u providerId w) w2 l /\
    handleAfterSignIn E fromUrl u providerId w =
      match rejects E SetMerge ["users"; uid u] with
      | Some e =>
          (Exn e, w,
           [ERead ["users"; uid u] true;
            EWrite SetMerge ["users"; uid u]
              (data_of (new_profile_fields u providerId (VTime (clock w))))
              false;
            ERead ["users"; uid u] true])
      | None =>
          prepend
            (ERead ["users"; uid u] true
             :: EWrite SetMerge ["users"; uid u]
                  (data_of (new_profile_fields u providerId (VTime (clock w))))
                  true
             :: l)
            (to_onboarding E fromUrl w2)
      end.
Proof.
  intros Hs Hr Hd.
  destruct (upsertEmailIndex_index_only E
              {| EmailIndex.uid := uid u; EmailIndex.email := email u;
                 EmailIndex.firstName := None;
                 EmailIndex.lastName := None |} (with_profile u providerId w))
    as (w2 & l & Hup & Hio).
  exists w2, l. split; [exact Hio|].
  unfold handleAfterSignIn. unfold bind at 1, getDoc. rewrite Hr, Hd.
  unfold bind at 1. rewrite create_profile_eq by assumption.
  destruct (rejects E SetMerge ["users"; uid u]) as [e|]; [reflexivity|].
  unfold bind at 1, index_email. rewrite Hup.
  unfold prepend, result, final, events.
  destruct (to_onboarding E fromUrl w2) as [[r w3] l3]. reflexivity.
Qed.

(** X17.  A user without a profile gets a minimal one, marked as not having
    completed onboarding, and is sent to onboarding with the return path
    kept.  When the profile cannot be created the error escapes
    [handleAfterSignIn]: nothing is stored, locally or remotely, and
    nobody is navigated anywhere. *)
Theorem new_user_goes_to_onboarding E fromUrl u providerId w :
  storage_denied E = false ->
  rejects E Get ["users"; uid u] = None ->
  db w !! ["users"; uid u] = None ->
  let r := handleAfterSignIn E fromUrl u providerId w in
  match rejects E SetMerge ["users"; uid u] with
  | None =>
      result r = Val tt /\
      (exists profile,
         db (final r) !! ["users"; uid u] = Some profile /\
         profile !! "uid" = Some (VStr (uid u)) /\
         profile !! "email" = Some (VStr (default EmptyString (email u))) /\
         profile !! "hasCompletedOnboarding" = Some (VBool false) /\
         profile !! "createdAt" = Some (VTime (clock w))) /\
      List.filter is_navigate (events r) = [ENavigate "/onboarding" true None] /\
      (return_path fromUrl w <> None ->
       localStorage (final r) !! AFTER_ONBOARDING_NEXT = return_path fromUrl w)
  | Some e =>
      result r = Exn e /\ db (final r) = db w /\
      localStorage (final r) = localStorage w /\
      List.filter is_navigate (events r) = [] /\
      List.filter is_local_set (events r) = []
  end.
Proof.
  intros Hs Hr Hd. cbv zeta.
  destruct (handleAfterSignIn_new E fromUrl u providerId w Hs Hr Hd)
    as (w2 & l & (Hls & _ & _ & _ & _ & Hdb & Hnav & _) & ->).
  destruct (rejects E SetMerge ["users"; uid u]) as [e|] eqn:Hm.
  { repeat split. }
  rewrite to_onboarding_eq by assumption.
  assert (Hrp : return_path fromUrl w2 = return_path fromUrl w)
    by (apply return_path_storage; rewrite Hls; reflexivity).
  rewrite Hrp.
  assert (Hprofile : forall w3, db w3 = db w2 ->
    exists profile,
      db w3 !! ["users"; uid u] = Some profile /\
      profile !! "uid" = Some (VStr (uid u)) /\
      profile !! "email" = Some (VStr (default EmptyString (email u))) /\
      profile !! "hasCompletedOnboarding" = Some (VBool false) /\
      profile !! "createdAt" = Some (VTime (clock w))).
  { intros w3 ->. rewrite Hdb by discriminate. unfold with_profile. simpl.
    rewrite lookup_insert_eq. eexists. split; [reflexivity|].
    rewrite (right_id_L ∅ (∪)).
    repeat split; rewrite new_profile_lookup; reflexivity. }
  destruct (return_path fromUrl w) as [next|];
    unfold prepend, result, final, events; simpl fst; simpl snd;
    (split; [reflexivity|]);
    (split; [apply Hprofile; reflexivity|]);
    (split; [simpl; rewrite List.filter_app, Hnav; reflexivity|]).
  - intros _.
    destruct (consume_return_lookup
                (set_localStorage (insert AFTER_ONBOARDING_NEXT next) w2))
      as (_ & _ & H3).
    rewrite H3. simpl. apply lookup_insert_eq.
  - congruence.
Qed.

Lemma new_user_goes_to_onboarding_witness :
  let u := {| uid := "u9"; email := Some "new@example.com";
              displayName := None |} in
  let r := handleAfterSignIn Scenario.quiet (Some "/calendar") u None
             Scenario.start in
  result r = Val tt /\
  List.filter is_navigate (events r) = [ENavigate "/onboarding" true None] /\
  localStorage (final r) !! AFTER_ONBOARDING_NEXT = Some "/calendar".
Proof.
  cbv zeta.
  pose proof (new_user_goes_to_onboarding Scenario.quiet (Some "/calendar")
                {| uid := "u9"; email := Some "new@example.com";
                   displayName := None |} None Scenario.start
                eq_refl eq_refl eq_refl) as H.
  cbv zeta in H. simpl rejects in H.
  destruct H as (Hr & _ & Hn & Ha).
  split; [exact Hr|]. split; [exact Hn|]. apply Ha. vm_compute. discriminate.
Defined.

(** ** [Onboarding] of [src/pages/Onboarding.tsx] *)

Module Onboarding.

(** How the callback of [onAuthStateChanged] leaves the page. *)
Inductive arrival :=
| ToLogin        (* nobody is signed in *)
| AlreadyDone    (* onboarding was completed before: the page is left *)
| ShowForm.      (* the form is shown, filled in from the profile *)

(** How [createClinic] ends. *)
Inductive created :=
| ToInvite
| NoUser
| NameRequired
| Opened
| OpenFailed (msg : string).

Section Page.

Context (E : env).

(** The callback of [onAuthStateChanged], up to the point where the form
    is filled in. *)
Definition preload (who : option user) : M arrival :=
  match who with
  | None => navigate "/login" true None;; ret ToLogin
  | Some u =>
      snap <- getDoc E ["users"; uid u];;
      if Js.truthy (snap ≫= (fun d => d !! "hasCompletedOnboarding")) then
        next <- getItem E AFTER_ONBOARDING_NEXT;;
        removeItem E AFTER_ONBOARDING_NEXT;;
        navigate (if JsString.truthy next then default EmptyString next
                  else "/") true None;;
        ret AlreadyDone
      else ret ShowForm
  end.

(** [firstName] is the field of the form, [displayName] is
    [auth.currentUser?.displayName]. *)
Definition defaultClinicName (firstName : string) (displayName : option string)
  : string :=
  let f :=
    JsString.trim
      (if JsString.nonempty firstName then firstName
       else match displayName with
            | Some d => default EmptyString (head (JsString.split " " d))
            | None => EmptyString
            end) in
  if JsString.nonempty f then f ++ "'s Clinic" else "My Clinic".

Definition first_org_fields (name : string) (u : user) (now : value) : fields :=
  [ ("name", Some (VStr name));
    ("createdBy", Some (VStr (uid u)));
    ("createdAt", Some now);
    ("updatedAt", Some now) ].

Definition first_owner_fields (u : user) (firstName lastName : string)
    (now : value) : fields :=
  [ ("userId", Some (VStr (uid u)));
    ("email", Some (Js.of_string (email u)));
    ("firstName", Some (VStr (JsString.trim firstName)));
    ("lastName", Some (VStr (JsString.trim lastName)));
    ("role", Some (VStr "owner"));
    ("addedAt", Some now) ].

Definition first_index_fields (orgId name : string) (now : value) : fields :=
  [ ("orgId", Some (VStr orgId));
    ("orgName", Some (VStr name));
    ("role", Some (VStr "owner"));
    ("joinedAt", Some now) ].

(** The [try] block of [createClinic]; [orgId] is the identifier the SDK
    generates for [doc(collection(db, "orgs"))]. *)
Definition create_first (orgId name : string) (u : user)
    (firstName lastName : string) : M created :=
  (* 1) org *)
  now <- serverTimestamp;;
  setDoc E ["orgs"; orgId] (first_org_fields name u now) false;;
  (* 2) member, as owner *)
  now <- serverTimestamp;;
  setDoc E ["orgs"; orgId; "members"; uid u]
    (first_owner_fields u firstName lastName now) false;;
  (* 3) reverse index *)
  now <- serverTimestamp;;
  setDoc E ["users"; uid u; "orgMemberships"; orgId]
    (first_index_fields orgId name now) false;;
  (* 4) scope and navigation *)
  swallow (setOrg E orgId (Some (VStr name)));;
  navigate "/" true None;;
  ret Opened.

(** [createClinic()]; the [loading] and [err] of the page are the [busy]
    and [err] of the world. *)
Definition createClinic (orgId : string) (who : option user)
    (clinicName firstName lastName : string) : M created :=
  pending <- getItem E PENDING_INVITE_KEY;;
  if JsString.truthy pending then
    navigate (default EmptyString pending) true None;;
    ret ToInvite
  else
  match who with
  | None => ret NoUser
  | Some u =>
      let name :=
        JsString.trim
          (if JsString.nonempty clinicName then clinicName
           else defaultClinicName firstName (displayName u)) in
      if negb (JsString.nonempty name) then
        setErr (Some "Clinic name is required.");;
        ret NameRequired
      else
        setBusy true;;
        setErr None;;
        finally
          (try_catch (create_first orgId name u firstName lastName)
             (fun e =>
                console_error e;;
                setErr (Some (if JsString.nonempty e then e
                              else "Failed to create clinic."));;
                ret (OpenFailed e)))
          (set_busy false)
  end.

End Page.

End Onboarding.

#[global] Arguments Onboarding.preload : simpl never.
#[global] Arguments Onboarding.create_first : simpl never.
#[global] Arguments Onboarding.createClinic : simpl never.

(** *** Back and forth between the invite and onboarding *)

(** One visit of the invite page followed by one of the onboarding page,
    both by the signed-in user [u]. *)
Definition bounce_round (E : env) (token orgParam : option string) (u : user)
    (w : world) : world * list event :=
  let r1 := run E token orgParam (Some u) w in
  let r2 := Onboarding.preload E (Some u) (final r1) in
  (final r2, events r1 ++ events r2).

Fixpoint bounce (E : env) (token orgParam : option string) (u : user)
    (n : nat) (w : world) : world * list event :=
  match n with
  | 0 => (w, [])
  | S n =>
      let r := bounce_round E token orgParam u w in
      let rest := bounce E token orgParam u n (fst r) in
      (fst rest, snd r ++ snd rest)
  end.

Lemma resolves_db E w w' token orgParam iid inv :
  db w' = db w ->
  resolves E w token orgParam iid inv -> resolves E w' token orgParam iid inv.
Proof.
  intros Hd (tokenData & (Hv & Hr & Ht) & Hi & Hn & Hri & Hinv).
  exists tokenData. unfold token_found. rewrite Hd.
  split; [split; [exact Hv|split; assumption]|]. repeat split; assumption.
Qed.

Lemma names_resolved_db E w w' u :
  db w' = db w -> names_resolved E w' u = names_resolved E w u.
Proof.
  intros Hd. unfold names_resolved. now rewrite (names_seen_db E w w' _ Hd).
Qed.

Lemma bounce_round_eq E w token orgParam u iid inv data :
  resolves E w token orgParam iid inv ->
  pending inv = true ->
  email_mismatch inv u = false ->
  names_resolved E w u = false ->
  has_profile E w u data ->
  Js.truthy (data !! "hasCompletedOnboarding") = true ->
  storage_denied E = false ->
  let link := invitePath token (default EmptyString orgParam) in
  let r := bounce_round E token orgParam u w in
  db (fst r) = db w /\ writes (snd r) = [] /\
  List.filter is_navigate (snd r)
    = [ENavigate "/onboarding" true None; ENavigate link true None].
Proof.
  intros Hres Hp Hm Hn (Hr & Hd) Hflag Hs. cbv zeta. unfold bounce_round.
  pose proof (run_guard_passed _ _ _ _ _ _ _ Hres Hp Hm) as Hrun.
  cbv zeta in Hrun. rewrite Hn, Hs in Hrun. rewrite Hrun. clear Hrun.
  unfold final, events. cbn [fst snd].
  set (w1 := set_busy false _).
  assert (Hdb : db w1 = db w) by (unfold w1; simpl; apply db_entry).
  assert (Hlink : JsString.nonempty
                    (invitePath token (default EmptyString orgParam)) = true).
  { apply invitePath_nonempty. now destruct Hres as (? & (? & _) & _). }
  assert (Hon : Onboarding.preload E (Some u) w1 =
                (Val Onboarding.AlreadyDone,
                 set_localStorage (delete AFTER_ONBOARDING_NEXT) w1,
                 [ERead ["users"; uid u] true;
                  ELocalRemove AFTER_ONBOARDING_NEXT;
                  ENavigate (invitePath token (default EmptyString orgParam))
                    true None])).
  { unfold Onboarding.preload. unfold bind at 1, getDoc. rewrite Hr, Hdb, Hd.
    simpl. rewrite Hflag.
    unfold bind, getItem, removeItem, navigate, emit, ret. rewrite Hs.
    assert (Hl : localStorage w1 !! AFTER_ONBOARDING_NEXT
                 = Some (invitePath token (default EmptyString orgParam)))
      by (unfold w1; simpl; apply lookup_insert_eq).
    rewrite Hl. simpl. rewrite Hlink. reflexivity. }
  rewrite Hon. cbn [fst snd].
  destruct (stash_events_quiet E (invitePath token (default EmptyString orgParam)))
    as (Hsw & _ & Hsn & _).
  split; [exact Hdb|].
  rewrite !writes_app, !List.filter_app. simpl.
  rewrite !writes_app, !List.filter_app, Hsw, Hsn. split; reflexivity.
Qed.

(** X18.  A user whose profile is marked as completed but gives no first
    or last name (and whose display name does not help) cannot get past
    an invite: the invite page sends them to onboarding, onboarding sees a
    completed profile and sends them back to the invite link, and so on.
    However many times the two pages are visited in turn, nothing is ever
    written and the two navigations repeat. *)
Theorem invite_and_onboarding_bounce E w token orgParam u iid inv data n :
  resolves E w token orgParam iid inv ->
  pending inv = true ->
  email_mismatch inv u = false ->
  names_resolved E w u = false ->
  has_profile E w u data ->
  Js.truthy (data !! "hasCompletedOnboarding") = true ->
  storage_denied E = false ->
  let link := invitePath token (default EmptyString orgParam) in
  let r := bounce E token orgParam u n w in
  db (fst r) = db w /\ writes (snd r) = [] /\
  List.filter is_navigate (snd r)
    = concat (replicate n [ENavigate "/onboarding" true None;
                           ENavigate link true None]).
Proof.
  intros Hres Hp Hm Hn Hprof Hflag Hs. cbv zeta.
  revert w Hres Hn Hprof. induction n as [|n IH]; intros w Hres Hn Hprof.
  - repeat split.
  - destruct (bounce_round_eq E w token orgParam u iid inv data)
      as (Hd & Hw & Hnav); try assumption.
    cbn [bounce]. cbv zeta. cbn [fst snd].
    destruct (IH (fst (bounce_round E token orgParam u w)))
      as (Hd' & Hw' & Hnav').
    + now apply (resolves_db E w).
    + now rewrite (names_resolved_db E w).
    + destruct Hprof as (Hr & Hdoc). split; [exact Hr|]. now rewrite Hd.
    + split; [now rewrite Hd'|]. split.
      * now rewrite writes_app, Hw, Hw'.
      * rewrite List.filter_app, Hnav, Hnav'. reflexivity.
Qed.

Lemma invite_and_onboarding_bounce_witness :
  let E := Scenario.quiet in
  let done : document := {[ "hasCompletedOnboarding" := VBool true ]} in
  let w := set_db (insert ["users"; "u3"] done) Scenario.start in
  let r := bounce E (Some "tok123") (Some "orgA") Scenario.nameless 3 w in
  writes (snd r) = [] /\
  List.filter is_navigate (snd r) =
    [ENavigate "/onboarding" true None;
     ENavigate "/invite/tok123?org=orgA" true None;
     ENavigate "/onboarding" true None;
     ENavigate "/invite/tok123?org=orgA" true None;
     ENavigate "/onboarding" true None;
     ENavigate "/invite/tok123?org=orgA" true None].
Proof.
  cbv zeta.
  destruct (invite_and_onboarding_bounce Scenario.quiet
              (set_db (insert ["users"; "u3"]
                         ({[ "hasCompletedOnboarding" := VBool true ]} : document))
                 Scenario.start)
              (Some "tok123") (Some "orgA") Scenario.nameless "inv1"
              (Scenario.invite "pending")
              {[ "hasCompletedOnboarding" := VBool true ]} 3)
    as (_ & Hw & Hn).
  - exists {[ "inviteId" := VStr "inv1" ]}.
    repeat split; vm_compute; reflexivity.
  - vm_compute; reflexivity.
  - vm_compute; reflexivity.
  - vm_compute; reflexivity.
  - split; vm_compute; reflexivity.
  - vm_compute; reflexivity.
  - reflexivity.
  - split; [exact Hw | exact Hn].
Defined.

(** *** Creating the first clinic *)

Lemma createClinic_pending E orgId who clinicName firstName lastName w link :
  storage_denied E = false ->
  localStorage w !! PENDING_INVITE_KEY = Some link ->
  JsString.nonempty link = true ->
  Onboarding.createClinic E orgId who clinicName firstName lastName w =
    (Val Onboarding.ToInvite, w, [ENavigate link true None]).
Proof.
  intros Hs Hl Hn. unfold Onboarding.createClinic, bind at 1, getItem.
  rewrite Hs, Hl. simpl. rewrite Hn. reflexivity.
Qed.

(** X19.  [createClinic] gives way to an invite.  After the invite page
    sent a user to onboarding, the pending-invite pointer still holds the
    link, and [createClinic] then creates nothing: whatever the form
    holds, it only navigates back to the invite link. *)
Theorem createClinic_defers_to_the_invite E w token orgParam u iid inv
    orgId who clinicName firstName lastName :
  resolves E w token orgParam iid inv ->
  pending inv = true ->
  email_mismatch inv u = false ->
  names_resolved E w u = false ->
  storage_denied E = false ->
  let link := invitePath token (default EmptyString orgParam) in
  let visit := run E token orgParam (Some u) w in
  let r := Onboarding.createClinic E orgId who clinicName firstName lastName
             (final visit) in
  result r = Val Onboarding.ToInvite /\
  events r = [ENavigate link true None] /\
  final r = final visit /\ db (final r) = db w.
Proof.
  intros Hres Hp Hm Hn Hs. cbv zeta.
  pose proof (run_guard_passed _ _ _ _ _ _ _ Hres Hp Hm) as Hrun.
  cbv zeta in Hrun. rewrite Hn, Hs in Hrun. rewrite Hrun. clear Hrun.
  unfold result, final, events. cbn [fst snd].
  set (w1 := set_busy false _).
  assert (Hlink : JsString.nonempty
                    (invitePath token (default EmptyString orgParam)) = true).
  { apply invitePath_nonempty. now destruct Hres as (? & (? & _) & _). }
  assert (Hl : localStorage w1 !! PENDING_INVITE_KEY
               = Some (invitePath token (default EmptyString orgParam))).
  { unfold w1, entry, stashed. rewrite Hs. simpl.
    rewrite !lookup_insert_ne by discriminate. apply lookup_insert_eq. }
  rewrite (createClinic_pending _ _ _ _ _ _ _ _ Hs Hl Hlink). cbn [fst snd].
  repeat split. unfold w1. simpl. apply db_entry.
Qed.

Lemma createClinic_defers_to_the_invite_witness :
  let visit := run Scenario.quiet (Some "tok123") (Some "orgA")
                 (Some Scenario.nameless) Scenario.start in
  let r := Onboarding.createClinic Scenario.quiet "org9"
             (Some Scenario.nameless) "My practice" "Pat" "Lee"
             (final visit) in
  result r = Val Onboarding.ToInvite /\
  events r = [ENavigate "/invite/tok123?org=orgA" true None].
Proof.
  cbv zeta.
  destruct (createClinic_defers_to_the_invite Scenario.quiet Scenario.start
              (Some "tok123") (Some "orgA") Scenario.nameless "inv1"
              (Scenario.invite "pending") "org9" (Some Scenario.nameless)
              "My practice" "Pat" "Lee")
    as (Hr & He & _).
  - exists {[ "inviteId" := VStr "inv1" ]}.
    repeat split; vm_compute; reflexivity.
  - vm_compute; reflexivity.
  - vm_compute; reflexivity.
  - vm_compute; reflexivity.
  - reflexivity.
  - split; [exact Hr | exact He].
Defined.

(** ** [MyClinics] of [src/pages/MyClinics.tsx]: creating a clinic *)

Module MyClinics.

(** How [onCreateClinic] ends: it returns at once, it closes the dialog, or
    it alerts. *)
Inductive submitted :=
| Ignored
| Created
| CreateFailed (alerted : string).

Section Page.

Context (E : env).

Definition clinic_fields (name who : string) (now : value) : fields :=
  [ ("name", Some (VStr name));
    ("createdAt", Some now);
    ("createdBy", Some (VStr who)) ].

(** [firstName], [lastName] and [email] after the read of the private
    profile; [authEmail] is [auth.currentUser?.email]. *)
Definition seed (authEmail : option string) (me : option document)
  : value * value * value :=
  let email := VStr (if JsString.truthy authEmail
                     then default EmptyString authEmail else EmptyString) in
  match me with
  | Some d =>
      (or_empty (d !! "firstName"), or_empty (d !! "lastName"),
       if Js.truthy (d !! "email") then default email (d !! "email") else email)
  | None => (VStr EmptyString, VStr EmptyString, email)
  end.

Definition load_seed (who : string) (authEmail : option string)
  : M (value * value * value) :=
  try_catch
    (meSnap <- getDoc E ["users"; who];;
     ret (seed authEmail meSnap))
    (fun _ => ret (seed authEmail None)).

Definition owner_fields (who : string) (s : value * value * value)
    (now : value) : fields :=
  [ ("userId", Some (VStr who));
    ("email", Some (snd s));
    ("firstName", Some (fst (fst s)));
    ("lastName", Some (snd (fst s)));
    ("role", Some (VStr "owner"));
    ("addedAt", Some now) ].

Definition membership_fields (orgId name : string) (now : value) : fields :=
  [ ("orgId", Some (VStr orgId));
    ("orgName", Some (VStr name));
    ("role", Some (VStr "owner"));
    ("joinedAt", Some now) ].

(** The [try] block of [onCreateClinic]; [orgId] is the identifier that
    [addDoc] generates. *)
Definition create (orgId name who : string) (authEmail : option string)
  : M submitted :=
  (* (1) create org *)
  now <- serverTimestamp;;
  setDoc E ["orgs"; orgId] (clinic_fields name who now) false;;
  s <- load_seed who authEmail;;
  (* (2) members doc *)
  now <- serverTimestamp;;
  setDoc E ["orgs"; orgId; "members"; who] (owner_fields who s now) false;;
  (* (3) membership index *)
  now <- serverTimestamp;;
  setDoc E ["users"; who; "orgMemberships"; orgId]
    (membership_fields orgId name now) false;;
  setOrg E orgId (Some (VStr name));;
  setBusy false;;
  ret Created.

(** [onCreateClinic]; [uid] and [clinicName] are the state of the page, and
    its [saving] flag is the [busy] of the world. *)
Definition onCreateClinic (orgId : string) (uid : option string)
    (authEmail : option string) (clinicName : string) : M submitted :=
  if negb (JsString.truthy uid) then ret Ignored
  else
    let name := JsString.trim clinicName in
    if negb (JsString.nonempty name) then ret Ignored
    else
      setBusy true;;
      try_catch
        (create orgId name (default EmptyString uid) authEmail)
        (fun e =>
           setBusy false;;
           ret (CreateFailed (if JsString.nonempty e then e
                              else "Failed to create clinic"))).

End Page.

End MyClinics.

#[global] Arguments MyClinics.create : simpl never.
#[global] Arguments MyClinics.onCreateClinic : simpl never.

(** *** Writes that are accepted, writes that are refused *)

Lemma setDoc_accepted (E : env) (p : path) (fs : fields) (merge : bool)
    (w : world) :
  has_undefined fs = false ->
  rejects E (if merge then SetMerge else SetDoc) p = None ->
  setDoc E p fs merge w =
    (Val tt,
     set_db (insert p (if merge then data_of fs ∪ default ∅ (db w !! p)
                       else data_of fs)) w,
     [EWrite (if merge then SetMerge else SetDoc) p (data_of fs) true]).
Proof.
  intros Hv Hr. unfold setDoc, validated. rewrite Hv. simpl. now rewrite Hr.
Qed.

Lemma setDoc_refused (E : env) (p : path) (fs : fields) (merge : bool)
    (w : world) (e : string) :
  has_undefined fs = false ->
  rejects E (if merge then SetMerge else SetDoc) p = Some e ->
  setDoc E p fs merge w =
    (Exn e, w,
     [EWrite (if merge then SetMerge else SetDoc) p (data_of fs) false]).
Proof.
  intros Hv Hr. unfold setDoc, validated. rewrite Hv. simpl. now rewrite Hr.
Qed.

(** The three documents of a new clinic. *)
Definition clinicRef (orgId : string) : path := ["orgs"; orgId].

(** The three writes of a new clinic are accepted. *)
Definition clinic_accepted (E : env) (orgId who : string) : Prop :=
  rejects E SetDoc (clinicRef orgId) = None /\
  rejects E SetDoc (memberRef orgId who) = None /\
  rejects E SetDoc (indexRef who orgId) = None.

(** What [load_seed] comes back with. *)
Definition seen_seed (E : env) (w : world) (who : string)
    (authEmail : option string) : value * value * value :=
  MyClinics.seed authEmail
    (match rejects E Get ["users"; who] with
     | Some _ => None
     | None => db w !! ["users"; who]
     end).

Lemma load_seed_eq E who authEmail w :
  MyClinics.load_seed E who authEmail w =
    (Val (seen_seed E w who authEmail), w,
     [ERead ["users"; who] (answered E Get ["users"; who])]).
Proof.
  unfold MyClinics.load_seed, seen_seed, answered, try_catch, bind, getDoc, ret.
  destruct (rejects E Get _); reflexivity.
Qed.

Section NewClinic.

Context (E : env) (orgId name who : string) (authEmail : option string)
  (w : world).

Definition new_org : document :=
  data_of (MyClinics.clinic_fields name who (VTime (clock w))).
Definition new_member : document :=
  data_of (MyClinics.owner_fields who (seen_seed E w who authEmail)
             (VTime (S (clock w)))).
Definition new_index : document :=
  data_of (MyClinics.membership_fields orgId name (VTime (S (S (clock w))))).

Definition with_org : world := set_db (insert (clinicRef orgId) new_org) w.
Definition with_member : world :=
  set_db (insert (memberRef orgId who) new_member) with_org.
Definition with_index : world :=
  set_db (insert (indexRef who orgId) new_index) with_member.

Definition clinic_events : list event :=
  [EWrite SetDoc (clinicRef orgId) new_org true;
   ERead ["users"; who] (answered E Get ["users"; who]);
   EWrite SetDoc (memberRef orgId who) new_member true;
   EWrite SetDoc (indexRef who orgId) new_index true].

End NewClinic.

Lemma seen_seed_frame E w w' who authEmail :
  db w' !! ["users"; who] = db w !! ["users"; who] ->
  seen_seed E w' who authEmail = seen_seed E w who authEmail.
Proof. unfold seen_seed. now intros ->. Qed.

(** The [try] block, when the three writes are accepted: what is left is
    [setOrg]. *)
Lemma create_accepted E orgId name who authEmail w :
  clinic_accepted E orgId who ->
  MyClinics.create E orgId name who authEmail w =
    match setOrg E orgId (Some (VStr name))
            (with_index E orgId name who authEmail w) with
    | (Val _, w', l) =>
        (Val MyClinics.Created, set_busy false w',
         clinic_events E orgId name who authEmail w ++ l)
    | (Exn e, w', l) =>
        (Exn e, w', clinic_events E orgId name who authEmail w ++ l)
    end.
Proof.
  intros (Ho & Hm & Hi). unfold MyClinics.create.
  unfold bind at 1, serverTimestamp at 1. unfold bind at 1.
  rewrite setDoc_accepted by (reflexivity || assumption).
  unfold bind at 1. rewrite load_seed_eq.
  rewrite (seen_seed_frame E w) by (simpl; now rewrite lookup_insert_ne).
  unfold bind at 1, serverTimestamp at 1. unfold bind at 1.
  rewrite setDoc_accepted by (reflexivity || assumption).
  unfold bind at 1, serverTimestamp at 1. unfold bind at 1.
  rewrite setDoc_accepted by (reflexivity || assumption).
  unfold bind at 1.
  change (set_db _ (set_db _ (set_db _ w)))
    with (with_index E orgId name who authEmail w).
  destruct (setOrg E orgId (Some (VStr name)) _) as [[[[]|e] w'] l].
  - unfold bind, setBusy, modify, ret. cbn [app]. rewrite !app_nil_r.
    reflexivity.
  - reflexivity.
Qed.

Section NewClinicFacts.

Context (E : env) (orgId name who : string) (authEmail : option string)
  (w : world).

Lemma with_index_docs :
  db (with_index E orgId name who authEmail w) !! clinicRef orgId
    = Some (new_org name who w) /\
  db (with_index E orgId name who authEmail w) !! memberRef orgId who
    = Some (new_member E who authEmail w) /\
  db (with_index E orgId name who authEmail w) !! indexRef who orgId
    = Some (new_index orgId name w).
Proof.
  unfold with_index, with_member, with_org, clinicRef, memberRef, indexRef.
  simpl. repeat split.
  - rewrite !lookup_insert_ne by discriminate. apply lookup_insert_eq.
  - rewrite lookup_insert_ne by discriminate. apply lookup_insert_eq.
  - apply lookup_insert_eq.
Qed.

Lemma new_org_fields :
  new_org name who w !! "name" = Some (VStr name) /\
  new_org name who w !! "createdBy" = Some (VStr who).
Proof. unfold new_org. rewrite !data_of_lookup. split; reflexivity. Qed.

Lemma new_member_fields :
  new_member E who authEmail w !! "userId" = Some (VStr who) /\
  new_member E who authEmail w !! "role" = Some (VStr "owner").
Proof. unfold new_member. rewrite !data_of_lookup. split; reflexivity. Qed.

Lemma new_index_fields :
  new_index orgId name w !! "orgId" = Some (VStr orgId) /\
  new_index orgId name w !! "orgName" = Some (VStr name) /\
  new_index orgId name w !! "role" = Some (VStr "owner").
Proof. unfold new_index. rewrite !data_of_lookup. repeat split. Qed.

End NewClinicFacts.

(** [setOrg] cannot fail: nobody is signed in for the provider, or the
    merge into the profile is accepted. *)
Definition scope_accepted (E : env) : Prop :=
  forall su, scope_user E = Some su -> rejects E SetMerge ["users"; su] = None.

Lemma scope_accepted_Val E orgId orgName w :
  JsString.nonempty orgId = true ->
  scope_accepted E ->
  result (setOrg E orgId orgName w) = Val tt.
Proof.
  intros Ho Ha. pose proof (setOrg_scope_run E orgId orgName w Ho) as R.
  destruct (setOrg E orgId orgName w) as [[r w'] l].
  inversion R as [ | | | su e Hu _ Hm]; subst; try reflexivity.
  rewrite (Ha su Hu) in Hm. discriminate.
Qed.

(** The documents of the clinic [orgId] that [who] owns, as a run left
    them. *)
Definition owned_clinic (s : store) (orgId name who : string) : Prop :=
  s !! clinicRef orgId ≫= (fun d => d !! "name") = Some (VStr name) /\
  s !! clinicRef orgId ≫= (fun d => d !! "createdBy") = Some (VStr who) /\
  s !! memberRef orgId who ≫= (fun d => d !! "userId") = Some (VStr who) /\
  s !! memberRef orgId who ≫= (fun d => d !! "role") = Some (VStr "owner") /\
  s !! indexRef who orgId ≫= (fun d => d !! "orgId") = Some (VStr orgId) /\
  s !! indexRef who orgId ≫= (fun d => d !! "orgName") = Some (VStr name) /\
  s !! indexRef who orgId ≫= (fun d => d !! "role") = Some (VStr "owner").

Lemma owned_clinic_with_index E orgId name who authEmail w s :
  (forall p, length p = 4 \/ p = clinicRef orgId ->
     s !! p = db (with_index E orgId name who authEmail w) !! p) ->
  owned_clinic s orgId name who.
Proof.
  intros Hs.
  destruct (with_index_docs E orgId name who authEmail w) as (Ho & Hm & Hi).
  destruct (new_org_fields name who w) as (H1 & H2).
  destruct (new_member_fields E who authEmail w) as (H3 & H4).
  destruct (new_index_fields orgId name w) as (H5 & H6 & H7).
  unfold owned_clinic.
  rewrite !(Hs (clinicRef orgId)) by (now right).
  rewrite !(Hs (memberRef orgId who)) by (now left).
  rewrite !(Hs (indexRef who orgId)) by (now left).
  rewrite Ho, Hm, Hi. simpl. repeat split; assumption.
Qed.

Lemma onCreateClinic_accepted E orgId who authEmail clinicName w :
  JsString.nonempty who = true ->
  JsString.nonempty (JsString.trim clinicName) = true ->
  clinic_accepted E orgId who ->
  let name := JsString.trim clinicName in
  MyClinics.onCreateClinic E orgId (Some who) authEmail clinicName w =
    match setOrg E orgId (Some (VStr name))
            (with_index E orgId name who authEmail (set_busy true w)) with
    | (Val _, w', l) =>
        (Val MyClinics.Created, set_busy false w',
         clinic_events E orgId name who authEmail (set_busy true w) ++ l)
    | (Exn e, w', l) =>
        (Val (MyClinics.CreateFailed
                (if JsString.nonempty e then e else "Failed to create clinic")),
         set_busy false w',
         clinic_events E orgId name who authEmail (set_busy true w) ++ l)
    end.
Proof.
  intros Hw Hn Hacc. cbv zeta.
  unfold MyClinics.onCreateClinic. cbn [JsString.truthy]. rewrite Hw, Hn.
  cbn [negb]. unfold bind at 1, setBusy at 1, modify at 1, try_catch.
  simpl default. rewrite create_accepted by assumption.
  destruct (setOrg E orgId _ _) as [[[[]|e] w'] l]; cbn [app].
  - reflexivity.
  - unfold bind, setBusy, modify, ret. cbn [app]. now rewrite !app_nil_r.
Qed.

(** [setOrg] is bound to fail with [e]: the update of the profile of the
    signed-in user cannot go through, and the merge is refused. *)
Definition scope_refused (E : env) (w : world) (e : string) : Prop :=
  exists su,
    scope_user E = Some su /\
    (rejects E Update ["users"; su] <> None \/ db w !! ["users"; su] = None) /\
    rejects E SetMerge ["users"; su] = Some e.

Lemma scope_refused_Exn E orgId orgName w0 w e :
  JsString.nonempty orgId = true ->
  (forall su, db w0 !! ["users"; su] = db w !! ["users"; su]) ->
  scope_refused E w e ->
  result (setOrg E orgId orgName w0) = Exn e.
Proof.
  intros Ho Hdb (su & Hu & Hupd & Hm).
  pose proof (setOrg_scope_run E orgId orgName w0 Ho) as R.
  destruct (setOrg E orgId orgName w0) as [[r w'] l].
  inversion R as [Hu' | su' old Hu' Hr' Hd' | su' Hu' Ha' Hm' | su' e' Hu' Ha' Hm'];
    subst; rewrite Hu in Hu'; try discriminate; injection Hu' as <-.
  - rewrite Hdb in Hd'. destruct Hupd as [Hupd | Hupd]; congruence.
  - congruence.
  - unfold result. simpl. congruence.
Qed.



(** What [catch] makes of the [try] block of [onCreateClinic]. *)
Definition alerted (r : res MyClinics.submitted * world * list event)
  : res MyClinics.submitted * world * list event :=
  match result r with
  | Val o => r
  | Exn e =>
      (Val (MyClinics.CreateFailed
              (if JsString.nonempty e then e else "Failed to create clinic")),
       set_busy false (final r), events r)
  end.

Lemma onCreateClinic_eq E orgId who authEmail clinicName w :
  JsString.nonempty who = true ->
  JsString.nonempty (JsString.trim clinicName) = true ->
  MyClinics.onCreateClinic E orgId (Some who) authEmail clinicName w =
    alerted (MyClinics.create E orgId (JsString.trim clinicName) who authEmail
               (set_busy true w)).
Proof.
  intros Hw Hn. unfold MyClinics.onCreateClinic. cbn [JsString.truthy].
  rewrite Hw, Hn. cbn [negb].
  unfold bind at 1, setBusy at 1, modify at 1, try_catch, alerted.
  simpl default.
  destruct (MyClinics.create _ _ _ _ _ _) as [[[o|e] w'] l];
    unfold result, final, events; cbn [fst snd app]; [reflexivity|].
  unfold bind, setBusy, modify, ret. cbn [app]. now rewrite !app_nil_r.
Qed.

Lemma onCreateClinic_ignored E orgId uid authEmail clinicName w :
  JsString.truthy uid = false \/
  JsString.nonempty (JsString.trim clinicName) = false ->
  MyClinics.onCreateClinic E orgId uid authEmail clinicName w
    = (Val MyClinics.Ignored, w, []).
Proof.
  unfold MyClinics.onCreateClinic. intros [-> | H]; [reflexivity|].
  rewrite H. now destruct (JsString.truthy uid).
Qed.

(** The [try] block, case by case. *)
Inductive create_run (E : env) (orgId name who : string)
    (authEmail : option string) (w : world)
  : res MyClinics.submitted * world * list event -> Prop :=
| create_org_failed e :
    rejects E SetDoc (clinicRef orgId) = Some e ->
    create_run E orgId name who authEmail w
      (Exn e, w, [EWrite SetDoc (clinicRef orgId) (new_org name who w) false])
| create_member_failed e :
    rejects E SetDoc (clinicRef orgId) = None ->
    rejects E SetDoc (memberRef orgId who) = Some e ->
    create_run E orgId name who authEmail w
      (Exn e, with_org orgId name who w,
       [EWrite SetDoc (clinicRef orgId) (new_org name who w) true;
        ERead ["users"; who] (answered E Get ["users"; who]);
        EWrite SetDoc (memberRef orgId who) (new_member E who authEmail w) false])
| create_index_failed e :
    rejects E SetDoc (clinicRef orgId) = None ->
    rejects E SetDoc (memberRef orgId who) = None ->
    rejects E SetDoc (indexRef who orgId) = Some e ->
    create_run E orgId name who authEmail w
      (Exn e, with_member E orgId name who authEmail w,
       [EWrite SetDoc (clinicRef orgId) (new_org name who w) true;
        ERead ["users"; who] (answered E Get ["users"; who]);
        EWrite SetDoc (memberRef orgId who) (new_member E who authEmail w) true;
        EWrite SetDoc (indexRef who orgId) (new_index orgId name w) false])
| create_scope_failed e w' l :
    clinic_accepted E orgId who ->
    setOrg E orgId (Some (VStr name)) (with_index E orgId name who authEmail w)
      = (Exn e, w', l) ->
    create_run E orgId name who authEmail w
      (Exn e, w', clinic_events E orgId name who authEmail w ++ l)
| create_done w' l :
    clinic_accepted E orgId who ->
    setOrg E orgId (Some (VStr name)) (with_index E orgId name who authEmail w)
      = (Val tt, w', l) ->
    create_run E orgId name who authEmail w
      (Val MyClinics.Created, set_busy false w',
       clinic_events E orgId name who authEmail w ++ l).

Lemma create_spec E orgId name who authEmail w :
  create_run E orgId name who authEmail w
    (MyClinics.create E orgId name who authEmail w).
Proof.
  destruct (rejects E SetDoc (clinicRef orgId)) as [e|] eqn:Ho.
  { replace (MyClinics.create E orgId name who authEmail w)
      with (Exn (A:=MyClinics.submitted) e, w,
            [EWrite SetDoc (clinicRef orgId) (new_org name who w) false]).
    - now constructor.
    - unfold MyClinics.create.
      unfold bind at 1, serverTimestamp at 1. unfold bind at 1.
      rewrite (setDoc_refused _ _ _ false _ e) by (reflexivity || assumption).
      reflexivity. }
  destruct (rejects E SetDoc (memberRef orgId who)) as [e|] eqn:Hm.
  { replace (MyClinics.create E orgId name who authEmail w)
      with (Exn (A:=MyClinics.submitted) e, with_org orgId name who w,
            [EWrite SetDoc (clinicRef orgId) (new_org name who w) true;
             ERead ["users"; who] (answered E Get ["users"; who]);
             EWrite SetDoc (memberRef orgId who)
               (new_member E who authEmail w) false]).
    - now constructor.
    - unfold MyClinics.create.
      unfold bind at 1, serverTimestamp at 1. unfold bind at 1.
      rewrite setDoc_accepted by (reflexivity || assumption).
      unfold bind at 1. rewrite load_seed_eq.
      rewrite (seen_seed_frame E w) by (simpl; now rewrite lookup_insert_ne).
      unfold bind at 1, serverTimestamp at 1. unfold bind at 1.
      rewrite (setDoc_refused _ _ _ false _ e) by (reflexivity || assumption).
      reflexivity. }
  destruct (rejects E SetDoc (indexRef who orgId)) as [e|] eqn:Hi.
  { replace (MyClinics.create E orgId name who authEmail w)
      with (Exn (A:=MyClinics.submitted) e,
            with_member E orgId name who authEmail w,
            [EWrite SetDoc (clinicRef orgId) (new_org name who w) true;
             ERead ["users"; who] (answered E Get ["users"; who]);
             EWrite SetDoc (memberRef orgId who)
               (new_member E who authEmail w) true;
             EWrite SetDoc (indexRef who orgId) (new_index orgId name w) false]).
    - now constructor.
    - unfold MyClinics.create.
      unfold bind at 1, serverTimestamp at 1. unfold bind at 1.
      rewrite setDoc_accepted by (reflexivity || assumption).
      unfold bind at 1. rewrite load_seed_eq.
      rewrite (seen_seed_frame E w) by (simpl; now rewrite lookup_insert_ne).
      unfold bind at 1, serverTimestamp at 1. unfold bind at 1.
      rewrite setDoc_accepted by (reflexivity || assumption).
      unfold bind at 1, serverTimestamp at 1. unfold bind at 1.
      rewrite (setDoc_refused _ _ _ false _ e) by (reflexivity || assumption).
      reflexivity. }
  assert (Hacc : clinic_accepted E orgId who) by (repeat split; assumption).
  rewrite create_accepted by assumption.
  destruct (setOrg E orgId (Some (VStr name)) _) as [[[[]|e] w'] l] eqn:Hs.
  - now apply create_done.
  - now apply create_scope_failed.
Qed.

Lemma setOrg_log E orgId orgName w0 r w' l :
  setOrg E orgId orgName w0 = (r, w', l) ->
  db w' = replay l (db w0) /\
  map fst (writes l) `prefix_of`
    [(Update, ["users"; default EmptyString (scope_user E)]);
     (SetMerge, ["users"; default EmptyString (scope_user E)])].
Proof.
  intros H. destruct (JsString.nonempty orgId) eqn:Ho.
  - pose proof (setOrg_scope_run E orgId orgName w0 Ho) as R. rewrite H in R.
    split.
    + eapply scope_run_replay; eassumption.
    + eapply scope_run_writes; eassumption.
  - rewrite setOrg_missing in H by assumption. injection H as <- <- <-.
    split; [reflexivity|]. eexists; reflexivity.
Qed.

(** The remote writes of [onCreateClinic], in the order of the source. *)
Definition clinic_writes (orgId who su : string) : list (opkind * path) :=
  [(SetDoc, clinicRef orgId);
   (SetDoc, memberRef orgId who);
   (SetDoc, indexRef who orgId);
   (Update, ["users"; su]);
   (SetMerge, ["users"; su])].

Lemma writes_clinic_events E orgId name who authEmail w :
  writes (clinic_events E orgId name who authEmail w) =
    [(SetDoc, clinicRef orgId, true); (SetDoc, memberRef orgId who, true);
     (SetDoc, indexRef who orgId, true)].
Proof. reflexivity. Qed.

Lemma replay_clinic_events E orgId name who authEmail w :
  replay (clinic_events E orgId name who authEmail w) (db w)
    = db (with_index E orgId name who authEmail w).
Proof. reflexivity. Qed.

Lemma create_log E orgId name who authEmail w r w' l :
  create_run E orgId name who authEmail w (r, w', l) ->
  db w' = replay l (db w) /\
  map fst (writes l) `prefix_of`
    clinic_writes orgId who (default EmptyString (scope_user E)) /\
  (forall i kp, i < 3 -> writes l !! i = Some (kp, false) ->
                length (writes l) = S i) /\
  (forall o, r = Val o -> o = MyClinics.Created /\ busy w' = false).
Proof.
  intros H.
  inversion H as [e Ho | e Ho Hm | e Ho Hm Hi | e w1 l1 Hacc Hs | w1 l1 Hacc Hs];
    subst.
  1-3: split; [reflexivity|]; split; [eexists; reflexivity|];
       split; [|discriminate];
       intros [|[|[|i]]] kp Hlt; simpl; intros [=]; (reflexivity || lia).
  - apply setOrg_log in Hs as (Hd & Hp).
    split; [rewrite Hd; reflexivity|]. split; [|split; [|discriminate]].
    + cbn [writes omap list_omap clinic_events app map fst] in *.
      now apply (prefix_app [_; _; _]).
    + intros [|[|[|i]]] kp Hlt; simpl; intros [=]; lia.
  - apply setOrg_log in Hs as (Hd & Hp).
    split; [transitivity (db w1); [reflexivity|]; rewrite Hd; reflexivity|].
    split; [|split].
    + cbn [writes omap list_omap clinic_events app map fst] in *.
      now apply (prefix_app [_; _; _]).
    + intros [|[|[|i]]] kp Hlt; simpl; intros [=]; lia.
    + intros o [= <-]. split; reflexivity.
Qed.




(** ** [createClinic] of [Onboarding]: the name and the writes *)

Fixpoint has_nonspace (s : string) : bool :=
  match s with
  | EmptyString => false
  | String c r => negb (JsString.is_space c) || has_nonspace r
  end.

Lemma trimEnd_nonspace s :
  has_nonspace s = true -> JsString.nonempty (JsString.trimEnd s) = true.
Proof.
  induction s as [|c r IH]; simpl; [discriminate|].
  intros H. destruct (JsString.trimEnd r) eqn:Hr; [|reflexivity].
  destruct (JsString.is_space c); [|reflexivity].
  simpl in H. specialize (IH H). discriminate.
Qed.

Lemma trimStart_nonspace s :
  has_nonspace (JsString.trimStart s) = has_nonspace s.
Proof.
  induction s as [|c r IH]; simpl; [reflexivity|].
  destruct (JsString.is_space c) eqn:Hc; simpl; [exact IH|].
  now rewrite Hc.
Qed.

Lemma trim_nonempty s :
  JsString.nonempty (JsString.trim s) = has_nonspace s.
Proof.
  unfold JsString.trim. rewrite <- (trimStart_nonspace s).
  destruct (has_nonspace (JsString.trimStart s)) eqn:H.
  - now apply trimEnd_nonspace.
  - clear -H. induction (JsString.trimStart s) as [|c r IH]; [reflexivity|].
    simpl in *. apply orb_false_iff in H as [Hc Hr].
    apply negb_false_iff in Hc. specialize (IH Hr).
    destruct (JsString.trimEnd r); [|discriminate]. now rewrite Hc.
Qed.

Lemma has_nonspace_app a b :
  has_nonspace (a ++ b) = has_nonspace a || has_nonspace b.
Proof.
  induction a as [|c r IH]; simpl; [reflexivity|].
  now rewrite IH, orb_assoc.
Qed.

Lemma defaultClinicName_not_blank firstName displayName :
  has_nonspace (Onboarding.defaultClinicName firstName displayName) = true.
Proof.
  unfold Onboarding.defaultClinicName.
  destruct (JsString.nonempty (JsString.trim _)); [|reflexivity].
  rewrite has_nonspace_app. apply orb_true_r.
Qed.

Lemma create_result E orgId name u firstName lastName w o w' l :
  Onboarding.create_first E orgId name u firstName lastName w = (Val o, w', l) ->
  o = Onboarding.Opened.
Proof.
  unfold Onboarding.create_first. intros H.
  repeat (apply bind_inv in H as [(? & ? & ? & ? & _ & H & _) | (? & _ & [=])]).
  unfold ret in H. now injection H as <- _ _.
Qed.

Lemma createClinic_eq E orgId u clinicName firstName lastName w :
  storage_denied E = false ->
  JsString.truthy (localStorage w !! PENDING_INVITE_KEY) = false ->
  let name :=
    JsString.trim (if JsString.nonempty clinicName then clinicName
                   else Onboarding.defaultClinicName firstName (displayName u)) in
  Onboarding.createClinic E orgId (Some u) clinicName firstName lastName w =
    if negb (JsString.nonempty name) then
      (Val Onboarding.NameRequired,
       set_err (Some "Clinic name is required.") w, [])
    else
      match Onboarding.create_first E orgId name u firstName lastName
              (set_err None (set_busy true w)) with
      | (Val o, w', l) => (Val o, set_busy false w', l)
      | (Exn e, w', l) =>
          (Val (Onboarding.OpenFailed e),
           set_busy false
             (set_err (Some (if JsString.nonempty e then e
                             else "Failed to create clinic.")) w'),
           l ++ [EConsoleError e])
      end.
Proof.
  intros Hs Hp. cbv zeta.
  unfold Onboarding.createClinic, bind at 1, getItem. rewrite Hs, Hp.
  cbv iota beta.
  destruct (JsString.nonempty (JsString.trim _)); cbn [negb]; [|reflexivity].
  unfold bind at 1, setBusy at 1, modify at 1.
  unfold bind at 1, setErr at 1, modify at 1.
  unfold finally, try_catch.
  destruct (Onboarding.create_first _ _ _ _ _ _ _) as [[[o|e] w'] l]; [reflexivity|].
  unfold bind, console_error, emit, setErr, modify, ret. cbn [app].
  reflexivity.
Qed.



(** *** The documents of the first clinic *)

Lemma swallow_setOrg_frame E orgId orgName w :
  exists w' l,
    swallow (setOrg E orgId orgName) w = (Val tt, w', l) /\
    busy w' = busy w /\ err w' = err w /\
    (forall p, Some p <> (scope_user E ≫= fun su => Some ["users"; su]) ->
               db w' !! p = db w !! p) /\
    List.filter is_navigate l = [].
Proof.
  unfold swallow, try_catch.
  destruct (JsString.nonempty orgId) eqn:Ho.
  - pose proof (setOrg_scope_run E orgId orgName w Ho) as R.
    destruct (setOrg E orgId orgName w) as [[r w'] l].
    pose proof (scope_run_frame _ _ _ _ _ _ _ R) as (_ & Hb & He & _ & Hf & _).
    assert (Hn : List.filter is_navigate l = [])
      by (inversion R; subst; reflexivity).
    destruct r as [[]|e]; eexists _, _; (split; [reflexivity|]);
      rewrite ?app_nil_r; repeat split; assumption.
  - rewrite setOrg_missing by assumption. eexists _, _.
    split; [reflexivity|]. repeat split.
Qed.

Section FirstClinic.

Context (E : env) (orgId name : string) (u : user)
  (firstName lastName : string) (w : world).

Definition first_org : document :=
  data_of (Onboarding.first_org_fields name u (VTime (clock w))).
Definition first_owner : document :=
  data_of (Onboarding.first_owner_fields u firstName lastName (VTime (S (clock w)))).
Definition first_index : document :=
  data_of (Onboarding.first_index_fields orgId name (VTime (S (S (clock w))))).

Definition with_first_clinic : world :=
  set_db (insert (indexRef (uid u) orgId) first_index)
    (set_db (insert (memberRef orgId (uid u)) first_owner)
       (set_db (insert (clinicRef orgId) first_org) w)).

End FirstClinic.

Lemma first_clinic_owned orgId name u firstName lastName w s :
  (forall p, length p = 4 \/ p = clinicRef orgId ->
     s !! p = db (with_first_clinic orgId name u firstName lastName w) !! p) ->
  owned_clinic s orgId name (uid u).
Proof.
  intros Hs. unfold owned_clinic.
  rewrite !(Hs (clinicRef orgId)) by (now right).
  rewrite !(Hs (memberRef orgId (uid u))) by (now left).
  rewrite !(Hs (indexRef (uid u) orgId)) by (now left).
  unfold with_first_clinic, clinicRef, memberRef, indexRef. simpl.
  rewrite lookup_insert_eq.
  rewrite (lookup_insert_ne _ ["users"; uid u; "orgMemberships"; orgId]
             ["orgs"; orgId; "members"; uid u]) by discriminate.
  rewrite lookup_insert_eq.
  rewrite !(lookup_insert_ne _ _ ["orgs"; orgId]) by discriminate.
  rewrite lookup_insert_eq. simpl.
  unfold first_org, first_owner, first_index.
  rewrite !data_of_lookup. repeat split.
Qed.

Lemma create_first_clinic E orgId name u firstName lastName w :
  clinic_accepted E orgId (uid u) ->
  exists w' l,
    Onboarding.create_first E orgId name u firstName lastName w =
      (Val Onboarding.Opened, w', l) /\
    busy w' = busy w /\ err w' = err w /\
    owned_clinic (db w') orgId name (uid u) /\
    List.filter is_navigate l = [ENavigate "/" true None].
Proof.
  intros (Ho & Hm & Hi).
  destruct (swallow_setOrg_frame E orgId (Some (VStr name))
              (with_first_clinic orgId name u firstName lastName w))
    as (w' & l & Hsw & Hb & He & Hf & Hn).
  exists w'. eexists. split.
  - unfold Onboarding.create_first.
    unfold bind at 1, serverTimestamp at 1. unfold bind at 1.
    rewrite setDoc_accepted by (reflexivity || assumption).
    unfold bind at 1, serverTimestamp at 1. unfold bind at 1.
    rewrite setDoc_accepted by (reflexivity || assumption).
    unfold bind at 1, serverTimestamp at 1. unfold bind at 1.
    rewrite setDoc_accepted by (reflexivity || assumption).
    unfold bind at 1.
    change (set_db _ (set_db _ (set_db _ w)))
      with (with_first_clinic orgId name u firstName lastName w).
    rewrite Hsw. unfold bind, navigate, emit, ret. cbn [app]. reflexivity.
  - split; [exact Hb|]. split; [exact He|]. split.
    + apply (first_clinic_owned orgId name u firstName lastName w).
      intros p Hp. apply Hf.
      destruct (scope_user E) as [su|]; simpl.
      * intros [= ->]. destruct Hp as [Hp | Hp]; discriminate.
      * intros [=].
    + cbn [List.filter is_navigate app]. rewrite !List.filter_app, Hn.
      reflexivity.
Qed.



From Stdlib Require Import Sorted.

(** ** Sorting, as [Array.prototype.sort] does it

    The sort of JavaScript is stable, and for a comparator that orders its
    arguments consistently the result is the one sorted arrangement in
    which equal elements keep their order: the one that insertion from the
    right computes. *)

Section Sort.

Context {A : Type} (cmp : A -> A -> Z).

Fixpoint insert_sorted (x : A) (l : list A) : list A :=
  match l with
  | [] => [x]
  | y :: rest =>
      if (cmp x y <=? 0)%Z then x :: l else y :: insert_sorted x rest
  end.

Definition sort (l : list A) : list A := foldr insert_sorted [] l.

Lemma insert_sorted_perm x l : Permutation (insert_sorted x l) (x :: l).
Proof.
  induction l as [|y rest IH]; simpl; [reflexivity|].
  destruct (cmp x y <=? 0)%Z; [reflexivity|].
  rewrite IH. apply perm_swap.
Qed.

Lemma sort_perm l : Permutation (sort l) l.
Proof.
  induction l as [|x l IH]; simpl; [reflexivity|].
  rewrite insert_sorted_perm. now constructor.
Qed.

End Sort.

(** Sorting by a number, largest first: the comparator [(a, b) => key(b) - key(a)]. *)
Section Descending.

Context {A : Type} (key : A -> Z) (cmp : A -> A -> Z).
Hypothesis cmp_key : forall a b, (cmp a b <= 0)%Z -> (key b <= key a)%Z.
Hypothesis cmp_key' : forall a b, (0 < cmp a b)%Z -> (key a <= key b)%Z.

Definition descending (l : list A) : Prop :=
  StronglySorted (fun a b => (key b <= key a)%Z) l.

Lemma insert_sorted_descending x l :
  descending l -> descending (insert_sorted cmp x l).
Proof.
  induction 1 as [|y rest Hs IH Hy]; simpl.
  - repeat constructor.
  - destruct (cmp x y <=? 0)%Z eqn:Hc.
    + apply Z.leb_le in Hc. apply cmp_key in Hc.
      constructor; [now constructor|].
      constructor; [exact Hc|].
      eapply Forall_impl; [exact Hy|]. simpl. intros; lia.
    + apply Z.leb_gt in Hc. apply cmp_key' in Hc.
      constructor; [exact IH|].
      eapply Permutation_Forall; [symmetry; apply insert_sorted_perm|].
      constructor; [exact Hc | exact Hy].
Qed.

Lemma sort_descending l : descending (sort cmp l).
Proof.
  induction l as [|x l IH]; simpl; [constructor|].
  now apply insert_sorted_descending.
Qed.

Lemma sort_head_max l x :
  head (sort cmp l) = Some x -> Forall (fun y => (key y <= key x)%Z) l.
Proof.
  intros Hh. pose proof (sort_descending l) as Hs.
  pose proof (sort_perm cmp l) as Hp.
  destruct (sort cmp l) as [|z rest]; [discriminate|].
  injection Hh as ->. eapply Permutation_Forall; [exact Hp|].
  inversion Hs; subst. constructor; [lia | assumption].
Qed.

End Descending.

(** ** The list of [MyClinics] *)

Module ClinicList.

Inductive SortKey := NameAsc | NameDesc | JoinedAt.

(** A row of [users/{uid}/orgMemberships]; [joinedAt] in milliseconds. *)
Record OrgMembership := {
  orgId : string;
  orgName : option string;
  joinedAt : option Z;
}.

(** [(r.orgName || "").toLowerCase()] *)
Definition lower_name (r : OrgMembership) : string :=
  JsString.toLowerCase (default EmptyString (orgName r)).

(** [r.joinedAt?.toMillis?.() ?? 0] *)
Definition millis (r : OrgMembership) : Z := default 0%Z (joinedAt r).

Section Memo.

(** [String.prototype.localeCompare], which depends on the locale. *)
Context (localeCompare : string -> string -> Z).

(** The memo [list]: the rows that are shown for the search text [q] and
    the sort key [sortBy]. *)
Definition shown (rows : list OrgMembership) (q : string) (sortBy : SortKey)
  : list OrgMembership :=
  let term := JsString.toLowerCase (JsString.trim q) in
  let items :=
    if JsString.nonempty term
    then List.filter (fun r => includes term (lower_name r)) rows
    else rows in
  match sortBy with
  | NameAsc =>
      sort (fun a b => localeCompare (lower_name a) (lower_name b)) items
  | NameDesc =>
      sort (fun a b => (- localeCompare (lower_name a) (lower_name b))%Z) items
  | JoinedAt => sort (fun a b => (millis b - millis a)%Z) items
  end.

End Memo.

End ClinicList.

(** The row matches the search text. *)
Definition matches (q : string) (r : ClinicList.OrgMembership) : bool :=
  includes (JsString.toLowerCase (JsString.trim q)) (ClinicList.lower_name r).

Lemma includes_empty s : includes EmptyString s = true.
Proof. destruct s; reflexivity. Qed.

Lemma shown_perm localeCompare rows q sortBy :
  Permutation (ClinicList.shown localeCompare rows q sortBy)
    (List.filter (matches q) rows).
Proof.
  unfold ClinicList.shown, matches.
  set (term := JsString.toLowerCase (JsString.trim q)).
  assert (Hitems :
    (if JsString.nonempty term
     then List.filter (fun r => includes term (ClinicList.lower_name r)) rows
     else rows)
    = List.filter (fun r => includes term (ClinicList.lower_name r)) rows).
  { destruct term; [|reflexivity]. simpl.
    induction rows as [|r rows IH]; [reflexivity|].
    simpl. rewrite includes_empty. now f_equal. }
  rewrite Hitems. destruct sortBy; apply sort_perm.
Qed.


(** X26.  Sorted by the time of joining, the list shows the most recent
    membership first: the times never increase from one row to the next,
    and a row without a time counts as the oldest possible time 0. *)
Theorem clinic_list_recent_first localeCompare rows q :
  descending ClinicList.millis
    (ClinicList.shown localeCompare rows q ClinicList.JoinedAt).
Proof.
  unfold ClinicList.shown. apply sort_descending; intros a b; lia.
Qed.

Example clinic_list_example :
  let row n t := {| ClinicList.orgId := n; ClinicList.orgName := Some n;
                    ClinicList.joinedAt := t |} in
  ClinicList.shown (fun _ _ => 0%Z)
    [row "North Clinic" (Some 5%Z); row "Harbour" (Some 9%Z);
     row "clinic south" None; row "Old Clinic" (Some 5%Z)]
    " CLINIC " ClinicList.JoinedAt
  = [row "North Clinic" (Some 5%Z); row "Old Clinic" (Some 5%Z);
     row "clinic south" None].
Proof. reflexivity. Qed.

(** ** The [ScopeProvider]: picking an organisation by itself *)

Module ScopeProvider.

(** [MyOrg]; [joinedAt] is [joinedAt?.getTime?.()]. *)
Record MyOrg := {
  id : string;
  name : string;
  joinedAt : option Z;
}.

Definition time (o : MyOrg) : Z := default 0%Z (joinedAt o).

Section AutoPick.

Context (E : env) (localeCompare : string -> string -> Z).

(** Most recently joined first, then by name. *)
Definition order (a b : MyOrg) : Z :=
  if negb (time b =? time a)%Z then (time b - time a)%Z
  else localeCompare (name a) (name b).

(** The effect "auto-pick org if none selected but memberships exist";
    [authUser] is the [scope_user] of the environment. *)
Definition autoPick (loading : bool) (myOrgs : list MyOrg) : M unit := fun w =>
  match scope_user E with
  | None => ret tt w
  | Some _ =>
      match selected_org w with
      | Some _ => ret tt w
      | None =>
          if loading then ret tt w
          else
            match head (sort order myOrgs) with
            | None => ret tt w
            | Some pick =>
                swallow (setOrg E (id pick) (Some (VStr (name pick)))) w
            end
      end
  end.

End AutoPick.

End ScopeProvider.

Lemma order_time localeCompare (a b : ScopeProvider.MyOrg) :
  ((ScopeProvider.order localeCompare a b <= 0)%Z ->
   (ScopeProvider.time b <= ScopeProvider.time a)%Z) /\
  ((0 < ScopeProvider.order localeCompare a b)%Z ->
   (ScopeProvider.time a <= ScopeProvider.time b)%Z).
Proof.
  unfold ScopeProvider.order.
  destruct (ScopeProvider.time b =? ScopeProvider.time a)%Z eqn:He; simpl.
  - apply Z.eqb_eq in He. lia.
  - lia.
Qed.

Lemma swallow_setOrg E orgId orgName w :
  exists w' l,
    swallow (setOrg E orgId orgName) w = (Val tt, w', l) /\
    (JsString.nonempty orgId = true ->
     scope w' = Some (orgId, scope_name orgName)).
Proof.
  unfold swallow, try_catch.
  destruct (JsString.nonempty orgId) eqn:Ho.
  - pose proof (setOrg_scope_run E orgId orgName w Ho) as R.
    destruct (setOrg E orgId orgName w) as [[r w'] l].
    inversion R; subst; eexists _, _; (split; [reflexivity|]); reflexivity.
  - rewrite setOrg_missing by assumption. eexists _, _.
    split; [reflexivity|]. discriminate.
Qed.

(** The effect has something to do. *)
Definition must_pick (E : env) (w : world) (loading : bool)
    (myOrgs : list ScopeProvider.MyOrg) : Prop :=
  scope_user E <> None /\ selected_org w = None /\ loading = false /\
  myOrgs <> [].

(** X27.  The provider picks an organisation by itself only for a
    signed-in user who has none selected, once the memberships are loaded
    and there is at least one; in every other case it does nothing.  The
    organisation it picks is a membership with the latest time of joining,
    and the effect never throws, whatever [setOrg] does. *)
Theorem auto_pick_takes_the_latest E localeCompare loading myOrgs w :
  let r := ScopeProvider.autoPick E localeCompare loading myOrgs w in
  result r = Val tt /\
  (~ must_pick E w loading myOrgs -> final r = w /\ events r = []) /\
  (must_pick E w loading myOrgs ->
   exists pick,
     In pick myOrgs /\
     Forall (fun o => (ScopeProvider.time o <= ScopeProvider.time pick)%Z)
       myOrgs /\
     (JsString.nonempty (ScopeProvider.id pick) = true ->
      scope (final r)
        = Some (ScopeProvider.id pick, VStr (ScopeProvider.name pick)))).
Proof.
  cbv zeta. unfold ScopeProvider.autoPick, must_pick.
  destruct (scope_user E) as [su|].
  2:{ repeat split. intros (H & _). now destruct H. }
  destruct (selected_org w) as [o|].
  { repeat split. intros (_ & H & _). discriminate. }
  destruct loading.
  { repeat split. intros (_ & _ & H & _). discriminate. }
  pose proof (sort_perm (ScopeProvider.order localeCompare) myOrgs) as Hp.
  destruct (head (sort (ScopeProvider.order localeCompare) myOrgs))
    as [pick|] eqn:Hh.
  2:{ repeat split. intros (_ & _ & _ & H).
      destruct (sort _ myOrgs); [|discriminate].
      apply Permutation_nil in Hp. contradiction. }
  destruct (swallow_setOrg E (ScopeProvider.id pick)
              (Some (VStr (ScopeProvider.name pick))) w)
    as (w' & l & -> & Hs).
  unfold result, final, events. cbn [fst snd].
  split; [reflexivity|]. split.
  - intros Hn. destruct Hn. repeat split; try discriminate.
    intros ->. destruct (sort _ []) eqn:Hsort; discriminate.
  - intros _. exists pick. split; [|split].
    + eapply Permutation_in; [exact Hp|].
      destruct (sort _ myOrgs); [discriminate|]. injection Hh as ->. now left.
    + apply (sort_head_max ScopeProvider.time (ScopeProvider.order localeCompare));
        try assumption; intros a b; apply order_time.
    + exact Hs.
Qed.

Example auto_pick_example :
  let o n t := {| ScopeProvider.id := n; ScopeProvider.name := n;
                  ScopeProvider.joinedAt := t |} in
  scope (final (ScopeProvider.autoPick Scenario.quiet (fun _ _ => 0%Z) false
                  [o "orgA" (Some 3%Z); o "orgB" (Some 8%Z); o "orgC" None]
                  Scenario.start))
  = Some ("orgB", VStr "orgB").
Proof. reflexivity. Qed.

(** ** [ClinicMembersTab] of [src/components/clinicDetails/ClinicMembersTab.tsx]:
       the actions of a manager *)

Module ClinicMembersTab.

(** [InviteRow], the fields the actions read. *)
Record InviteRow := {
  id : string;
  email : string;
  role : string;
  status : string;
  claimedBy : option string;
  claimedEmail : option string;
  claimedFirstName : option string;
  claimedLastName : option string;
}.

(** A field of an invite as a string of [InviteRow]: [None] when it holds
    something that is neither a string nor falsy, which the type of the row
    excludes. *)
Definition text (o : option value) : option string :=
  if Js.truthy o
  then match o with Some (VStr s) => Some s | _ => None end
  else Some EmptyString.

(** The row that the subscription to the pending invites builds from the
    document [data] of the invite [id]; [x || ""] and [x || undefined]
    agree on what they keep. *)
Definition row_of (id : string) (data : document) : option InviteRow :=
  email ← text (data !! "email");
  role ← text (data !! "role");
  status ← text (data !! "status");
  claimedBy ← text (data !! "claimedBy");
  claimedEmail ← text (data !! "claimedEmail");
  claimedFirstName ← text (data !! "claimedFirstName");
  claimedLastName ← text (data !! "claimedLastName");
  Some {| id := id; email := email;
          role := if JsString.nonempty role then role else "member";
          status := if JsString.nonempty status then status else "pending";
          claimedBy := JsString.or_null claimedBy;
          claimedEmail := JsString.or_null claimedEmail;
          claimedFirstName := JsString.or_null claimedFirstName;
          claimedLastName := JsString.or_null claimedLastName |}.

(** How an action ends. *)
Inductive managed :=
| NotAllowed             (* [!canManage] *)
| Cancelled              (* the confirmation was declined *)
| NotClaimed             (* alert: the invite has not been claimed yet *)
| Managed
| Alerted (msg : string).

Section Actions.

(** [orgId] and [orgName] are the properties of the component, [me] is
    [auth.currentUser?.uid], [canManage] comes from the role of [me]. *)
Context (E : env) (orgId : string) (orgName : string) (me : option string)
  (canManage : bool).

(** [a || b] where [a] is a string and [b] a field of a document. *)
Definition or_field (a : string) (b : option value) : value :=
  if JsString.nonempty a then VStr a
  else if Js.truthy b then default (VStr EmptyString) b
  else VStr EmptyString.

(** The names and the address of the new member: from the claim, and from
    [users/{uid}] for what the claim lacks. *)
Definition load_profile (who : string) (inv : InviteRow)
  : M (value * value * value) :=
  let email :=
    JsString.trim
      (default EmptyString
         (JsString.or_else
            (JsString.or_else (claimedEmail inv) (Some (ClinicMembersTab.email inv)))
            (Some EmptyString))) in
  let firstName := default EmptyString (claimedFirstName inv) in
  let lastName := default EmptyString (claimedLastName inv) in
  if negb (JsString.nonempty firstName) || negb (JsString.nonempty lastName)
     || negb (JsString.nonempty email) then
    try_catch
      (snap <- getDoc E ["users"; who];;
       ret (match snap with
            | Some p =>
                (or_field firstName (p !! "firstName"),
                 or_field lastName (p !! "lastName"),
                 or_field email (p !! "email"))
            | None => (VStr firstName, VStr lastName, VStr email)
            end))
      (fun _ => ret (VStr firstName, VStr lastName, VStr email))
  else ret (VStr firstName, VStr lastName, VStr email).

Definition approved_member_fields (who : string) (inv : InviteRow)
    (p : value * value * value) (now : value) : fields :=
  [ ("userId", Some (VStr who));
    ("email", Some (snd p));
    ("firstName", Some (fst (fst p)));
    ("lastName", Some (snd (fst p)));
    ("role", Some (VStr (role inv)));
    ("addedAt", Some now) ].

Definition approved_index_fields (inv : InviteRow) (now : value) : fields :=
  [ ("orgId", Some (VStr orgId));
    ("orgName", Some (VStr (if JsString.nonempty orgName then orgName
                            else "Clinic")));
    ("role", Some (VStr (role inv)));
    ("joinedAt", Some now) ].

Definition accepted_fields (who : string) (now : value) : fields :=
  [ ("status", Some (VStr "accepted"));
    ("acceptedAt", Some now);
    ("acceptedBy", Some (Js.of_string (JsString.or_else me None)));
    ("acceptedUserId", Some (VStr who)) ].

(** The [try] block of [approveInvite]. *)
Definition approve (who : string) (inv : InviteRow) : M managed :=
  p <- load_profile who inv;;
  (* 1) member *)
  now <- serverTimestamp;;
  setDoc E ["orgs"; orgId; "members"; who] (approved_member_fields who inv p now) true;;
  (* 2) index *)
  now <- serverTimestamp;;
  setDoc E ["users"; who; "orgMemberships"; orgId] (approved_index_fields inv now) true;;
  (* 3) mark invite accepted *)
  now <- serverTimestamp;;
  updateDoc E ["orgs"; orgId; "invites"; id inv] (accepted_fields who now);;
  ret Managed.

Definition approveInvite (inv : InviteRow) : M managed :=
  if negb canManage then ret NotAllowed
  else
    let who := JsString.trim (default EmptyString (claimedBy inv)) in
    if negb (JsString.nonempty who) then ret NotClaimed
    else
      try_catch (approve who inv)
        (fun e => ret (Alerted (if JsString.nonempty e then e
                                else "Approve failed"))).

(** [confirmed] is the answer to [confirm(...)]. *)
Definition revokeInvite (confirmed : bool) (inviteId : string) : M managed :=
  if negb canManage then ret NotAllowed
  else if negb confirmed then ret Cancelled
  else
    try_catch
      (updateDoc E ["orgs"; orgId; "invites"; inviteId]
         [("status", Some (VStr "revoked"))];;
       ret Managed)
      (fun e => ret (Alerted (if JsString.nonempty e then e
                              else "Failed to revoke invite"))).

Definition removeMember (confirmed : bool) (userId : string) : M managed :=
  if negb canManage then ret NotAllowed
  else if negb confirmed then ret Cancelled
  else
    try_catch
      (deleteDoc E ["orgs"; orgId; "members"; userId];;
       ret Managed)
      (fun e => ret (Alerted (if JsString.nonempty e then e
                              else "Failed to remove member"))).

End Actions.

End ClinicMembersTab.

#[global] Arguments ClinicMembersTab.approve : simpl never.
#[global] Arguments ClinicMembersTab.approveInvite : simpl never.

Lemma updateDoc_accepted (E : env) (p : path) (fs : fields) (w : world)
    (old : document) :
  has_undefined fs = false ->
  rejects E Update p = None ->
  db w !! p = Some old ->
  updateDoc E p fs w =
    (Val tt, set_db (insert p (data_of fs ∪ old)) w,
     [EWrite Update p (data_of fs) true]).
Proof.
  intros Hv Hr Hd. unfold updateDoc, validated. rewrite Hv. simpl.
  now rewrite Hr, Hd.
Qed.

(** *** Approving a claimed invite *)

(** What [load_profile] comes back with: it writes nothing, and keeps each
    name that the claim gave. *)
Lemma load_profile_eq E who inv w :
  exists p l,
    ClinicMembersTab.load_profile E who inv w = (Val p, w, l) /\
    writes l = [] /\
    (forall f, ClinicMembersTab.claimedFirstName inv = Some f ->
               JsString.nonempty f = true -> fst (fst p) = VStr f) /\
    (forall s, ClinicMembersTab.claimedLastName inv = Some s ->
               JsString.nonempty s = true -> snd (fst p) = VStr s).
Proof.
  unfold ClinicMembersTab.load_profile.
  set (email := JsString.trim _).
  destruct (_ || _ || _).
  2:{ eexists _, _. split; [reflexivity|]. split; [reflexivity|].
      split; intros ? -> _; reflexivity. }
  unfold try_catch, bind, getDoc, ret.
  destruct (rejects E Get ["users"; who]).
  { eexists _, _. split; [reflexivity|]. split; [reflexivity|].
    split; intros ? -> _; reflexivity. }
  destruct (db w !! ["users"; who]) as [p|].
  - eexists _, _. split; [reflexivity|]. split; [reflexivity|].
    split; intros ? -> Hn; simpl; unfold ClinicMembersTab.or_field;
      now rewrite Hn.
  - eexists _, _. split; [reflexivity|]. split; [reflexivity|].
    split; intros ? -> _; reflexivity.
Qed.

(** The manager's three writes are accepted. *)
Definition approval_accepted (E : env) (orgId iid who : string) : Prop :=
  rejects E SetMerge (memberRef orgId who) = None /\
  rejects E SetMerge (indexRef who orgId) = None /\
  rejects E Update (inviteRef orgId iid) = None.

Section Approval.

Context (E : env) (orgId orgName : string) (me : option string) (who : string)
  (inv : ClinicMembersTab.InviteRow) (p : value * value * value) (w : world).

Definition approved_member : document :=
  data_of (ClinicMembersTab.approved_member_fields who inv p (VTime (clock w)))
  ∪ default ∅ (db w !! memberRef orgId who).
Definition approved_index : document :=
  data_of (ClinicMembersTab.approved_index_fields orgId orgName inv (VTime (S (clock w))))
  ∪ default ∅ (db w !! indexRef who orgId).
Definition accepted_invite (old : document) : document :=
  data_of (ClinicMembersTab.accepted_fields me who (VTime (S (S (clock w)))))
  ∪ old.

Definition approved (old : document) : world :=
  set_db (insert (inviteRef orgId (ClinicMembersTab.id inv)) (accepted_invite old))
    (set_db (insert (indexRef who orgId) approved_index)
       (set_db (insert (memberRef orgId who) approved_member) w)).

End Approval.

Lemma approve_accepted E orgId orgName me who inv w old :
  approval_accepted E orgId (ClinicMembersTab.id inv) who ->
  db w !! inviteRef orgId (ClinicMembersTab.id inv) = Some old ->
  exists p l,
    writes l = [] /\
    (forall f, ClinicMembersTab.claimedFirstName inv = Some f ->
               JsString.nonempty f = true -> fst (fst p) = VStr f) /\
    (forall s, ClinicMembersTab.claimedLastName inv = Some s ->
               JsString.nonempty s = true -> snd (fst p) = VStr s) /\
    ClinicMembersTab.approve E orgId orgName me who inv w =
      (Val ClinicMembersTab.Managed,
       approved orgId orgName me who inv p w old,
       l ++ [EWrite SetMerge (memberRef orgId who)
               (data_of (ClinicMembersTab.approved_member_fields who inv p
                           (VTime (clock w)))) true;
             EWrite SetMerge (indexRef who orgId)
               (data_of (ClinicMembersTab.approved_index_fields orgId orgName inv
                           (VTime (S (clock w))))) true;
             EWrite Update (inviteRef orgId (ClinicMembersTab.id inv))
               (data_of (ClinicMembersTab.accepted_fields me who
                           (VTime (S (S (clock w)))))) true]).
Proof.
  intros (Hm & Hi & Hu) Hold.
  destruct (load_profile_eq E who inv w) as (p & l & Hp & Hl & Hf & Hs).
  exists p, l. split; [exact Hl|]. split; [exact Hf|]. split; [exact Hs|].
  unfold ClinicMembersTab.approve.
  unfold bind at 1. rewrite Hp.
  unfold bind at 1, serverTimestamp at 1. unfold bind at 1.
  rewrite setDoc_accepted by (reflexivity || assumption).
  unfold bind at 1, serverTimestamp at 1. unfold bind at 1.
  rewrite setDoc_accepted by (reflexivity || assumption).
  unfold bind at 1, serverTimestamp at 1. unfold bind at 1.
  erewrite updateDoc_accepted; [| reflexivity | assumption | ].
  2:{ simpl. unfold inviteRef, indexRef, memberRef in *.
      rewrite !lookup_insert_ne by discriminate. exact Hold. }
  unfold ret, approved, approved_index, approved_member, accepted_invite.
  unfold inviteRef, indexRef, memberRef. simpl.
  rewrite lookup_insert_ne by discriminate. reflexivity.
Qed.

Lemma claim_name_fields inv u fn ln now :
  data_of (claim_fields inv u fn ln now) !! "claimedFirstName"
    = Some (Js.of_string fn) /\
  data_of (claim_fields inv u fn ln now) !! "claimedLastName"
    = Some (Js.of_string ln).
Proof.
  rewrite !data_of_lookup. unfold claim_fields. simpl.
  destruct (coalesce_some (inv !! "status") (VStr "pending")) as [v1 ->].
  destruct (coalesce_some (inv !! "role") (VStr "member")) as [v2 ->].
  destruct (coalesce_some (inv !! "email") VNull) as [v3 ->].
  destruct (coalesce_some (inv !! "phone") VNull) as [v4 ->].
  simpl. destruct (inv !! "createdBy"); split; reflexivity.
Qed.

(** The store after a run in which the claim went through and the member
    write was refused. *)
Lemma run_member_refused_store E w token orgParam u iid inv e :
  resolves E w token orgParam iid inv ->
  pending inv = true ->
  email_mismatch inv u = false ->
  names_resolved E w u = true ->
  claim_accepted E inv ->
  rejects E Update (inviteRef (default EmptyString orgParam) iid) = None ->
  rejects E SetDoc (memberRef (default EmptyString orgParam) (uid u)) = Some e ->
  db (final (run E token orgParam (Some u) w)) =
    <[inviteRef (default EmptyString orgParam) iid :=
        data_of (claim_fields inv u
                   (fst (fallback_names u (names_seen E w (uid u))))
                   (snd (fallback_names u (names_seen E w (uid u))))
                   (VTime (clock w))) ∪ inv]> (db w).
Proof.
  intros Hres Hp Hm Hn Hc Hr Hrm.
  rewrite (run_guard_passed _ _ _ _ _ _ _ Hres Hp Hm), Hn.
  assert (Hinv : db (set_busy true (entry E token orgParam w))
                 !! inviteRef (default EmptyString orgParam) iid = Some inv).
  { simpl. rewrite db_entry.
    now destruct Hres as (? & _ & _ & _ & _ & Hd). }
  rewrite (join_member_refused E _ iid inv u _ _ _ inv e) by assumption.
  unfold prepend, settle, result, final, events. simpl.
  rewrite db_entry. unfold claim_doc. simpl.
  unfold entry, stashed. now destruct (storage_denied E).
Qed.

Lemma text_string s : ClinicMembersTab.text (Some (VStr s)) = Some s.
Proof. unfold ClinicMembersTab.text. simpl. now destruct s. Qed.

Lemma text_of_string o :
  JsString.or_null (default EmptyString
                      (ClinicMembersTab.text (Some (Js.of_string o))))
  = JsString.or_else o None.
Proof.
  destruct o as [s|]; simpl; [|reflexivity].
  rewrite text_string. simpl. unfold JsString.or_null, JsString.or_else.
  simpl. reflexivity.
Qed.

(** What the row of a claimed invite says about the claim. *)
Lemma row_of_claimed iid (claimed : document) row who fn ln :
  ClinicMembersTab.row_of iid claimed = Some row ->
  claimed !! "claimedBy" = Some (VStr who) ->
  claimed !! "claimedFirstName" = Some (Js.of_string fn) ->
  claimed !! "claimedLastName" = Some (Js.of_string ln) ->
  ClinicMembersTab.id row = iid /\
  ClinicMembersTab.claimedBy row = JsString.or_null who /\
  ClinicMembersTab.claimedFirstName row = JsString.or_else fn None /\
  ClinicMembersTab.claimedLastName row = JsString.or_else ln None.
Proof.
  unfold ClinicMembersTab.row_of. intros H Hb Hf Hl.
  rewrite Hb, Hf, Hl in H.
  destruct (ClinicMembersTab.text (claimed !! "email")); [|discriminate].
  destruct (ClinicMembersTab.text (claimed !! "role")); [|discriminate].
  destruct (ClinicMembersTab.text (claimed !! "status")); [|discriminate].
  rewrite text_string in H. simpl in H.
  destruct (ClinicMembersTab.text (claimed !! "claimedEmail")); [|discriminate].
  simpl in H.
  pose proof (text_of_string fn) as Hfn. pose proof (text_of_string ln) as Hln.
  destruct (ClinicMembersTab.text (Some (Js.of_string fn))) as [f|];
    [|destruct fn; discriminate].
  destruct (ClinicMembersTab.text (Some (Js.of_string ln))) as [l|];
    [|destruct ln; discriminate].
  simpl in *. injection H as <-. simpl. repeat split; assumption.
Qed.

Lemma approveInvite_accepted E orgId orgName me who inv w old :
  ClinicMembersTab.claimedBy inv = Some who ->
  JsString.nonempty who = true ->
  JsString.trim who = who ->
  approval_accepted E orgId (ClinicMembersTab.id inv) who ->
  db w !! inviteRef orgId (ClinicMembersTab.id inv) = Some old ->
  exists p l,
    writes l = [] /\
    (forall f, ClinicMembersTab.claimedFirstName inv = Some f ->
               JsString.nonempty f = true -> fst (fst p) = VStr f) /\
    (forall s, ClinicMembersTab.claimedLastName inv = Some s ->
               JsString.nonempty s = true -> snd (fst p) = VStr s) /\
    result (ClinicMembersTab.approveInvite E orgId orgName me true inv w)
      = Val ClinicMembersTab.Managed /\
    final (ClinicMembersTab.approveInvite E orgId orgName me true inv w)
      = approved orgId orgName me who inv p w old /\
    writes (events (ClinicMembersTab.approveInvite E orgId orgName me true inv w))
      = [(SetMerge, memberRef orgId who, true);
         (SetMerge, indexRef who orgId, true);
         (Update, inviteRef orgId (ClinicMembersTab.id inv), true)].
Proof.
  intros Hby Hne Htrim Hacc Hold.
  destruct (approve_accepted E orgId orgName me who inv w old Hacc Hold)
    as (p & l & Hl & Hf & Hs & Heq).
  exists p, l. split; [exact Hl|]. split; [exact Hf|]. split; [exact Hs|].
  assert (Heq' :
    ClinicMembersTab.approveInvite E orgId orgName me true inv w
    = ClinicMembersTab.approve E orgId orgName me who inv w).
  { unfold ClinicMembersTab.approveInvite. cbn [negb].
    rewrite Hby. cbn [default from_option id]. rewrite Htrim, Hne. cbn [negb].
    unfold try_catch. now rewrite Heq. }
  rewrite Heq', Heq. unfold result, final, events. cbn [fst snd].
  split; [reflexivity|]. split; [reflexivity|].
  rewrite writes_app, Hl. reflexivity.
Qed.



(** *** Revoking an invite, removing a member *)

Lemma revokeInvite_accepted E orgId inviteId w old :
  rejects E Update (inviteRef orgId inviteId) = None ->
  db w !! inviteRef orgId inviteId = Some old ->
  ClinicMembersTab.revokeInvite E orgId true true inviteId w =
    (Val ClinicMembersTab.Managed,
     set_db (insert (inviteRef orgId inviteId)
               (data_of [("status", Some (VStr "revoked"))] ∪ old)) w,
     [EWrite Update (inviteRef orgId inviteId)
        (data_of [("status", Some (VStr "revoked"))]) true]).
Proof.
  intros Hr Hd. unfold ClinicMembersTab.revokeInvite, try_catch, bind. simpl.
  erewrite updateDoc_accepted; [reflexivity | reflexivity | assumption | assumption].
Qed.

(** X29.  A revoked invite can no longer be accepted.  After a manager
    revoked the invite, whoever opens its link while signed in is told that
    the invitation is not pending anymore, and the run writes nothing. *)
Theorem revoked_invite_is_refused Em E w w' token orgParam u iid inv :
  resolves E w token orgParam iid inv ->
  rejects Em Update (inviteRef (default EmptyString orgParam) iid) = None ->
  db w' = db (final (ClinicMembersTab.revokeInvite Em
                       (default EmptyString orgParam) true true iid w)) ->
  let r := run E token orgParam (Some u) w' in
  result r = Val NotPending /\
  halted w' "This invitation is not pending anymore." r.
Proof.
  intros Hres Hrm Hdb. cbv zeta.
  assert (Hinv : db w !! inviteRef (default EmptyString orgParam) iid = Some inv)
    by now destruct Hres as (? & _ & _ & _ & _ & Hd).
  rewrite (revokeInvite_accepted _ _ _ _ inv Hrm Hinv) in Hdb.
  unfold final in Hdb. simpl in Hdb.
  set (revoked := data_of [("status", Some (VStr "revoked"))] ∪ inv) in Hdb.
  assert (Hres' : resolves E w' token orgParam iid revoked).
  { destruct Hres as (tokenData & (Hv & Hr & Ht) & Hi & Hn & Hri & _).
    exists tokenData. unfold token_found. rewrite Hdb.
    unfold tokenRef, inviteRef in *.
    rewrite lookup_insert_ne by discriminate.
    split; [split; [exact Hv | split; assumption]|].
    split; [exact Hi|]. split; [exact Hn|]. split; [exact Hri|].
    apply lookup_insert_eq. }
  assert (Hp : pending revoked = false).
  { unfold pending, revoked.
    erewrite lookup_union_Some_l by (rewrite data_of_lookup; reflexivity).
    reflexivity. }
  rewrite (run_resolved _ _ _ _ _ _ _ Hres'), Hp.
  destruct (stash_events_quiet E (invitePath token (default EmptyString orgParam)))
    as (Hsw & _ & Hsn & _).
  unfold halted, result, final, events. simpl.
  repeat split.
  - apply db_entry.
  - now rewrite writes_app, Hsw.
  - now rewrite List.filter_app, Hsn.
Qed.

Lemma revoked_invite_is_refused_witness :
  let wr := final (ClinicMembersTab.revokeInvite Scenario.quiet "orgA" true true
                     "inv1" Scenario.start) in
  let r := run Scenario.quiet (Some "tok123") (Some "orgA")
             (Some Scenario.pat) wr in
  result r = Val NotPending /\ writes (events r) = [].
Proof.
  cbv zeta.
  destruct (revoked_invite_is_refused Scenario.quiet Scenario.quiet
              Scenario.start
              (final (ClinicMembersTab.revokeInvite Scenario.quiet "orgA" true
                        true "inv1" Scenario.start))
              (Some "tok123") (Some "orgA") Scenario.pat "inv1"
              (Scenario.invite "pending"))
    as (Hr & _ & _ & _ & Hw & _).
  - exists {[ "inviteId" := VStr "inv1" ]}.
    repeat split; vm_compute; reflexivity.
  - reflexivity.
  - reflexivity.
  - split; [exact Hr | exact Hw].
Defined.

(** X30.  [removeMember] removes the member document and nothing else: the
    entry of the organisation in the index of the removed user stays, so
    the clinic is still listed for them.  Without the right to manage or
    without the confirmation it does nothing, and it never throws. *)
Theorem removeMember_leaves_the_index E orgId canManage confirmed userId w :
  let r := ClinicMembersTab.removeMember E orgId canManage confirmed userId w in
  (exists o, result r = Val o) /\
  (forall p, p <> memberRef orgId userId -> db (final r) !! p = db w !! p) /\
  (result r = Val ClinicMembersTab.Managed ->
   db (final r) !! memberRef orgId userId = None) /\
  (canManage && confirmed = false -> final r = w /\ events r = []) /\
  (canManage && confirmed = true ->
   writes (events r)
     = [(Delete, memberRef orgId userId,
         answered E Delete (memberRef orgId userId))]).
Proof.
  cbv zeta. unfold ClinicMembersTab.removeMember.
  destruct canManage; simpl.
  2:{ split; [eauto|]. repeat split; try discriminate. }
  destruct confirmed; simpl.
  2:{ split; [eauto|]. repeat split; try discriminate. }
  unfold try_catch, bind, deleteDoc, answered, memberRef.
  destruct (rejects E Delete ["orgs"; orgId; "members"; userId]);
    unfold result, final, events; simpl.
  - split; [eauto|]. repeat split; try discriminate.
  - split; [eauto|]. split; [|split; [|split; [discriminate|reflexivity]]].
    + intros p Hp. now rewrite lookup_delete_ne by congruence.
    + intros _. apply lookup_delete_eq.
Qed.
